(** * A shallow embedding of the generic DAG engine (JodeZer/dag)

    The development follows [typed_dag.go] (type [GenericDAG]),
    [generic_visitor.go], [generic_marshal.go] and the legacy walkers of
    [visitor.go].  Go maps become stdpp's [gmap]/[gset]; a Go [range] over a
    map, whose order the language leaves open, enumerates the key set through
    an order oracle that is only known to return a permutation of the keys.
    Loops that Go writes as [for { ... }] are iterated with fuel; for each of
    them a lemma shows that the fuel the model supplies is enough.  Locks are
    not modelled: every operation runs under the graph lock and is atomic. *)

From Stdlib Require OrderedTypeEx.
From stdpp Require Import base option list sorting relations gmap sets strings.

#[local] Set Warnings "-clear-no-such-hyp".

(** ** Errors *)

Inductive error (T : Type) : Type :=
  | IDEmptyError
  | IDUnknownError (id : string)
  | IDDuplicateError (id : string)
  | VertexDuplicateError (v : T)
  | SrcDstEqualError (src dst : string)
  | EdgeDuplicateError (src dst : string)
  | EdgeUnknownError (src dst : string)
  | EdgeLoopError (src dst : string).
Arguments IDEmptyError {T}.
Arguments IDUnknownError {T} id.
Arguments IDDuplicateError {T} id.
Arguments VertexDuplicateError {T} v.
Arguments SrcDstEqualError {T} src dst.
Arguments EdgeDuplicateError {T} src dst.
Arguments EdgeUnknownError {T} src dst.
Arguments EdgeLoopError {T} src dst.

#[global] Instance error_eq_dec {T : Type} `{EqDecision T} : EqDecision (error T).
Proof. solve_decision. Defined.

(** ** The graph store *)

(** The keys of the maps are the hashes of the payloads.  A key of type [K]
    is found again under itself, which is what a Go map does for a key that
    [==] equates with itself.  A key that does not equal itself (a NaN, under
    a hash policy that returns the payload) is never found again by a Go map;
    such keys are not values of [K]. *)
Record GenericDAG (K T : Type) `{Countable K} : Type := mkDAG {
  vertices : gmap K string;
  vertexValues : gmap string T;
  inboundEdge : gmap K (gset K);
  outboundEdge : gmap K (gset K);
  ancestorsCache : gmap K (gset K);
  descendantsCache : gmap K (gset K)
}.
Arguments mkDAG {K T _ _} _ _ _ _ _ _.
Arguments vertices {K T _ _} _.
Arguments vertexValues {K T _ _} _.
Arguments inboundEdge {K T _ _} _.
Arguments outboundEdge {K T _ _} _.
Arguments ancestorsCache {K T _ _} _.
Arguments descendantsCache {K T _ _} _.

#[global] Instance GenericDAG_eq_dec {K T : Type} `{Countable K} `{EqDecision T} :
  EqDecision (GenericDAG K T).
Proof. solve_decision. Defined.

(** ** What the engine takes from its environment

    [hashVertex] is [d.options.VertexHashFunc]; [zero] is Go's zero value of
    the payload type, which a lookup of a missing id returns; [keys_order] and
    [ids_order] give the order in which a [range] enumerates a map keyed by
    hashes, resp. by ids. *)

Class Env (K T : Type) `{Countable K} : Type := mkEnv {
  hashVertex : T → K;
  zero : T;
  keys_order : gset K → list K;
  ids_order : gset string → list string
}.
Arguments mkEnv {K T _ _} _ _ _ _.

(** A [range] produces every key exactly once. *)
Class EnvOk {K T : Type} `{Countable K} (E : Env K T) : Prop := mkEnvOk {
  keys_order_perm : ∀ X : gset K, keys_order X ≡ₚ elements X;
  ids_order_perm : ∀ X : gset string, ids_order X ≡ₚ elements X
}.

(** The order of Go's [sort.Strings]: bytewise lexicographic. *)
Definition string_le (a b : string) : Prop := String.leb a b = true.

#[global] Instance string_le_dec (a b : string) : Decision (string_le a b) :=
  decide (String.leb a b = true).

Section model.
Context {K T : Type} `{Countable K} {E : Env K T}.

Abbreviation dag := (GenericDAG K T).
Abbreviation err := (error T).

Definition NewGenericDAG : dag := mkDAG ∅ ∅ ∅ ∅ ∅ ∅.

Definition set_vertices (f : gmap K string → gmap K string) (d : dag) : dag :=
  mkDAG (f (vertices d)) (vertexValues d) (inboundEdge d) (outboundEdge d)
        (ancestorsCache d) (descendantsCache d).
Definition set_vertexValues (f : gmap string T → gmap string T) (d : dag) : dag :=
  mkDAG (vertices d) (f (vertexValues d)) (inboundEdge d) (outboundEdge d)
        (ancestorsCache d) (descendantsCache d).
Definition set_inboundEdge (f : gmap K (gset K) → gmap K (gset K)) (d : dag) : dag :=
  mkDAG (vertices d) (vertexValues d) (f (inboundEdge d)) (outboundEdge d)
        (ancestorsCache d) (descendantsCache d).
Definition set_outboundEdge (f : gmap K (gset K) → gmap K (gset K)) (d : dag) : dag :=
  mkDAG (vertices d) (vertexValues d) (inboundEdge d) (f (outboundEdge d))
        (ancestorsCache d) (descendantsCache d).
Definition set_ancestorsCache (f : gmap K (gset K) → gmap K (gset K)) (d : dag) : dag :=
  mkDAG (vertices d) (vertexValues d) (inboundEdge d) (outboundEdge d)
        (f (ancestorsCache d)) (descendantsCache d).
Definition set_descendantsCache (f : gmap K (gset K) → gmap K (gset K)) (d : dag) : dag :=
  mkDAG (vertices d) (vertexValues d) (inboundEdge d) (outboundEdge d)
        (ancestorsCache d) (f (descendantsCache d)).

(** Reading a Go map: a missing key yields the zero value (the nil map, the
    empty string, the zero payload). *)
Definition at_key (m : gmap K (gset K)) (k : K) : gset K := default ∅ (m !! k).
Definition id_of (d : dag) (k : K) : string := default EmptyString (vertices d !! k).
Definition value_of (d : dag) (id : string) : T := default zero (vertexValues d !! id).
Definition key_of (d : dag) (id : string) : K := hashVertex (value_of d id).

(** [delete(m[k], x)]: removes [x] from the set stored under [k]; on a
    missing [k] the inner map is nil and nothing happens. *)
Definition delete_at (k x : K) (m : gmap K (gset K)) : gmap K (gset K) :=
  alter (λ s, s ∖ {[x]}) k m.

(** [if _, exists := m[k]; !exists { m[k] = make(...) }; m[k][x] = struct{}{}] *)
Definition insert_at (k x : K) (m : gmap K (gset K)) : gmap K (gset K) :=
  <[k := at_key m k ∪ {[x]}]> m.

(** [for x := range xs { delete(cache, x) }] *)
Definition delete_all (xs : gset K) (cache : gmap K (gset K)) : gmap K (gset K) :=
  foldl (λ c x, delete x c) cache (keys_order xs).

(** ** Vertices *)

Definition saneID (d : dag) (id : string) : option err :=
  if decide (id = EmptyString) then Some IDEmptyError
  else match vertexValues d !! id with
       | None => Some (IDUnknownError id)
       | Some _ => None
       end.

Definition addVertexByID (id : string) (v : T) (d : dag) : dag * option err :=
  let vHash := hashVertex v in
  match vertices d !! vHash with
  | Some _ => (d, Some (VertexDuplicateError v))
  | None =>
    match vertexValues d !! id with
    | Some _ => (d, Some (IDDuplicateError id))
    | None =>
      (set_vertexValues (insert id v) (set_vertices (insert vHash id) d), None)
    end
  end.

Definition AddVertexByID (id : string) (v : T) (d : dag) : dag * option err :=
  addVertexByID id v d.

(** [addVertex]: the id is the payload's own [ID()] or a fresh uuid; either
    way it reaches the model as the argument [id]. *)
Definition addVertex (id : string) (v : T) (d : dag) : dag * (string * option err) :=
  let '(d', e) := addVertexByID id v d in (d', (id, e)).

Definition AddVertex (id : string) (v : T) (d : dag) : dag * (string * option err) :=
  addVertex id v d.

Definition GetVertex (d : dag) (id : string) : T + err :=
  if decide (id = EmptyString) then inr IDEmptyError
  else match vertexValues d !! id with
       | None => inr (IDUnknownError id)
       | Some v => inl v
       end.

(** ** Edges *)

Definition isEdge (d : dag) (srcHash dstHash : K) : bool :=
  match outboundEdge d !! srcHash with
  | None => false
  | Some out =>
    if decide (dstHash ∈ out) then
      match inboundEdge d !! dstHash with
      | None => false
      | Some inb => bool_decide (srcHash ∈ inb)
      end
    else false
  end.

(** The inner loop of the BFS: every child not yet in [visited] is marked
    and appended to the queue. *)
Definition enqueue_unvisited (children : list K) (st : gset K * list K) : gset K * list K :=
  foldl (λ '(visited, fifo) child,
           if decide (child ∈ visited) then (visited, fifo)
           else ({[child]} ∪ visited, fifo ++ [child]))
        st children.

(** The [for { ... }] loop of [wouldCreateLoop]; [None] is out of fuel. *)
Fixpoint wouldCreateLoop_loop (n : nat) (d : dag) (srcHash : K)
    (visited : gset K) (fifo : list K) : option bool :=
  match n with
  | 0 => None
  | S n' =>
    match fifo with
    | [] => Some false
    | top :: fifo' =>
      if decide (top = srcHash) then Some true
      else
        let '(visited', fifo'') :=
          enqueue_unvisited (keys_order (at_key (outboundEdge d) top)) (visited, fifo') in
        wouldCreateLoop_loop n' d srcHash visited' fifo''
    end
  end.

(** Every key that some vertex has as a child: only these enter the queue. *)
Definition all_children (m : gmap K (gset K)) : gset K :=
  ⋃ ((map_to_list m).*2).

Definition wouldCreateLoop_fuel (d : dag) : nat := S (size (all_children (outboundEdge d))).

Definition wouldCreateLoop (d : dag) (srcHash dstHash : K) : option bool :=
  let children := keys_order (at_key (outboundEdge d) dstHash) in
  wouldCreateLoop_loop (wouldCreateLoop_fuel d) d srcHash (list_to_set children) children.

(** ** The reachability cache

    [getDescendants] and [getAncestors] are the same memoised recursion, over
    [outboundEdge] with [descendantsCache] and over [inboundEdge] with
    [ancestorsCache]; [getRelatives] is that recursion with the adjacency map
    and the cache passed in.  The recursion depth is the fuel [n]. *)
Fixpoint getRelatives (n : nat) (edges : gmap K (gset K)) (cache : gmap K (gset K))
    (vHash : K) : option (gmap K (gset K) * gset K) :=
  match n with
  | 0 => None
  | S n' =>
    match cache !! vHash with
    | Some c => Some (cache, c)
    | None =>
      r ← match edges !! vHash with
          | Some relatives =>
            foldl (λ acc relative,
                     '(cache1, local) ← acc;
                     '(cache2, rs) ← getRelatives n' edges cache1 relative;
                     Some (cache2, local ∪ rs ∪ {[relative]}))
                  (Some (cache, ∅)) (keys_order relatives)
          | None => Some (cache, ∅)
          end;
      Some (<[vHash := r.2]> r.1, r.2)
    end
  end.

Definition getRelatives_fuel (edges : gmap K (gset K)) : nat := S (size (dom edges)).

Definition getDescendants (d : dag) (vHash : K) : option (dag * gset K) :=
  '(cache, c) ← getRelatives (getRelatives_fuel (outboundEdge d))
                   (outboundEdge d) (descendantsCache d) vHash;
  Some (set_descendantsCache (λ _, cache) d, c).

Definition getAncestors (d : dag) (vHash : K) : option (dag * gset K) :=
  '(cache, c) ← getRelatives (getRelatives_fuel (inboundEdge d))
                   (inboundEdge d) (ancestorsCache d) vHash;
  Some (set_ancestorsCache (λ _, cache) d, c).

Definition flushCaches (d : dag) : dag :=
  set_descendantsCache (λ _, ∅) (set_ancestorsCache (λ _, ∅) d).

Definition FlushCaches (d : dag) : dag := flushCaches d.

(** ** Mutations of the edge set

    A mutation returns [None] when one of its loops runs out of fuel, and
    otherwise the new store with the error ([None] for Go's [nil]). *)

Definition AddEdge (srcID dstID : string) (d : dag) : option (dag * option err) :=
  match saneID d srcID with
  | Some e => Some (d, Some e)
  | None =>
  match saneID d dstID with
  | Some e => Some (d, Some e)
  | None =>
  if decide (srcID = dstID) then Some (d, Some (SrcDstEqualError srcID dstID))
  else
    let srcHash := key_of d srcID in
    let dstHash := key_of d dstID in
    if isEdge d srcHash dstHash then Some (d, Some (EdgeDuplicateError srcID dstID))
    else
      loop ← wouldCreateLoop d srcHash dstHash;
      if (loop : bool) then Some (d, Some (EdgeLoopError srcID dstID))
      else
        '(d1, descendants) ← getDescendants d dstHash;
        '(d2, ancestors) ← getAncestors d1 srcHash;
        let d3 := set_outboundEdge (insert_at srcHash dstHash) d2 in
        let d4 := set_inboundEdge (insert_at dstHash srcHash) d3 in
        let d5 := set_ancestorsCache (λ c, delete dstHash (delete_all descendants c)) d4 in
        let d6 := set_descendantsCache (λ c, delete srcHash (delete_all ancestors c)) d5 in
        Some (d6, None)
  end end.

Definition IsEdge (d : dag) (srcID dstID : string) : bool * option err :=
  match saneID d srcID with
  | Some e => (false, Some e)
  | None =>
  match saneID d dstID with
  | Some e => (false, Some e)
  | None =>
  if decide (srcID = dstID) then (false, Some (SrcDstEqualError srcID dstID))
  else (isEdge d (key_of d srcID) (key_of d dstID), None)
  end end.

Definition DeleteEdge (srcID dstID : string) (d : dag) : option (dag * option err) :=
  match saneID d srcID with
  | Some e => Some (d, Some e)
  | None =>
  match saneID d dstID with
  | Some e => Some (d, Some e)
  | None =>
  if decide (srcID = dstID) then Some (d, Some (SrcDstEqualError srcID dstID))
  else
    let srcHash := key_of d srcID in
    let dstHash := key_of d dstID in
    if negb (isEdge d srcHash dstHash) then Some (d, Some (EdgeUnknownError srcID dstID))
    else
      '(d1, descendants) ← getDescendants d srcHash;
      '(d2, ancestors) ← getAncestors d1 dstHash;
      let d3 := set_outboundEdge (delete_at srcHash dstHash) d2 in
      let d4 := set_inboundEdge (delete_at dstHash srcHash) d3 in
      let d5 := set_ancestorsCache (λ c, delete srcHash (delete_all descendants c)) d4 in
      let d6 := set_descendantsCache (λ c, delete dstHash (delete_all ancestors c)) d5 in
      Some (d6, None)
  end end.

Definition DeleteVertex (id : string) (d : dag) : option (dag * option err) :=
  match saneID d id with
  | Some e => Some (d, Some e)
  | None =>
    let vHash := key_of d id in
    '(d1, descendants) ← getDescendants d vHash;
    '(d2, ancestors) ← getAncestors d1 vHash;
    (* delete v in outbound edges of parents *)
    let d3 := set_outboundEdge
                (λ out, foldl (λ o parent, delete_at parent vHash o) out
                              (keys_order (at_key (inboundEdge d2) vHash))) d2 in
    (* delete v in inbound edges of children *)
    let d4 := set_inboundEdge
                (λ inb, foldl (λ i child, delete_at child vHash i) inb
                              (keys_order (at_key (outboundEdge d3) vHash))) d3 in
    (* delete in- and outbound of v itself *)
    let d5 := set_outboundEdge (delete vHash) (set_inboundEdge (delete vHash) d4) in
    let d6 := set_ancestorsCache (λ c, delete vHash (delete_all descendants c)) d5 in
    let d7 := set_descendantsCache (λ c, delete vHash (delete_all ancestors c)) d6 in
    (* delete v itself *)
    let d8 := set_vertexValues (delete id) (set_vertices (delete vHash) d7) in
    Some (d8, None)
  end.

(** ** Queries *)

Definition getOrder (d : dag) : nat := size (vertices d).

Definition getSize (d : dag) : nat :=
  foldl (λ count k, count + size (at_key (outboundEdge d) k)) 0
        (keys_order (dom (outboundEdge d))).

(** [srcIDs, ok := d.inboundEdge[vHash]; !ok || len(srcIDs) == 0] *)
Definition no_relatives (edges : gmap K (gset K)) (vHash : K) : bool :=
  match edges !! vHash with
  | None => true
  | Some s => bool_decide (size s = 0)
  end.

Definition getRoots (d : dag) : gmap string T :=
  foldl (λ roots vHash,
           if no_relatives (inboundEdge d) vHash
           then let id := id_of d vHash in <[id := value_of d id]> roots
           else roots)
        ∅ (keys_order (dom (vertices d))).


(** [for k := range ks { id := d.vertices[k]; out[id] = d.vertexValues[id] }] *)
Definition ids_of_keys (d : dag) (ks : gset K) : gmap string T :=
  foldl (λ out k, let id := id_of d k in <[id := value_of d id]> out) ∅ (keys_order ks).

Definition GetParents (d : dag) (id : string) : gmap string T * option err :=
  match saneID d id with
  | Some e => (∅, Some e)
  | None => (ids_of_keys d (at_key (inboundEdge d) (key_of d id)), None)
  end.

Definition getChildren (d : dag) (id : string) : gmap string T * option err :=
  match saneID d id with
  | Some e => (∅, Some e)
  | None => (ids_of_keys d (at_key (outboundEdge d) (key_of d id)), None)
  end.

Definition GetChildren (d : dag) (id : string) : gmap string T * option err :=
  getChildren d id.

Definition GetDescendants (id : string) (d : dag)
    : option (dag * (gmap string T * option err)) :=
  match saneID d id with
  | Some e => Some (d, (∅, Some e))
  | None =>
    '(d', ks) ← getDescendants d (key_of d id);
    Some (d', (ids_of_keys d' ks, None))
  end.

Definition GetAncestors (id : string) (d : dag)
    : option (dag * (gmap string T * option err)) :=
  match saneID d id with
  | Some e => Some (d, (∅, Some e))
  | None =>
    '(d', ks) ← getAncestors d (key_of d id);
    Some (d', (ids_of_keys d' ks, None))
  end.

(** [GetOrder], [GetSize], [GetRoots], [GetLeaves]: the locked entry points. *)
Definition GetOrder (d : dag) : nat := getOrder d.
Definition GetSize (d : dag) : nat := getSize d.

(** [GetVertices] copies [vertexValues] entry by entry. *)
Definition GetVertices (d : dag) : gmap string T :=
  foldl (λ out id, <[id := value_of d id]> out) ∅ (ids_order (dom (vertexValues d))).





(** ** The breadth-first walkers

    [walkDescendants] and [walkAncestors] are the same loop over
    [outboundEdge] and over [inboundEdge].  The ids sent on the channel are
    collected in a list; [GetOrderedDescendants] and [GetOrderedAncestors]
    drain the channel and never send the stop signal, so the [select] always
    takes its default branch. *)
Fixpoint walk_loop (n : nat) (d : dag) (edges : gmap K (gset K))
    (visited : gset K) (fifo : list K) (ids : list string) : option (list string) :=
  match n with
  | 0 => None
  | S n' =>
    match fifo with
    | [] => Some ids
    | top :: fifo' =>
      let '(visited', fifo'') :=
        enqueue_unvisited (keys_order (at_key edges top)) (visited, fifo') in
      walk_loop n' d edges visited' fifo'' (ids ++ [id_of d top])
    end
  end.

Definition walk_fuel (edges : gmap K (gset K)) : nat := S (size (all_children edges)).

Definition walkRelatives (d : dag) (edges : gmap K (gset K)) (vHash : K)
    : option (list string) :=
  let relatives := keys_order (at_key edges vHash) in
  walk_loop (walk_fuel edges) d edges (list_to_set relatives) relatives [].

Definition walkDescendants (d : dag) (vHash : K) : option (list string) :=
  walkRelatives d (outboundEdge d) vHash.

Definition walkAncestors (d : dag) (vHash : K) : option (list string) :=
  walkRelatives d (inboundEdge d) vHash.

Definition GetOrderedDescendants (d : dag) (id : string)
    : option (list string * option err) :=
  match saneID d id with
  | Some e => Some ([], Some e)
  | None => ids ← walkDescendants d (key_of d id); Some (ids, None)
  end.

Definition GetOrderedAncestors (d : dag) (id : string)
    : option (list string * option err) :=
  match saneID d id with
  | Some e => Some ([], Some e)
  | None => ids ← walkAncestors d (key_of d id); Some (ids, None)
  end.

(** ** Transitive reduction *)

(** One round of the [for vHash := range d.vertices] loop.  The second inner
    loop deletes from the map it ranges over; Go still produces every entry
    that was there, since only the current one is removed. *)
Definition reduce_vertex (st : dag * bool) (vHash : K) : dag * bool :=
  let d := st.1 in
  let children := keys_order (at_key (outboundEdge d) vHash) in
  let descendantsOfChildrenOfV :=
    foldl (λ acc childOfV, acc ∪ at_key (descendantsCache d) childOfV) ∅ children in
  foldl (λ st' childOfV,
           if decide (childOfV ∈ descendantsOfChildrenOfV)
           then (set_inboundEdge (delete_at childOfV vHash)
                   (set_outboundEdge (delete_at vHash childOfV) st'.1), true)
           else st')
        st children.

Definition ReduceTransitively (d : dag) : option dag :=
  let roots := getRoots d in
  d1 ← foldl (λ acc id, d' ← acc;
                fst <$> getDescendants d' (hashVertex (default zero (roots !! id))))
             (Some d) (ids_order (dom roots));
  let '(d2, graphChanged) :=
    foldl reduce_vertex (d1, false) (keys_order (dom (vertices d1))) in
  Some (if (graphChanged : bool) then flushCaches d2 else d2).

(** ** Walks of [generic_visitor.go]

    The visitor is abstract in the source; the model records the sequence of
    its invocations [(value, id)].  A slice used as a stack is a list whose
    head is the top; a slice used as a queue is a list whose head is the
    front. *)

Definition vertexIDsGeneric (vertices : gmap string T) : list string :=
  ids_order (dom vertices).

(** [for i := len(ids) - 1; i >= 0; i-- { if !visited[ids[i]] { push } }] *)
Definition push_reversed (visited : gset string) (ids stack : list string) : list string :=
  foldl (λ st id, if decide (id ∈ visited) then st else id :: st) stack (reverse ids).

(** [for _, id := range ids { if !visited[id] { queue = append(queue, id) } }] *)
Definition enqueue_ids (visited : gset string) (ids queue : list string) : list string :=
  foldl (λ q id, if decide (id ∈ visited) then q else q ++ [id]) queue ids.

Fixpoint GenericDFSWalk_loop (n : nat) (d : dag) (stack : list string)
    (visited : gset string) (trace : list (T * string)) : option (list (T * string)) :=
  match n with
  | 0 => None
  | S n' =>
    match stack with
    | [] => Some trace
    | id :: stack' =>
      let '(visited', trace') :=
        if decide (id ∈ visited) then (visited, trace)
        else ({[id]} ∪ visited, trace ++ [(value_of d id, id)]) in
      let childIDs := vertexIDsGeneric (getChildren d id).1 in
      GenericDFSWalk_loop n' d (push_reversed visited' childIDs stack') visited' trace'
    end
  end.

Definition GenericDFSWalk (n : nat) (d : dag) : option (list (T * string)) :=
  let ids := vertexIDsGeneric (getRoots d) in
  GenericDFSWalk_loop n d (push_reversed ∅ ids []) ∅ [].

Fixpoint GenericBFSWalk_loop (n : nat) (d : dag) (queue : list string)
    (visited : gset string) (trace : list (T * string)) : option (list (T * string)) :=
  match n with
  | 0 => None
  | S n' =>
    match queue with
    | [] => Some trace
    | id :: queue' =>
      let '(visited', trace') :=
        if decide (id ∈ visited) then (visited, trace)
        else ({[id]} ∪ visited, trace ++ [(value_of d id, id)]) in
      let childIDs := vertexIDsGeneric (getChildren d id).1 in
      GenericBFSWalk_loop n' d (enqueue_ids visited' childIDs queue') visited' trace'
    end
  end.

Definition GenericBFSWalk (n : nat) (d : dag) : option (list (T * string)) :=
  GenericBFSWalk_loop n d (vertexIDsGeneric (getRoots d)) ∅ [].

(** [for parent := range parents { if !visited[parent] { ...; break } }] *)
Definition hasUnvisitedParent (visited : gset string) (parents : list string) : bool :=
  existsb (λ parent, bool_decide (parent ∉ visited)) parents.

Fixpoint GenericOrderedWalk_loop (n : nat) (d : dag) (queue : list string)
    (visited : gset string) (trace : list (T * string)) : option (list (T * string)) :=
  match n with
  | 0 => None
  | S n' =>
    match queue with
    | [] => Some trace
    | id :: queue' =>
      if decide (id ∈ visited) then GenericOrderedWalk_loop n' d queue' visited trace
      else if hasUnvisitedParent visited (ids_order (dom (GetParents d id).1))
      then GenericOrderedWalk_loop n' d (queue' ++ [id]) visited trace
      else
        let visited' := {[id]} ∪ visited in
        let trace' := trace ++ [(value_of d id, id)] in
        let childIDs := vertexIDsGeneric (getChildren d id).1 in
        GenericOrderedWalk_loop n' d (enqueue_ids visited' childIDs queue') visited' trace'
    end
  end.

(** A bound on the number of dequeues of the topological walk.  With [n]
    live ids the queue never holds more than [b = n + n * n] entries (the
    roots, and at most [n] children for each vertex visited), and between two
    visits the walk turns the queue around at most once. *)
Definition OrderedWalk_fuel (d : dag) : nat :=
  let n := size (dom (vertexValues d)) in
  let b := n + n * n in S (S b * S b).

Definition GenericOrderedWalk_fuel (n : nat) (d : dag) : option (list (T * string)) :=
  GenericOrderedWalk_loop n d (vertexIDsGeneric (getRoots d)) ∅ [].

Definition GenericOrderedWalk (d : dag) : option (list (T * string)) :=
  GenericOrderedWalk_fuel (OrderedWalk_fuel d) d.

(** ** Serialisation ([generic_marshal.go])

    [json.Marshal] and [json.Unmarshal] are external codecs; the model stops
    at the value they exchange, [GenericStorableDAG]. *)

Record GenericStorableDAG : Type := mkStorable {
  Vertices : list (string * T);
  Edges : list (string * string)
}.

Record GenericMarshalVisitor : Type := mkVisitor {
  mv_vertices : list (string * T);
  mv_edges : list (string * string);
  mv_visited : gset string
}.

Definition NewGenericMarshalVisitor : GenericMarshalVisitor := mkVisitor [] [] ∅.

Definition mv_Visit (mv : GenericMarshalVisitor) (value : T) (id : string)
    : GenericMarshalVisitor :=
  if decide (id ∈ mv_visited mv) then mv
  else mkVisitor (mv_vertices mv ++ [(id, value)]) (mv_edges mv) ({[id]} ∪ mv_visited mv).

Definition mv_AddEdges (mv : GenericMarshalVisitor) (parentID : string)
    (children : gmap string T) : GenericMarshalVisitor :=
  mkVisitor (mv_vertices mv)
    (foldl (λ es childID, es ++ [(parentID, childID)]) (mv_edges mv)
           (ids_order (dom children)))
    (mv_visited mv).

Fixpoint MarshalJSON_loop (n : nat) (d : dag) (stack : list string)
    (visited : gset string) (visitor : GenericMarshalVisitor)
    : option GenericMarshalVisitor :=
  match n with
  | 0 => None
  | S n' =>
    match stack with
    | [] => Some visitor
    | id :: stack' =>
      let '(visited', visitor') :=
        if decide (id ∈ visited) then (visited, visitor)
        else ({[id]} ∪ visited, mv_Visit visitor (value_of d id) id) in
      let children := (getChildren d id).1 in
      let visitor'' := mv_AddEdges visitor' id children in
      let childIDs := vertexIDsGeneric children in
      MarshalJSON_loop n' d (push_reversed visited' childIDs stack') visited' visitor''
    end
  end.

Definition MarshalJSON (n : nat) (d : dag) : option GenericStorableDAG :=
  let ids := vertexIDsGeneric (getRoots d) in
  visitor ← MarshalJSON_loop n d (push_reversed ∅ ids []) ∅ NewGenericMarshalVisitor;
  Some (mkStorable (mv_vertices visitor) (mv_edges visitor)).

Fixpoint add_vertices (vs : list (string * T)) (g : dag) : dag + err :=
  match vs with
  | [] => inl g
  | (id, value) :: vs' =>
    match AddVertexByID id value g with
    | (_, Some e) => inr e
    | (g', None) => add_vertices vs' g'
    end
  end.

Fixpoint add_edges (es : list (string * string)) (g : dag) : option (dag + err) :=
  match es with
  | [] => Some (inl g)
  | (srcID, dstID) :: es' =>
    r ← AddEdge srcID dstID g;
    match r with
    | (_, Some e) => Some (inr e)
    | (g', None) => add_edges es' g'
    end
  end.

Definition UnmarshalGenericJSON (sd : GenericStorableDAG) : option (dag + err) :=
  match add_vertices (Vertices sd) NewGenericDAG with
  | inr e => Some (inr e)
  | inl g => add_edges (Edges sd) g
  end.

(** ** The legacy walkers ([visitor.go]) and the legacy [MarshalJSON]

    Modelled from the spec: the legacy [DAG] store with its [getRoots],
    [getChildren] and [GetParents] is not among the sources; the spec (4.5)
    gives them the meaning they have on [GenericDAG], so the legacy walkers
    below run over the store above, [vertexValues] standing for [vertexIds].
    The walkers themselves follow [visitor.go]. *)

(** [sort.Strings] *)
Definition vertexIDs (vertices : gmap string T) : list string :=
  merge_sort string_le (ids_order (dom vertices)).

Definition reversedVertexIDs (vertices : gmap string T) : list string :=
  reverse (vertexIDs vertices).

(** [for _, id := range ids { stack = append(stack, storableVertex{id, d.vertexIds[id]}) }] *)
Definition push_all (d : dag) (ids : list string) (stack : list (string * T))
    : list (string * T) :=
  foldl (λ st id, (id, value_of d id) :: st) stack ids.

(** [for _, id := range ids { queue.Enqueue(storableVertex{id, vertices[id]}) }] *)
Definition enqueue_all (vertices : gmap string T) (ids : list string)
    (queue : list (string * T)) : list (string * T) :=
  foldl (λ q id, q ++ [(id, default zero (vertices !! id))]) queue ids.

Section legacy_visitor.
Context {V : Type} (Visit : V → string * T → V).

Fixpoint DFSWalk_loop (n : nat) (d : dag) (stack : list (string * T))
    (visited : gset string) (visitor : V) : option V :=
  match n with
  | 0 => None
  | S n' =>
    match stack with
    | [] => Some visitor
    | sv :: stack' =>
      let '(visited', visitor') :=
        if decide (sv.1 ∈ visited) then (visited, visitor)
        else ({[sv.1]} ∪ visited, Visit visitor sv) in
      let vertices := (getChildren d sv.1).1 in
      DFSWalk_loop n' d (push_all d (reversedVertexIDs vertices) stack') visited' visitor'
    end
  end.

Definition DFSWalk (n : nat) (d : dag) (visitor : V) : option V :=
  DFSWalk_loop n d (push_all d (reversedVertexIDs (getRoots d)) []) ∅ visitor.

Fixpoint BFSWalk_loop (n : nat) (d : dag) (queue : list (string * T))
    (visited : gset string) (visitor : V) : option V :=
  match n with
  | 0 => None
  | S n' =>
    match queue with
    | [] => Some visitor
    | sv :: queue' =>
      let '(visited', visitor') :=
        if decide (sv.1 ∈ visited) then (visited, visitor)
        else ({[sv.1]} ∪ visited, Visit visitor sv) in
      let vertices := (getChildren d sv.1).1 in
      BFSWalk_loop n' d (enqueue_all vertices (vertexIDs vertices) queue') visited' visitor'
    end
  end.

Definition BFSWalk (n : nat) (d : dag) (visitor : V) : option V :=
  let vertices := getRoots d in
  BFSWalk_loop n d (enqueue_all vertices (vertexIDs vertices) []) ∅ visitor.

Fixpoint OrderedWalk_loop (n : nat) (d : dag) (queue : list (string * T))
    (visited : gset string) (visitor : V) : option V :=
  match n with
  | 0 => None
  | S n' =>
    match queue with
    | [] => Some visitor
    | sv :: queue' =>
      if decide (sv.1 ∈ visited) then OrderedWalk_loop n' d queue' visited visitor
      else if hasUnvisitedParent visited (ids_order (dom (GetParents d sv.1).1))
      then OrderedWalk_loop n' d (queue' ++ [sv]) visited visitor
      else
        let visited' := {[sv.1]} ∪ visited in
        let visitor' := Visit visitor sv in
        let vertices := (getChildren d sv.1).1 in
        OrderedWalk_loop n' d (enqueue_all vertices (vertexIDs vertices) queue')
                         visited' visitor'
    end
  end.

Definition OrderedWalk_fuel_n (n : nat) (d : dag) (visitor : V) : option V :=
  let vertices := getRoots d in
  OrderedWalk_loop n d (enqueue_all vertices (vertexIDs vertices) []) ∅ visitor.

End legacy_visitor.

(** The visitor that records its invocations. *)
Definition record_visit (trace : list (T * string)) (sv : string * T) : list (T * string) :=
  trace ++ [(sv.2, sv.1)].

(** The legacy walk enqueues all children of a visited vertex, visited or
    not; the bound of the generic walk covers it as well. *)
Definition OrderedWalk (d : dag) : option (list (T * string)) :=
  OrderedWalk_fuel_n record_visit (OrderedWalk_fuel d) d [].

(** [marshalVisitor.Visit] *)
Definition marshal_Visit (d : dag) (mv : GenericStorableDAG) (v : string * T)
    : GenericStorableDAG :=
  let children := (getChildren d v.1).1 in
  mkStorable (Vertices mv ++ [v])
    (foldl (λ es dstID, es ++ [(v.1, dstID)]) (Edges mv) (ids_order (dom children))).

(** [DAG.MarshalJSON] *)
Definition LegacyMarshalJSON (n : nat) (d : dag) : option GenericStorableDAG :=
  DFSWalk (marshal_Visit d) n d (mkStorable [] []).

End model.

(** ** Specification vocabulary *)

Section spec.
Context {K T : Type} `{Countable K} {E : Env K T}.

(** The relation an adjacency map stands for: [b] is listed under [a]. *)
Definition edge_of (edges : gmap K (gset K)) (a b : K) : Prop := b ∈ at_key edges a.

(** [edge d a b]: the store holds the edge a→b in its forward map. *)
Definition edge (d : GenericDAG K T) : relation K := edge_of (outboundEdge d).

(** The same edge as the reverse map records it: [in_edge d b a]. *)
Definition in_edge (d : GenericDAG K T) : relation K := edge_of (inboundEdge d).

(** A list of keys in which each one is related to the next. *)
Fixpoint chain (R : relation K) (l : list K) : Prop :=
  match l with
  | x :: l' => match l' with y :: _ => R x y | [] => True end ∧ chain R l'
  | [] => True
  end.

(** [b] is reachable from [a] along at least one outbound edge. *)
Definition reach (d : GenericDAG K T) : relation K := tc (edge d).

Definition live (d : GenericDAG K T) (id : string) : Prop := is_Some (vertexValues d !! id).

Definition adjacency_symmetric (d : GenericDAG K T) : Prop :=
  ∀ a b, b ∈ at_key (outboundEdge d) a ↔ a ∈ at_key (inboundEdge d) b.

Definition acyclic (d : GenericDAG K T) : Prop := ∀ a, ¬ reach d a a.

(** A populated cache entry is the transitive closure, nothing else. *)
Definition cache_correct (R : relation K) (cache : gmap K (gset K)) : Prop :=
  ∀ k S, cache !! k = Some S → ∀ x, x ∈ S ↔ tc R k x.

Definition descendants_cache_correct (d : GenericDAG K T) : Prop :=
  ∀ k S, descendantsCache d !! k = Some S → ∀ x, x ∈ S ↔ reach d k x.

Definition ancestors_cache_correct (d : GenericDAG K T) : Prop :=
  ∀ k S, ancestorsCache d !! k = Some S → ∀ x, x ∈ S ↔ reach d x k.

(** A cache closed under a relation: with a key it holds all its successors. *)
Definition cache_closed (R : relation K) (cache : gmap K (gset K)) : Prop :=
  ∀ k x, is_Some (cache !! k) → R k x → is_Some (cache !! x).

(** What one call of [getRelatives] on [v] establishes: the set returned is
    the closure of [v], the cache has grown, holds [v], is still correct, has
    new entries only for [v] and keys below it, and stays closed. *)
Definition relatives_post (edges cache : gmap K (gset K)) (v : K)
    (cache' : gmap K (gset K)) (D : gset K) : Prop :=
  (∀ x, x ∈ D ↔ tc (edge_of edges) v x) ∧
  cache ⊆ cache' ∧
  cache' !! v = Some D ∧
  cache_correct (edge_of edges) cache' ∧
  (∀ k, is_Some (cache' !! k) →
        is_Some (cache !! k) ∨ k = v ∨ tc (edge_of edges) v k) ∧
  (cache_closed (edge_of edges) cache → cache_closed (edge_of edges) cache').

(** The two cache fills that open every edge mutation. *)
Definition filled (d : GenericDAG K T) (kd ka : K)
    (cd : gmap K (gset K)) (D : gset K) (ca : gmap K (gset K)) (A : gset K) : Prop :=
  getRelatives (getRelatives_fuel (outboundEdge d)) (outboundEdge d)
    (descendantsCache d) kd = Some (cd, D) ∧
  getRelatives (getRelatives_fuel (inboundEdge d)) (inboundEdge d)
    (ancestorsCache d) ka = Some (ca, A).

(** [ReduceTransitively] drops a→b when the cache lists [b] below a child of [a]. *)
Definition redundant (d : GenericDAG K T) (a b : K) : Prop :=
  ∃ c, c ∈ at_key (outboundEdge d) a ∧ b ∈ at_key (descendantsCache d) c.

(** Two stores with the same vertices and edges; only the descendants cache
    may differ. *)
Definition same_graph (d d' : GenericDAG K T) : Prop :=
  vertices d' = vertices d ∧ vertexValues d' = vertexValues d ∧
  inboundEdge d' = inboundEdge d ∧ outboundEdge d' = outboundEdge d ∧
  ancestorsCache d' = ancestorsCache d.

(** The two vertex indices describe the same vertices. *)
Definition indices_consistent (d : GenericDAG K T) : Prop :=
  (∀ id v, vertexValues d !! id = Some v → vertices d !! hashVertex v = Some id) ∧
  (∀ k id, vertices d !! k = Some id →
           ∃ v, vertexValues d !! id = Some v ∧ hashVertex v = k).

(** Edges join live keys, and none touches a vertex stored under the empty
    id (no edge operation accepts that id). *)
Definition edges_live (d : GenericDAG K T) : Prop :=
  ∀ a b, edge d a b →
    ∃ ida idb, vertices d !! a = Some ida ∧ vertices d !! b = Some idb ∧
               ida ≠ EmptyString ∧ idb ≠ EmptyString.

Record dag_invariant (d : GenericDAG K T) : Prop := mkInv {
  inv_symmetric : adjacency_symmetric d;
  inv_acyclic : acyclic d;
  inv_indices : indices_consistent d;
  inv_edges_live : edges_live d;
  inv_descendants : descendants_cache_correct d;
  inv_ancestors : ancestors_cache_correct d;
  inv_closed : cache_closed (edge d) (descendantsCache d)
}.

(** The public operations that change the store or its caches. *)
Inductive op : Type :=
  | OpAddVertex (id : string) (v : T)
  | OpAddVertexByID (id : string) (v : T)
  | OpAddEdge (srcID dstID : string)
  | OpDeleteEdge (srcID dstID : string)
  | OpDeleteVertex (id : string)
  | OpReduceTransitively
  | OpFlushCaches
  | OpGetDescendants (id : string)
  | OpGetAncestors (id : string).

(** The store after an operation and the error it returned, if any. *)
Definition run_op (o : op) (d : GenericDAG K T) : option (GenericDAG K T * option (error T)) :=
  match o with
  | OpAddVertex id v => let r := AddVertex id v d in Some (r.1, r.2.2)
  | OpAddVertexByID id v => Some (AddVertexByID id v d)
  | OpAddEdge srcID dstID => AddEdge srcID dstID d
  | OpDeleteEdge srcID dstID => DeleteEdge srcID dstID d
  | OpDeleteVertex id => DeleteVertex id d
  | OpReduceTransitively => d' ← ReduceTransitively d; Some (d', None)
  | OpFlushCaches => Some (FlushCaches d, None)
  | OpGetDescendants id => r ← GetDescendants id d; Some (r.1, r.2.2)
  | OpGetAncestors id => r ← GetAncestors id d; Some (r.1, r.2.2)
  end.

Fixpoint run_ops (os : list op) (d : GenericDAG K T) : option (GenericDAG K T) :=
  match os with
  | [] => Some d
  | o :: os' => r ← run_op o d; run_ops os' r.1
  end.

(** The states a client can bring a new graph into. *)
Definition reachable (d : GenericDAG K T) : Prop :=
  ∃ os, run_ops os NewGenericDAG = Some d.

(** The edges of an adjacency map, as a set of pairs. *)
Definition edge_pairs (m : gmap K (gset K)) : gset (K * K) :=
  ⋃ ((λ k, set_map (pair k) (at_key m k)) <$> elements (dom m)).

(** The operations that only read the graph (and may fill or flush caches). *)
Definition is_query (o : op) : bool :=
  match o with
  | OpFlushCaches | OpGetDescendants _ | OpGetAncestors _ => true
  | _ => false
  end.

(** An edge as a client sees it: [IsEdge] answers [true]. *)
Definition id_edge (d : GenericDAG K T) (a b : string) : Prop :=
  IsEdge d a b = (true, None).

Definition is_mutation (o : op) : bool :=
  match o with
  | OpAddVertex _ _ | OpAddVertexByID _ _ | OpAddEdge _ _ | OpDeleteEdge _ _
  | OpDeleteVertex _ | OpReduceTransitively => true
  | _ => false
  end.

End spec.

(** ** Vocabulary of the walks *)

Section walk_spec.
Context {K T : Type} `{Countable K} {E : Env K T}.

(** The adjacency the walkers see: ids, through [GetParents] and [getChildren]. *)
Definition parents_of (d : GenericDAG K T) (id : string) : gset string :=
  dom (GetParents d id).1.

Definition children_of (d : GenericDAG K T) (id : string) : gset string :=
  dom (getChildren d id).1.

(** [a] occurs before [b] in a sequence of visits. *)
Definition before (l : list string) (a b : string) : Prop :=
  ∃ i j, i < j ∧ l !! i = Some a ∧ l !! j = Some b.

(** A sequence of visits is a topological order of the graph: every live id
    once, and the source of every edge before its destination. *)
Definition topological_order (d : GenericDAG K T) (ids : list string) : Prop :=
  NoDup ids ∧ (∀ id, id ∈ ids ↔ live d id) ∧
  (∀ a b, b ∈ children_of d a → before ids a b).

(** A queued id is ready: not visited yet, all its parents visited. *)
Definition ready (d : GenericDAG K T) (visited : gset string) (id : string) : bool :=
  bool_decide (id ∉ visited) &&
  negb (hasUnvisitedParent visited (ids_order (parents_of d id))).

(** The position of the first ready id in the queue. *)
Fixpoint first_ready (d : GenericDAG K T) (visited : gset string)
    (queue : list string) : nat :=
  match queue with
  | [] => 0
  | id :: queue' => if ready d visited id then 0 else S (first_ready d visited queue')
  end.

(** The loop the two topological walkers share; [expand visited id] is what
    the walker appends to the queue after it has visited [id].  The result
    lists the ids in the order of their visits. *)
Fixpoint topo_loop (expand : gset string → string → list string) (n : nat)
    (d : GenericDAG K T) (queue : list string) (visited : gset string)
    : option (list string) :=
  match n with
  | 0 => None
  | S n' =>
    match queue with
    | [] => Some []
    | id :: queue' =>
      if decide (id ∈ visited) then topo_loop expand n' d queue' visited
      else if hasUnvisitedParent visited (ids_order (parents_of d id))
      then topo_loop expand n' d (queue' ++ [id]) visited
      else (id ::.) <$> topo_loop expand n' d (queue' ++ expand ({[id]} ∪ visited) id)
                                     ({[id]} ∪ visited)
    end
  end.

(** [GenericOrderedWalk] appends the children not yet visited ... *)
Definition expand_generic (d : GenericDAG K T) (visited : gset string) (id : string)
    : list string :=
  filter (λ childID, childID ∉ visited) (vertexIDsGeneric (getChildren d id).1).

(** ... and the legacy [OrderedWalk] all children, sorted. *)
Definition expand_legacy (d : GenericDAG K T) (visited : gset string) (id : string)
    : list string :=
  vertexIDs (getChildren d id).1.

(** What an expansion has to satisfy for the loop to be a topological walk. *)
Definition expands_children (d : GenericDAG K T)
    (expand : gset string → string → list string) : Prop :=
  ∀ visited id,
    NoDup (expand visited id) ∧
    (∀ c, c ∈ expand visited id → c ∈ children_of d id) ∧
    (∀ c, c ∈ children_of d id → c ∉ visited → c ∈ expand visited id).

(** The potential that bounds the queue: its length plus [n] for every live
    id not yet visited. *)
Definition walk_potential (d : GenericDAG K T) (queue : list string)
    (visited : gset string) : nat :=
  length queue + size (dom (vertexValues d)) * size (dom (vertexValues d) ∖ visited).

(** The invariant of the loop, over the visits made so far. *)
Record walk_inv (d : GenericDAG K T) (queue : list string) (visited : gset string)
    (trace : list string) : Prop := mkWalkInv {
  wi_set : ∀ id, id ∈ visited ↔ id ∈ trace;
  wi_nodup : NoDup trace;
  wi_live : ∀ id, id ∈ visited → live d id;
  wi_parents : ∀ a b, b ∈ trace → a ∈ parents_of d b → before trace a b;
  wi_roots : ∀ r, r ∈ dom (getRoots d) → r ∈ visited ∨ r ∈ queue;
  wi_children : ∀ v c, v ∈ visited → c ∈ children_of d v → c ∈ visited ∨ c ∈ queue;
  wi_queue : ∀ x, x ∈ queue → live d x
}.

(** The visitor's view of an id. *)
Definition visit_of (d : GenericDAG K T) (id : string) : T * string := (value_of d id, id).

(** ** The depth-first and breadth-first walks

    The loop these walkers share.  Each round pops the head of the pending
    list, visits it if it is unvisited, and puts what [expand] yields for it
    into the pending list with [merge] (on top of a stack, at the end of a
    queue).  The result lists every pop, with [true] where that pop was the
    visit of the vertex. *)
Fixpoint sweep (merge : list string → list string → list string)
    (expand : gset string → string → list string) (n : nat)
    (pending : list string) (visited : gset string) : option (list (string * bool)) :=
  match n with
  | 0 => None
  | S n' =>
    match pending with
    | [] => Some []
    | id :: rest =>
      let fresh := bool_decide (id ∉ visited) in
      let visited' := if fresh then {[id]} ∪ visited else visited in
      ((id, fresh) ::.) <$> sweep merge expand n' (merge (expand visited' id) rest) visited'
    end
  end.

Definition on_stack (new rest : list string) : list string := new ++ rest.
Definition on_queue (new rest : list string) : list string := rest ++ new.

(** The ids visited, in the order of their visits. *)
Definition visits (pops : list (string * bool)) : list string :=
  (filter (λ p, p.2 = true) pops).*1.

(** The number of descendants of an id, and a weight that exceeds the sum of
    the weights of any set of children; the pending list loses weight with
    every pop. *)
Definition descendants_count (d : GenericDAG K T) (id : string) : nat :=
  match getDescendants d (key_of d id) with
  | Some (_, D) => size D
  | None => 0
  end.

Definition walk_weight (d : GenericDAG K T) (id : string) : nat :=
  S (size (dom (vertexValues d))) ^ descendants_count d id.

Definition sweep_fuel (d : GenericDAG K T) : nat :=
  let n := size (dom (vertexValues d)) in S (n * S n ^ n).

(** What the marshalling walk emits at the pop of [id]. *)
Definition edges_from (d : GenericDAG K T) (id : string) : list (string * string) :=
  (λ childID, (id, childID)) <$> ids_order (children_of d id).

End walk_spec.

(** ** Concrete graphs

    Payloads are strings hashed by themselves (the default hash policy on a
    comparable payload); keys are enumerated as stdpp lists them, ids in
    [sort.Strings] order. *)

Definition ids_sorted (X : gset string) : list string := merge_sort string_le (elements X).

Definition sorted_env : Env string string :=
  mkEnv (λ v, v) EmptyString elements ids_sorted.

(** The same environment with ids enumerated in descending order. *)
Definition reversed_env : Env string string :=
  mkEnv (λ v, v) EmptyString elements (λ X, reverse (ids_sorted X)).

Definition build (E : Env string string) (os : list (op (T := string)))
    : GenericDAG string string :=
  default NewGenericDAG (run_ops (E := E) os NewGenericDAG).

Definition vertex (id : string) : op (T := string) := OpAddVertexByID id id.

(** Scenario (a): the chain 1→2→3→4→5. *)
Definition chain5_ops : list (op (T := string)) :=
  [vertex "1"; vertex "2"; vertex "3"; vertex "4"; vertex "5";
   OpAddEdge "1" "2"; OpAddEdge "2" "3"; OpAddEdge "3" "4"; OpAddEdge "4" "5"]%string.

Definition chain5 : GenericDAG string string := build sorted_env chain5_ops.

(** The chain after a client has asked for the descendants of 1. *)
Definition chain5_queried_ops : list (op (T := string)) :=
  chain5_ops ++ [OpGetDescendants "1"%string; OpGetAncestors "5"%string].

Definition chain5_queried : GenericDAG string string := build sorted_env chain5_queried_ops.

(** Scenario (d): vertices 1,2,3 with edges 1→2, 2→3, 1→3. *)
Definition triangle_ops : list (op (T := string)) :=
  [vertex "1"; vertex "2"; vertex "3";
   OpAddEdge "1" "2"; OpAddEdge "2" "3"; OpAddEdge "1" "3"]%string.

Definition triangle : GenericDAG string string := build sorted_env triangle_ops.

Definition triangle_reduced : GenericDAG string string :=
  default triangle (ReduceTransitively (E := sorted_env) triangle).

(** a→b, a→c, b→c, c→d: the vertex c is pushed twice by the DFS. *)
Definition kite_ops : list (op (T := string)) :=
  [vertex "a"; vertex "b"; vertex "c"; vertex "d";
   OpAddEdge "a" "b"; OpAddEdge "a" "c"; OpAddEdge "b" "c"; OpAddEdge "c" "d"]%string.

Definition kite : GenericDAG string string := build sorted_env kite_ops.

(** Two isolated vertices: two roots. *)
Definition two_roots_ops : list (op (T := string)) := [vertex "a"; vertex "b"]%string.

Definition two_roots : GenericDAG string string := build sorted_env two_roots_ops.

(** Scenario (c): the diamond A→B, A→C, B→D, C→D. *)
Definition diamond_ops : list (op (T := string)) :=
  [vertex "A"; vertex "B"; vertex "C"; vertex "D";
   OpAddEdge "A" "B"; OpAddEdge "A" "C"; OpAddEdge "B" "D"; OpAddEdge "C" "D"]%string.

Definition diamond : GenericDAG string string := build sorted_env diamond_ops.

(** The chain with a sixth, isolated vertex. *)
Definition chain5_plus6 : GenericDAG string string :=
  (AddVertexByID (E := sorted_env) "6" "6" chain5).1.

(** The chain with the extra edge 1→3, and the chain without the edge 2→3. *)
Definition chain5_shortcut : GenericDAG string string :=
  build sorted_env (chain5_ops ++ [OpAddEdge "1"%string "3"%string]).

Definition chain5_cut : GenericDAG string string :=
  build sorted_env (chain5_ops ++ [OpDeleteEdge "2"%string "3"%string]).
(** * Proofs *)

Section ranges.
Context {K T : Type} `{Countable K} {E : Env K T} {EOk : EnvOk E}.

Lemma elem_of_keys_order (X : gset K) (x : K) : x ∈ keys_order X ↔ x ∈ X.
Proof. rewrite keys_order_perm. apply elem_of_elements. Qed.

Lemma NoDup_keys_order (X : gset K) : NoDup (keys_order X).
Proof. rewrite keys_order_perm. apply NoDup_elements. Qed.

Lemma length_keys_order (X : gset K) : length (keys_order X) = size X.
Proof. by rewrite keys_order_perm. Qed.

Lemma elem_of_ids_order (X : gset string) (x : string) : x ∈ ids_order X ↔ x ∈ X.
Proof. rewrite ids_order_perm. apply elem_of_elements. Qed.

Lemma NoDup_ids_order (X : gset string) : NoDup (ids_order X).
Proof. rewrite ids_order_perm. apply NoDup_elements. Qed.

Lemma length_ids_order (X : gset string) : length (ids_order X) = size X.
Proof. by rewrite ids_order_perm. Qed.

End ranges.

Section store_lemmas.
Context {K T : Type} `{Countable K} {E : Env K T}.
Implicit Types (m : gmap K (gset K)) (d : GenericDAG K T).

Lemma elem_of_at_key m a b : b ∈ at_key m a ↔ ∃ s, m !! a = Some s ∧ b ∈ s.
Proof.
  unfold at_key. destruct (m !! a) as [s|]; simpl.
  - split; [eauto | by intros (? & [= <-] & ?)].
  - split; [set_solver | by intros (? & ? & ?)].
Qed.

Lemma at_key_insert_at m k x a b :
  b ∈ at_key (insert_at k x m) a ↔ b ∈ at_key m a ∨ (a = k ∧ b = x).
Proof.
  unfold insert_at, at_key at 1. destruct (decide (a = k)) as [->|].
  - rewrite lookup_insert_eq. simpl. set_solver.
  - rewrite lookup_insert_ne by done. fold (at_key m a). naive_solver.
Qed.

Lemma at_key_delete_at m k x a b :
  b ∈ at_key (delete_at k x m) a ↔ b ∈ at_key m a ∧ ¬ (a = k ∧ b = x).
Proof.
  unfold delete_at, at_key. destruct (decide (a = k)) as [->|].
  - rewrite lookup_alter_eq. destruct (m !! k); simpl; set_solver.
  - rewrite lookup_alter_ne by done. naive_solver.
Qed.

Lemma at_key_delete m k a b :
  b ∈ at_key (delete k m) a ↔ b ∈ at_key m a ∧ a ≠ k.
Proof.
  unfold at_key. destruct (decide (a = k)) as [->|].
  - rewrite lookup_delete_eq. simpl. set_solver.
  - rewrite lookup_delete_ne by done. naive_solver.
Qed.

Lemma at_key_delete_at_list m (l : list K) x a b :
  b ∈ at_key (foldl (λ o p, delete_at p x o) m l) a ↔
  b ∈ at_key m a ∧ ¬ (a ∈ l ∧ b = x).
Proof.
  revert m. induction l as [|p l IH]; intros m; simpl.
  - set_solver.
  - rewrite IH, at_key_delete_at. set_solver.
Qed.

Lemma dom_delete_at m k x : dom (delete_at k x m) = dom m.
Proof.
  apply set_eq. intros a. rewrite !elem_of_dom. unfold delete_at.
  destruct (decide (a = k)) as [->|].
  - rewrite lookup_alter_eq. by rewrite fmap_is_Some.
  - by rewrite lookup_alter_ne.
Qed.

Lemma lookup_foldl_delete (cache : gmap K (gset K)) (l : list K) k :
  foldl (λ c x, delete x c) cache l !! k = if decide (k ∈ l) then None else cache !! k.
Proof.
  revert cache. induction l as [|x l IH]; intros cache; cbn [foldl].
  - rewrite decide_False; [done | set_solver].
  - rewrite IH. destruct (decide (k ∈ l)) as [Hin|Hin].
    + rewrite decide_True; [done | set_solver].
    + destruct (decide (k = x)) as [->|Hne].
      * rewrite lookup_delete_eq, decide_True; [done | set_solver].
      * rewrite lookup_delete_ne, decide_False; [done | set_solver | done].
Qed.

Lemma lookup_delete_all `{!EnvOk E} (xs : gset K) cache k :
  delete_all xs cache !! k = if decide (k ∈ xs) then None else cache !! k.
Proof.
  unfold delete_all. rewrite lookup_foldl_delete.
  destruct (decide (k ∈ keys_order xs)) as [Hin|Hin];
    rewrite elem_of_keys_order in Hin; [by rewrite decide_True | by rewrite decide_False].
Qed.

Lemma saneID_None d id :
  saneID d id = None ↔ id ≠ EmptyString ∧ live d id.
Proof.
  unfold saneID, live. case_decide.
  - naive_solver.
  - destruct (vertexValues d !! id); split; try done; naive_solver.
Qed.

End store_lemmas.

(** ** Error paths *)

Section errors.
Context {K T : Type} `{Countable K} {E : Env K T}.
Implicit Types (d : GenericDAG K T).

(** On a live vertex with a non-empty id the self edge is refused as such. *)
Lemma self_edge_error d (x : string) :
  x ≠ EmptyString → live d x →
  DeleteEdge x x d = Some (d, Some (SrcDstEqualError x x)) ∧
  IsEdge d x x = (false, Some (SrcDstEqualError x x)).
Proof.
  intros Hne Hlive.
  assert (saneID d x = None) as Hsane by (by apply saneID_None).
  unfold DeleteEdge, IsEdge. rewrite !Hsane.
  by rewrite !decide_True.
Qed.

Lemma AddEdge_error d srcID dstID d' e :
  AddEdge srcID dstID d = Some (d', Some e) → d' = d.
Proof.
  unfold AddEdge. intros Hrun.
  destruct (saneID d srcID); [by simplify_eq|].
  destruct (saneID d dstID); [by simplify_eq|].
  case_decide; [by simplify_eq|].
  destruct (isEdge d _ _); [by simplify_eq|].
  destruct (wouldCreateLoop d _ _) as [[]|]; simpl in Hrun; [by simplify_eq| |done].
  destruct (getDescendants d _) as [[d1 ds]|]; simpl in Hrun; [|done].
  destruct (getAncestors d1 _) as [[d2 an]|]; simpl in Hrun; [|done].
  by simplify_eq.
Qed.

Lemma DeleteEdge_error d srcID dstID d' e :
  DeleteEdge srcID dstID d = Some (d', Some e) → d' = d.
Proof.
  unfold DeleteEdge. intros Hrun.
  destruct (saneID d srcID); [by simplify_eq|].
  destruct (saneID d dstID); [by simplify_eq|].
  case_decide; [by simplify_eq|].
  destruct (isEdge d _ _); simpl in Hrun; [|by simplify_eq].
  destruct (getDescendants d _) as [[d1 ds]|]; simpl in Hrun; [|done].
  destruct (getAncestors d1 _) as [[d2 an]|]; simpl in Hrun; [|done].
  by simplify_eq.
Qed.

Lemma DeleteVertex_error d id d' e :
  DeleteVertex id d = Some (d', Some e) → d' = d.
Proof.
  unfold DeleteVertex. intros Hrun.
  destruct (saneID d id); [by simplify_eq|].
  destruct (getDescendants d _) as [[d1 ds]|]; simpl in Hrun; [|done].
  destruct (getAncestors d1 _) as [[d2 an]|]; simpl in Hrun; [|done].
  by simplify_eq.
Qed.

Lemma addVertexByID_error d id v d' e :
  addVertexByID id v d = (d', Some e) → d' = d.
Proof.
  unfold addVertexByID. intros Hrun.
  destruct (vertices d !! _); [by simplify_eq|].
  destruct (vertexValues d !! _); by simplify_eq.
Qed.

(** An operation that returns an error returns the store it was given. *)
Lemma run_op_error_unchanged (o : op) d d' (e : error T) :
  run_op o d = Some (d', Some e) → d' = d.
Proof.
  destruct o; simpl; intros Hrun.
  - unfold AddVertex, addVertex in Hrun.
    destruct (addVertexByID id v d) as [d1 e1] eqn:Hadd. simpl in Hrun.
    simplify_eq. by eapply addVertexByID_error.
  - simplify_eq. by eapply addVertexByID_error.
  - by eapply AddEdge_error.
  - by eapply DeleteEdge_error.
  - by eapply DeleteVertex_error.
  - destruct (ReduceTransitively d); simpl in Hrun; by simplify_eq.
  - by simplify_eq.
  - unfold GetDescendants in Hrun. destruct (saneID d id); simpl in Hrun; [by simplify_eq|].
    destruct (getDescendants d _) as [[d1 ds]|]; simpl in Hrun; by simplify_eq.
  - unfold GetAncestors in Hrun. destruct (saneID d id); simpl in Hrun; [by simplify_eq|].
    destruct (getAncestors d _) as [[d1 ds]|]; simpl in Hrun; by simplify_eq.
Qed.

End errors.

(** ** Loop detection: the BFS of [wouldCreateLoop] *)

Section bfs_proofs.
Context {K T : Type} `{Countable K} {E : Env K T} {EOk : EnvOk E}.
Implicit Types (d : GenericDAG K T) (V : gset K) (F : list K).

Lemma enqueue_unvisited_spec (cs : list K) V F :
  ∃ new, enqueue_unvisited cs (V, F) = (list_to_set new ∪ V, F ++ new) ∧
         NoDup new ∧ (∀ x, x ∈ new → (x ∉ V) ∧ x ∈ cs) ∧
         (∀ c, c ∈ cs → c ∈ V ∨ c ∈ new).
Proof.
  revert V F. induction cs as [|c cs IH]; intros V F.
  - exists []. simpl. rewrite app_nil_r, (left_id_L ∅ (∪)).
    split; [done|]. split; [constructor|]. split; intros x Hx; by apply elem_of_nil in Hx.
  - unfold enqueue_unvisited. cbn [foldl]. destruct (decide (c ∈ V)) as [Hc|Hc].
    + destruct (IH V F) as (new & Heq & Hnd & Hnew & Hall).
      exists new. split; [exact Heq|]. set_solver.
    + destruct (IH ({[c]} ∪ V) (F ++ [c])) as (new & Heq & Hnd & Hnew & Hall).
      exists (c :: new). split; [|split; [|split]].
      * unfold enqueue_unvisited in Heq. rewrite Heq. f_equal; [set_solver|].
        by rewrite <-app_assoc.
      * constructor; [|done]. intros Hin. apply Hnew in Hin. set_solver.
      * intros x [->|Hx]%elem_of_cons; [set_solver|]. apply Hnew in Hx. set_solver.
      * intros x [->|Hx]%elem_of_cons; [set_solver|]. apply Hall in Hx. set_solver.
Qed.

Lemma elem_of_all_children (m : gmap K (gset K)) a b :
  b ∈ at_key m a → b ∈ all_children m.
Proof.
  rewrite elem_of_at_key. intros (s & Hs & Hb).
  unfold all_children. apply elem_of_union_list. exists s. split; [|done].
  apply list_elem_of_fmap. exists (a, s). split; [done|].
  by apply elem_of_map_to_list.
Qed.

Lemma wouldCreateLoop_loop_total d srcHash n V F :
  size (all_children (outboundEdge d) ∖ V) + length F < n →
  is_Some (wouldCreateLoop_loop n d srcHash V F).
Proof.
  revert V F. induction n as [|n IH]; intros V F Hn; [lia|].
  destruct F as [|top F]; simpl; [by eexists|].
  case_decide; [by eexists|].
  destruct (enqueue_unvisited_spec (keys_order (at_key (outboundEdge d) top)) V F)
    as (new & -> & Hnd & Hnew & _).
  apply IH. rewrite length_app. simpl in Hn.
  set (U := all_children (outboundEdge d)) in *.
  assert (list_to_set new ⊆ U ∖ V) as Hsub.
  { intros x Hx%elem_of_list_to_set. apply Hnew in Hx as [? Hx].
    apply elem_of_keys_order in Hx. apply elem_of_all_children in Hx. set_solver. }
  assert (U ∖ (list_to_set new ∪ V) = (U ∖ V) ∖ list_to_set new) as -> by set_solver.
  rewrite size_difference by done.
  rewrite size_list_to_set by done.
  apply subseteq_size in Hsub. rewrite size_list_to_set in Hsub by done. lia.
Qed.

Lemma wouldCreateLoop_total d srcHash dstHash :
  is_Some (wouldCreateLoop d srcHash dstHash).
Proof.
  unfold wouldCreateLoop. apply wouldCreateLoop_loop_total.
  unfold wouldCreateLoop_fuel.
  set (cs := keys_order (at_key (outboundEdge d) dstHash)).
  set (U := all_children (outboundEdge d)).
  assert (list_to_set cs ⊆ U) as Hsub.
  { intros x Hx%elem_of_list_to_set. apply elem_of_keys_order in Hx.
    by eapply elem_of_all_children. }
  rewrite size_difference by done.
  rewrite size_list_to_set by apply NoDup_keys_order.
  apply subseteq_size in Hsub. rewrite size_list_to_set in Hsub by apply NoDup_keys_order.
  lia.
Qed.

Lemma wouldCreateLoop_loop_true d srcHash dstHash n V F :
  (∀ x, x ∈ F → reach d dstHash x) →
  wouldCreateLoop_loop n d srcHash V F = Some true → reach d dstHash srcHash.
Proof.
  revert V F. induction n as [|n IH]; intros V F HF; [done|].
  destruct F as [|top F]; simpl; [done|].
  case_decide as Htop; [subst; intros _; apply HF; set_solver|].
  destruct (enqueue_unvisited_spec (keys_order (at_key (outboundEdge d) top)) V F)
    as (new & -> & Hnd & Hnew & _).
  apply IH. intros x [Hx|Hx]%elem_of_app; [apply HF; set_solver|].
  apply Hnew in Hx as [_ Hx]. apply elem_of_keys_order in Hx.
  eapply tc_r; [apply (HF top), list_elem_of_here | exact Hx].
Qed.

Lemma wouldCreateLoop_loop_false d srcHash dstHash n V F :
  (∀ x, edge d dstHash x → x ∈ V) →
  (∀ x, x ∈ V → x ∈ F ∨ (x ≠ srcHash ∧ ∀ y, edge d x y → y ∈ V)) →
  wouldCreateLoop_loop n d srcHash V F = Some false → ¬ reach d dstHash srcHash.
Proof.
  revert V F. induction n as [|n IH]; intros V F Hdst HV; [done|].
  destruct F as [|top F]; simpl.
  - intros _ Hreach.
    assert (∀ x y, tc (edge d) x y → x ∈ V → y ∈ V) as Hclosed.
    { induction 1 as [x y Hxy|x y z Hxy _ IHtc]; intros Hx.
      - destruct (HV x Hx) as [?|[_ Hc]]; [set_solver|]. by apply Hc.
      - apply IHtc. destruct (HV x Hx) as [?|[_ Hc]]; [set_solver|]. by apply Hc. }
    assert (srcHash ∈ V) as Hs.
    { unfold reach in Hreach. inversion Hreach as [? ? Hxy|? y ? Hxy Htc]; subst.
      - by apply Hdst.
      - eapply Hclosed; [exact Htc|]. by apply Hdst. }
    destruct (HV _ Hs) as [?|[? _]]; [set_solver|done].
  - case_decide as Htop; [done|].
    destruct (enqueue_unvisited_spec (keys_order (at_key (outboundEdge d) top)) V F)
      as (new & -> & Hnd & Hnew & Hall).
    apply IH.
    + intros x Hx. apply Hdst in Hx. set_solver.
    + intros x [Hx|Hx]%elem_of_union.
      * left. apply elem_of_app. right. by apply elem_of_list_to_set in Hx.
      * destruct (HV x Hx) as [[->|HxF]%elem_of_cons|[Hne Hc]].
        -- right. split; [done|]. intros y Hy.
           destruct (Hall y) as [?|?]; [by apply elem_of_keys_order|set_solver|].
           apply elem_of_union. left. by apply elem_of_list_to_set.
        -- left. set_solver.
        -- right. split; [done|]. intros y Hy. apply Hc in Hy. set_solver.
Qed.

Lemma wouldCreateLoop_true_iff d srcHash dstHash :
  wouldCreateLoop d srcHash dstHash = Some true ↔ reach d dstHash srcHash.
Proof.
  split.
  - apply wouldCreateLoop_loop_true. intros x Hx%elem_of_keys_order. by apply tc_once.
  - intros Hreach. destruct (wouldCreateLoop_total d srcHash dstHash) as [[] Hb]; [done|].
    exfalso. revert Hreach. eapply wouldCreateLoop_loop_false; [| |exact Hb].
    + intros x Hx. apply elem_of_list_to_set. by apply elem_of_keys_order.
    + intros x Hx%elem_of_list_to_set. by left.
Qed.

End bfs_proofs.

(** ** The memoised closure [getRelatives] *)

Section closure.
Context {K : Type} `{Countable K}.
Implicit Types (R : relation K) (l : list K).

Lemma tc_inv_l R (a x : K) : tc R a x ↔ ∃ c, R a c ∧ (x = c ∨ tc R c x).
Proof.
  split.
  - inversion 1; subst; eauto.
  - intros (c & Hc & [->|Htc]); [by apply tc_once | by eapply tc_l].
Qed.

Lemma tc_flip R (a b : K) : tc (flip R) a b ↔ tc R b a.
Proof.
  split; induction 1 as [x y Hxy|x y z Hxy _ IH].
  - by apply tc_once.
  - eapply tc_r; [exact IH | exact Hxy].
  - by apply tc_once.
  - eapply tc_r; [exact IH | exact Hxy].
Qed.

Lemma chain_cons_inv R a l : chain R (a :: l) → chain R l.
Proof. by intros [_ ?]. Qed.

Lemma chain_reach R a l x : chain R (a :: l) → x ∈ l → tc R a x.
Proof.
  revert a. induction l as [|b l IH]; intros a [Hab Hl] Hx; [by apply elem_of_nil in Hx|].
  apply elem_of_cons in Hx as [->|Hx]; [by apply tc_once|].
  eapply tc_l; [exact Hab | by apply IH].
Qed.

Lemma chain_NoDup R l : (∀ a, ¬ tc R a a) → chain R l → NoDup l.
Proof.
  intros Hacyc. induction l as [|a l IH]; intros Hl; [constructor|].
  constructor; [|by eapply IH, chain_cons_inv].
  intros Hin. eapply Hacyc, chain_reach; eauto.
Qed.

Lemma chain_snoc_dom (edges : gmap K (gset K)) l z x :
  chain (edge_of edges) (l ++ [z]) → x ∈ l → x ∈ dom edges.
Proof.
  induction l as [|a l IH]; intros Hl Hx; [by apply elem_of_nil in Hx|].
  apply elem_of_cons in Hx as [->|Hx]; [|by apply IH; [eapply chain_cons_inv|]].
  destruct Hl as [Hab _]. apply elem_of_dom.
  destruct l as [|b l]; simpl in Hab; apply elem_of_at_key in Hab as (s & -> & _); eauto.
Qed.

Lemma chain_length (edges : gmap K (gset K)) v l :
  (∀ a, ¬ tc (edge_of edges) a a) →
  chain (edge_of edges) (v :: l) → length l < S (size (dom edges)).
Proof.
  intros Hacyc Hl.
  destruct (exists_last (l := v :: l)) as (l' & z & Heq); [done|].
  assert (length l = length l') as ->.
  { apply (f_equal length) in Heq. rewrite length_app in Heq. simpl in Heq. lia. }
  rewrite Heq in Hl.
  assert (NoDup l') as Hnd.
  { apply chain_NoDup in Hl; [|done]. by apply NoDup_app in Hl as [? _]. }
  assert (l' ⊆+ elements (dom edges)) as Hsub.
  { apply NoDup_submseteq; [done|]. intros x Hx. apply elem_of_elements.
    by eapply chain_snoc_dom. }
  apply submseteq_length in Hsub. unfold size, set_size. simpl. lia.
Qed.

End closure.

Section relatives.
Context {K T : Type} `{Countable K} {E : Env K T} {EOk : EnvOk E}.
Implicit Types (edges cache : gmap K (gset K)).

Lemma getRelatives_children edges n (v : K) (l : list K) cache1 (local : gset K) :
  (∀ c cache, c ∈ l → cache_correct (edge_of edges) cache →
     ∃ cache' S, getRelatives n edges cache c = Some (cache', S) ∧
                 relatives_post edges cache c cache' S) →
  cache_correct (edge_of edges) cache1 →
  ∃ cache2 local2,
    foldl (λ acc relative,
             '(c1, loc) ← acc;
             '(c2, rs) ← getRelatives n edges c1 relative;
             Some (c2, loc ∪ rs ∪ {[relative]}))
          (Some (cache1, local)) l = Some (cache2, local2) ∧
    (∀ x, x ∈ local2 ↔ x ∈ local ∨ ∃ c, c ∈ l ∧ (x = c ∨ tc (edge_of edges) c x)) ∧
    cache1 ⊆ cache2 ∧
    cache_correct (edge_of edges) cache2 ∧
    (∀ c, c ∈ l → is_Some (cache2 !! c)) ∧
    (∀ k, is_Some (cache2 !! k) →
          is_Some (cache1 !! k) ∨ ∃ c, c ∈ l ∧ (k = c ∨ tc (edge_of edges) c k)) ∧
    (cache_closed (edge_of edges) cache1 → cache_closed (edge_of edges) cache2).
Proof.
  revert cache1 local. induction l as [|c l IH]; intros cache1 local Hrec Hcorr.
  - exists cache1, local. simpl. split_and!; try done.
    + intros x. split; [by left|]. intros [?|(c & Hc & _)]; [done|by apply elem_of_nil in Hc].
    + intros c Hc. by apply elem_of_nil in Hc.
    + intros k ?. by left.
  - destruct (Hrec c cache1) as (c2 & rs & Hget & Hrs & Hsub & Hv & Hcorr2 & Hdom & Hcl);
      [apply list_elem_of_here|done|].
    destruct (IH c2 (local ∪ rs ∪ {[c]})) as
      (cache3 & local3 & Hfold & Hloc & Hsub3 & Hcorr3 & Hall & Hdom3 & Hcl3);
      [intros; apply Hrec; [by apply list_elem_of_further|done] | done |].
    exists cache3, local3. cbn [foldl]. simpl. rewrite Hget. simpl.
    split_and!; try done.
    + intros x. rewrite Hloc. split.
      * intros [Hx|(c' & Hc' & Hx)].
        -- apply elem_of_union in Hx as [Hx|Hx];
             [apply elem_of_union in Hx as [Hx|Hx]|]; [by left| |].
           ++ right. exists c. split; [apply list_elem_of_here|]. right. by apply Hrs.
           ++ right. exists c. split; [apply list_elem_of_here|]. left. set_solver.
        -- right. exists c'. split; [by apply list_elem_of_further|done].
      * intros [Hx|(c' & [->|Hc']%elem_of_cons & Hx)].
        -- left. set_solver.
        -- left. destruct Hx as [->|Hx]; [set_solver|]. apply Hrs in Hx. set_solver.
        -- right. eauto.
    + by etrans.
    + intros c' [->|Hc']%elem_of_cons; [|by apply Hall].
      eapply lookup_weaken_is_Some; [|exact Hsub3]. by rewrite Hv.
    + intros k Hk. destruct (Hdom3 k Hk) as [Hk2|(c' & Hc' & Hkc)].
      * destruct (Hdom k Hk2) as [?|[->|?]]; [by left| |];
          right; exists c; (split; [apply list_elem_of_here|]); eauto.
      * right. exists c'. split; [by apply list_elem_of_further|done].
    + intros ?. by apply Hcl3, Hcl.
Qed.

Lemma getRelatives_spec edges n cache (v : K) :
  cache_correct (edge_of edges) cache →
  (∀ l, chain (edge_of edges) (v :: l) → length l < n) →
  ∃ cache' D, getRelatives n edges cache v = Some (cache', D) ∧
              relatives_post edges cache v cache' D.
Proof.
  revert cache v. induction n as [|n IH]; intros cache v Hcorr Hbound.
  { specialize (Hbound []). simpl in Hbound. lia. }
  simpl. destruct (cache !! v) as [D|] eqn:Hv.
  { exists cache, D. split; [done|]. split_and!; try done.
    - by apply Hcorr.
    - intros k ?. by left. }
  destruct (edges !! v) as [rel|] eqn:Hrel.
  - destruct (getRelatives_children edges n v (keys_order rel) cache ∅)
      as (cache2 & D & -> & HS & Hsub & Hcorr2 & Hall & Hdom & Hcl); [|done|].
    { intros c cache1 Hc Hcorr1. apply IH; [done|].
      intros l Hl. specialize (Hbound (c :: l)). simpl in Hbound.
      cut (S (length l) < S n); [lia|]. apply Hbound. split; [|done].
      apply elem_of_keys_order in Hc. unfold edge_of, at_key. by rewrite Hrel. }
    simpl. exists (<[v := D]> cache2), D. split; [done|].
    assert (∀ x, x ∈ D ↔ tc (edge_of edges) v x) as HS'.
    { intros x. rewrite HS, tc_inv_l. split.
      - intros [Hx|(c & Hc & Hx)]; [by apply elem_of_empty in Hx|].
        exists c. split; [|done]. apply elem_of_keys_order in Hc.
        unfold edge_of, at_key. by rewrite Hrel.
      - intros (c & Hc & Hx). right. exists c. split; [|done].
        apply elem_of_keys_order. unfold edge_of, at_key in Hc. by rewrite Hrel in Hc. }
    split_and!.
    + done.
    + apply map_subseteq_spec. intros k s Hk.
      destruct (decide (k = v)) as [->|Hne]; [by rewrite Hv in Hk|].
      rewrite lookup_insert_ne by done. by eapply lookup_weaken.
    + apply lookup_insert_eq.
    + intros k D' Hk. destruct (decide (k = v)) as [->|Hne].
      * rewrite lookup_insert_eq in Hk. by simplify_eq.
      * rewrite lookup_insert_ne in Hk by done. by eapply Hcorr2.
    + intros k Hk. destruct (decide (k = v)) as [->|Hne]; [by right; left|].
      rewrite lookup_insert_ne in Hk by done.
      destruct (Hdom k Hk) as [?|(c & Hc & Hkc)]; [by left|].
      right; right. apply tc_inv_l. exists c. split; [|done].
      apply elem_of_keys_order in Hc. unfold edge_of, at_key. by rewrite Hrel.
    + intros Hclosed k x Hk Hkx. destruct (decide (x = v)) as [->|Hxv].
      { rewrite lookup_insert_eq. by eexists. }
      rewrite lookup_insert_ne by done.
      destruct (decide (k = v)) as [->|Hne].
      * apply Hall. apply elem_of_keys_order.
        unfold edge_of, at_key in Hkx. by rewrite Hrel in Hkx.
      * rewrite lookup_insert_ne in Hk by done. by eapply (Hcl Hclosed).
  - simpl. exists (<[v := ∅]> cache), ∅. split; [done|].
    assert (∀ x, ¬ edge_of edges v x) as Hno.
    { intros x. unfold edge_of, at_key. rewrite Hrel. simpl. set_solver. }
    assert (∀ x, x ∈ (∅ : gset K) ↔ tc (edge_of edges) v x) as HS'.
    { intros x. split; [set_solver|]. rewrite tc_inv_l. intros (c & Hc & _). by apply Hno in Hc. }
    split_and!.
    + done.
    + by apply insert_subseteq.
    + apply lookup_insert_eq.
    + intros k D' Hk. destruct (decide (k = v)) as [->|Hne].
      * rewrite lookup_insert_eq in Hk. by simplify_eq.
      * rewrite lookup_insert_ne in Hk by done. by eapply Hcorr.
    + intros k Hk. destruct (decide (k = v)) as [->|Hne]; [by right; left|].
      rewrite lookup_insert_ne in Hk by done. by left.
    + intros Hclosed k x Hk Hkx. destruct (decide (x = v)) as [->|Hxv].
      { rewrite lookup_insert_eq. by eexists. }
      rewrite lookup_insert_ne by done.
      destruct (decide (k = v)) as [->|Hne]; [by apply Hno in Hkx|].
      rewrite lookup_insert_ne in Hk by done. by eapply Hclosed.
Qed.

End relatives.

(** ** Cache invalidation *)

Section invalidation.
Context {K T : Type} `{Countable K} {E : Env K T} {EOk : EnvOk E}.
Implicit Types (R : relation K) (cache : gmap K (gset K)) (d : GenericDAG K T).

Lemma tc_impl R R' (a b : K) : (∀ x y, R x y → R' x y) → tc R a b → tc R' a b.
Proof.
  intros HR. induction 1 as [x y Hxy|x y z Hxy _ IH].
  - by apply tc_once, HR.
  - eapply tc_l; [by apply HR | exact IH].
Qed.

Lemma tc_unchanged_1 R R' (k x : K) :
  (∀ a b, rtc R k a → R a b → R' a b) → tc R k x → tc R' k x.
Proof.
  intros Hsame Htc. induction Htc as [k y Hxy|k y z Hxy _ IH].
  - apply tc_once, Hsame; [apply rtc_refl | done].
  - eapply tc_l; [apply Hsame; [apply rtc_refl | exact Hxy] |].
    apply IH. intros a b Ha. apply Hsame. by eapply rtc_l.
Qed.

(** Edges that leave the part of the graph reachable from [k] alone do not
    change what [k] reaches. *)
Lemma tc_unchanged R R' (k x : K) :
  (∀ a b, rtc R k a → (R a b ↔ R' a b)) → tc R k x ↔ tc R' k x.
Proof.
  intros Hsame. split.
  - apply tc_unchanged_1. intros a b Ha. by apply Hsame.
  - apply tc_unchanged_1. intros a b Ha Hab.
    assert (rtc R k a) as Ha'.
    { clear Hab. induction Ha as [|k y z Hky _ IH]; [apply rtc_refl|].
      eapply rtc_l; [apply Hsame; [apply rtc_refl | exact Hky] |].
      apply IH. intros a' b' Ha'. apply Hsame. eapply rtc_l; [|exact Ha'].
      apply Hsame; [apply rtc_refl | exact Hky]. }
    by apply Hsame.
Qed.

Lemma cache_correct_iff R R' cache :
  (∀ a b, R a b ↔ R' a b) → cache_correct R cache → cache_correct R' cache.
Proof.
  intros HR Hc k D Hk x. rewrite (Hc k D Hk x). apply tc_unchanged. intros a b _. apply HR.
Qed.

Lemma cache_closed_iff R R' cache :
  (∀ a b, R a b ↔ R' a b) → cache_closed R cache → cache_closed R' cache.
Proof. intros HR Hc k x Hk Hkx. eapply Hc; [done|]. by apply HR. Qed.

Lemma lookup_invalidate cache (X : gset K) (s k : K) D :
  delete s (delete_all X cache) !! k = Some D → k ≠ s ∧ (k ∉ X) ∧ cache !! k = Some D.
Proof.
  destruct (decide (k = s)) as [->|Hne]; [by rewrite lookup_delete_eq|].
  rewrite lookup_delete_ne by done. rewrite lookup_delete_all.
  case_decide; [done|]. done.
Qed.

Lemma not_rtc_invalidated R (X : gset K) (s k : K) :
  (∀ x, x ∈ X ↔ tc R x s) → k ≠ s → k ∉ X → ¬ rtc R k s.
Proof.
  intros HX Hne Hk [->|Htc]%rtc_tc; [done|]. by apply Hk, HX.
Qed.

(** Removing the entries of [s] and of everything that reaches [s] keeps the
    cache correct across a change of edges that touches only sources that
    reach [s]. *)
Lemma invalidate_correct R R' cache (X : gset K) (s : K) :
  cache_correct R cache →
  (∀ x, x ∈ X ↔ tc R x s) →
  (∀ a b, ¬ rtc R a s → (R a b ↔ R' a b)) →
  cache_correct R' (delete s (delete_all X cache)).
Proof.
  intros Hc HX Hsame k D Hk x.
  apply lookup_invalidate in Hk as (Hne & HkX & Hk).
  rewrite (Hc k D Hk x). apply tc_unchanged. intros a b Ha. apply Hsame.
  intros Has. eapply not_rtc_invalidated; [exact HX|done|done|]. by etrans.
Qed.

Lemma invalidate_closed R R' cache (X : gset K) (s : K) :
  cache_closed R cache →
  (∀ x, x ∈ X ↔ tc R x s) →
  (∀ a b, ¬ rtc R a s → R' a b → R a b) →
  cache_closed R' (delete s (delete_all X cache)).
Proof.
  intros Hc HX Hsame k x [D Hk] Hkx.
  apply lookup_invalidate in Hk as (Hne & HkX & Hk).
  assert (¬ rtc R k s) as Hks by by eapply not_rtc_invalidated.
  assert (R k x) as Hkx' by by apply Hsame.
  destruct (Hc k x) as [D' Hx]; [by eexists|done|].
  exists D'. rewrite lookup_delete_ne, lookup_delete_all.
  - rewrite decide_False; [done|]. intros Hx'%HX. apply Hks.
    eapply rtc_l; [exact Hkx'|]. by apply tc_rtc.
  - intros ->. apply Hks. by apply rtc_once.
Qed.

Lemma in_edge_flip d : adjacency_symmetric d → ∀ a b, in_edge d a b ↔ flip (edge d) a b.
Proof. intros Hsym a b. unfold in_edge, edge, edge_of, flip. symmetry. apply Hsym. Qed.

Lemma tc_in_edge d (a b : K) : adjacency_symmetric d → tc (in_edge d) a b ↔ reach d b a.
Proof.
  intros Hsym. unfold reach. rewrite <-tc_flip.
  apply tc_unchanged. intros x y _. by apply in_edge_flip.
Qed.

Lemma ancestors_cache_correct_iff d :
  ancestors_cache_correct d ↔ cache_correct (flip (edge d)) (ancestorsCache d).
Proof.
  unfold ancestors_cache_correct, cache_correct, reach.
  split; intros Hc k D Hk x; rewrite (Hc k D Hk x); by rewrite tc_flip.
Qed.

Lemma getDescendants_spec d (v : K) :
  acyclic d → descendants_cache_correct d →
  ∃ cache' D,
    getDescendants d v = Some (set_descendantsCache (λ _, cache') d, D) ∧
    relatives_post (outboundEdge d) (descendantsCache d) v cache' D.
Proof.
  intros Hacyc Hcorr. unfold getDescendants.
  destruct (getRelatives_spec (outboundEdge d) (getRelatives_fuel (outboundEdge d))
              (descendantsCache d) v) as (cache' & D & -> & Hpost).
  - exact Hcorr.
  - intros l. by apply chain_length.
  - by exists cache', D.
Qed.

Lemma getAncestors_spec d (v : K) :
  adjacency_symmetric d → acyclic d → ancestors_cache_correct d →
  ∃ cache' D,
    getAncestors d v = Some (set_ancestorsCache (λ _, cache') d, D) ∧
    relatives_post (inboundEdge d) (ancestorsCache d) v cache' D.
Proof.
  intros Hsym Hacyc Hcorr. unfold getAncestors.
  destruct (getRelatives_spec (inboundEdge d) (getRelatives_fuel (inboundEdge d))
              (ancestorsCache d) v) as (cache' & D & -> & Hpost).
  - apply ancestors_cache_correct_iff in Hcorr.
    eapply cache_correct_iff; [|exact Hcorr]. intros a b. symmetry. by apply in_edge_flip.
  - intros l. apply chain_length. intros a Ha. apply (Hacyc a). by apply tc_in_edge.
  - by exists cache', D.
Qed.

End invalidation.

(** ** What a successful mutation returns *)

Section shapes.
Context {K T : Type} `{Countable K} {E : Env K T}.
Implicit Types (d : GenericDAG K T).

Lemma getDescendants_shape d (v : K) d' D :
  getDescendants d v = Some (d', D) →
  ∃ cache, getRelatives (getRelatives_fuel (outboundEdge d)) (outboundEdge d)
             (descendantsCache d) v = Some (cache, D) ∧
           d' = set_descendantsCache (λ _, cache) d.
Proof.
  unfold getDescendants. intros Hrun.
  destruct (getRelatives _ _ _ _) as [[cache D']|]; simpl in Hrun; [|done].
  exists cache. by simplify_eq.
Qed.

Lemma getAncestors_shape d (v : K) d' D :
  getAncestors d v = Some (d', D) →
  ∃ cache, getRelatives (getRelatives_fuel (inboundEdge d)) (inboundEdge d)
             (ancestorsCache d) v = Some (cache, D) ∧
           d' = set_ancestorsCache (λ _, cache) d.
Proof.
  unfold getAncestors. intros Hrun.
  destruct (getRelatives _ _ _ _) as [[cache D']|]; simpl in Hrun; [|done].
  exists cache. by simplify_eq.
Qed.

Lemma AddEdge_shape d srcID dstID d' :
  AddEdge srcID dstID d = Some (d', None) →
  let s := key_of d srcID in
  let t := key_of d dstID in
  saneID d srcID = None ∧ saneID d dstID = None ∧ srcID ≠ dstID ∧
  isEdge d s t = false ∧ wouldCreateLoop d s t = Some false ∧
  ∃ cd D ca A, filled d t s cd D ca A ∧
    d' = mkDAG (vertices d) (vertexValues d)
           (insert_at t s (inboundEdge d)) (insert_at s t (outboundEdge d))
           (delete t (delete_all D ca)) (delete s (delete_all A cd)).
Proof.
  unfold AddEdge. intros Hrun. cbn zeta.
  destruct (saneID d srcID); [by simplify_eq|].
  destruct (saneID d dstID); [by simplify_eq|].
  case_decide; [by simplify_eq|].
  destruct (isEdge d _ _); [by simplify_eq|].
  destruct (wouldCreateLoop d _ _) as [[]|]; simpl in Hrun; [by simplify_eq| |done].
  destruct (getDescendants d _) as [[d1 D]|] eqn:Hd; simpl in Hrun; [|done].
  destruct (getAncestors d1 _) as [[d2 A]|] eqn:Ha; simpl in Hrun; [|done].
  apply getDescendants_shape in Hd as (cd & Hcd & ->).
  apply getAncestors_shape in Ha as (ca & Hca & ->).
  split_and!; try done. exists cd, D, ca, A. split; [by split|]. by simplify_eq.
Qed.

Lemma DeleteEdge_shape d srcID dstID d' :
  DeleteEdge srcID dstID d = Some (d', None) →
  let s := key_of d srcID in
  let t := key_of d dstID in
  saneID d srcID = None ∧ saneID d dstID = None ∧ srcID ≠ dstID ∧
  isEdge d s t = true ∧
  ∃ cd D ca A, filled d s t cd D ca A ∧
    d' = mkDAG (vertices d) (vertexValues d)
           (delete_at t s (inboundEdge d)) (delete_at s t (outboundEdge d))
           (delete s (delete_all D ca)) (delete t (delete_all A cd)).
Proof.
  unfold DeleteEdge. intros Hrun. cbn zeta.
  destruct (saneID d srcID); [by simplify_eq|].
  destruct (saneID d dstID); [by simplify_eq|].
  case_decide; [by simplify_eq|].
  destruct (isEdge d _ _); simpl in Hrun; [|by simplify_eq].
  destruct (getDescendants d _) as [[d1 D]|] eqn:Hd; simpl in Hrun; [|done].
  destruct (getAncestors d1 _) as [[d2 A]|] eqn:Ha; simpl in Hrun; [|done].
  apply getDescendants_shape in Hd as (cd & Hcd & ->).
  apply getAncestors_shape in Ha as (ca & Hca & ->).
  split_and!; try done. exists cd, D, ca, A. split; [by split|]. by simplify_eq.
Qed.

Lemma DeleteVertex_shape d id d' :
  DeleteVertex id d = Some (d', None) →
  let v := key_of d id in
  saneID d id = None ∧
  ∃ cd D ca A, filled d v v cd D ca A ∧
    let out3 := foldl (λ o parent, delete_at parent v o) (outboundEdge d)
                      (keys_order (at_key (inboundEdge d) v)) in
    let in4 := foldl (λ i child, delete_at child v i) (inboundEdge d)
                     (keys_order (at_key out3 v)) in
    d' = mkDAG (delete v (vertices d)) (delete id (vertexValues d))
           (delete v in4) (delete v out3)
           (delete v (delete_all D ca)) (delete v (delete_all A cd)).
Proof.
  unfold DeleteVertex. intros Hrun. cbn zeta.
  destruct (saneID d id); [by simplify_eq|].
  destruct (getDescendants d _) as [[d1 D]|] eqn:Hd; simpl in Hrun; [|done].
  destruct (getAncestors d1 _) as [[d2 A]|] eqn:Ha; simpl in Hrun; [|done].
  apply getDescendants_shape in Hd as (cd & Hcd & ->).
  apply getAncestors_shape in Ha as (ca & Hca & ->).
  split; [done|]. exists cd, D, ca, A. split; [by split|]. by simplify_eq.
Qed.

Lemma addVertexByID_shape d id v d' :
  addVertexByID id v d = (d', None) →
  vertices d !! hashVertex v = None ∧ vertexValues d !! id = None ∧
  d' = mkDAG (<[hashVertex v := id]> (vertices d)) (<[id := v]> (vertexValues d))
         (inboundEdge d) (outboundEdge d) (ancestorsCache d) (descendantsCache d).
Proof.
  unfold addVertexByID. intros Hrun.
  destruct (vertices d !! _); [by simplify_eq|].
  destruct (vertexValues d !! _); by simplify_eq.
Qed.

End shapes.

(** ** The adjacency maps after a mutation *)

Section edges_after.
Context {K T : Type} `{Countable K} {E : Env K T} {EOk : EnvOk E}.
Implicit Types (d : GenericDAG K T).

Lemma isEdge_true d (s t : K) :
  isEdge d s t = true ↔ t ∈ at_key (outboundEdge d) s ∧ s ∈ at_key (inboundEdge d) t.
Proof.
  unfold isEdge, at_key.
  destruct (outboundEdge d !! s) as [out|]; simpl; [|set_solver].
  case_decide; [|set_solver].
  destruct (inboundEdge d !! t) as [inb|]; simpl; [|set_solver].
  rewrite bool_decide_eq_true. set_solver.
Qed.

(** The adjacency maps [DeleteVertex] leaves: exactly the edges that do not
    touch the vertex. *)
Lemma DeleteVertex_out d (v a b : K) :
  adjacency_symmetric d →
  let out3 := foldl (λ o parent, delete_at parent v o) (outboundEdge d)
                    (keys_order (at_key (inboundEdge d) v)) in
  b ∈ at_key (delete v out3) a ↔ b ∈ at_key (outboundEdge d) a ∧ a ≠ v ∧ b ≠ v.
Proof.
  intros Hsym out3. rewrite at_key_delete. unfold out3.
  rewrite at_key_delete_at_list, elem_of_keys_order. split.
  - intros [[Hab Hn] Hav]. split_and!; [done..|].
    intros ->. apply Hn. split; [|done]. by apply Hsym.
  - intros (Hab & Hav & Hbv). split_and!; [done| |done]. by intros [_ ?].
Qed.

Lemma DeleteVertex_in d (v a b : K) :
  adjacency_symmetric d →
  let out3 := foldl (λ o parent, delete_at parent v o) (outboundEdge d)
                    (keys_order (at_key (inboundEdge d) v)) in
  let in4 := foldl (λ i child, delete_at child v i) (inboundEdge d)
                   (keys_order (at_key out3 v)) in
  a ∈ at_key (delete v in4) b ↔ a ∈ at_key (inboundEdge d) b ∧ a ≠ v ∧ b ≠ v.
Proof.
  intros Hsym out3 in4. rewrite at_key_delete. unfold in4.
  rewrite at_key_delete_at_list, elem_of_keys_order. unfold out3.
  rewrite at_key_delete_at_list, elem_of_keys_order. split.
  - intros [[Hab Hn] Hbv]. split_and!; [done| |done].
    intros ->. apply Hn. split; [|done]. split; [by apply Hsym|]. by intros [_ ?].
  - intros (Hab & Hav & Hbv). split_and!; [done| |done]. by intros [_ ?].
Qed.

Lemma reduce_vertex_spec (d : GenericDAG K T) (changed : bool) (v : K) :
  let DD := foldl (λ acc childOfV, acc ∪ at_key (descendantsCache d) childOfV) ∅
                  (keys_order (at_key (outboundEdge d) v)) in
  let st := reduce_vertex (d, changed) v in
  vertices st.1 = vertices d ∧ vertexValues st.1 = vertexValues d ∧
  ancestorsCache st.1 = ancestorsCache d ∧ descendantsCache st.1 = descendantsCache d ∧
  (∀ a b, b ∈ at_key (outboundEdge st.1) a ↔
          b ∈ at_key (outboundEdge d) a ∧ ¬ (a = v ∧ b ∈ DD)) ∧
  (∀ a b, a ∈ at_key (inboundEdge st.1) b ↔
          a ∈ at_key (inboundEdge d) b ∧
          ¬ (a = v ∧ b ∈ at_key (outboundEdge d) v ∧ b ∈ DD)) ∧
  (changed = true → st.2 = true) ∧
  (st.2 = false → st.1 = d).
Proof.
  intros DD st. unfold st, reduce_vertex. cbn [fst]. fold DD.
  assert (∀ (l : list K) (st0 : GenericDAG K T * bool),
    let st1 := foldl (λ st' childOfV,
                 if decide (childOfV ∈ DD)
                 then (set_inboundEdge (delete_at childOfV v)
                         (set_outboundEdge (delete_at v childOfV) st'.1), true)
                 else st') st0 l in
    vertices st1.1 = vertices st0.1 ∧ vertexValues st1.1 = vertexValues st0.1 ∧
    ancestorsCache st1.1 = ancestorsCache st0.1 ∧
    descendantsCache st1.1 = descendantsCache st0.1 ∧
    (∀ a b, b ∈ at_key (outboundEdge st1.1) a ↔
            b ∈ at_key (outboundEdge st0.1) a ∧ ¬ (a = v ∧ b ∈ l ∧ b ∈ DD)) ∧
    (∀ a b, a ∈ at_key (inboundEdge st1.1) b ↔
            a ∈ at_key (inboundEdge st0.1) b ∧ ¬ (a = v ∧ b ∈ l ∧ b ∈ DD)) ∧
    (st0.2 = true → st1.2 = true) ∧
    (st1.2 = false → st1.1 = st0.1)) as Hfold.
  { induction l as [|c l IH]; intros st0; cbn [foldl].
    - split_and!; try done; intros a b; split; try tauto.
      all: intros ?; split; [done|]; intros (_ & Hb & _); by apply elem_of_nil in Hb.
    - cbn zeta in IH. destruct (decide (c ∈ DD)) as [Hc|Hc].
      + specialize (IH (set_inboundEdge (delete_at c v)
                          (set_outboundEdge (delete_at v c) st0.1), true)).
        destruct IH as (Hv & Hvv & Hac & Hdc & Hout & Hin & Hch & Hun).
        split_and!; try done.
        * intros a b. rewrite Hout. cbn. rewrite at_key_delete_at.
          split; [intros [[? Hn1] Hn2]|intros [? Hn]].
          -- split; [done|]. intros (-> & [->|?]%elem_of_cons & ?); tauto.
          -- split; [split; [done|]|].
             ++ intros [-> ->]. apply Hn. split_and!; [done| |done]. apply list_elem_of_here.
             ++ intros (-> & ? & ?). apply Hn. split_and!; [done| |done].
                by apply list_elem_of_further.
        * intros a b. rewrite Hin. cbn. rewrite at_key_delete_at.
          split; [intros [[? Hn1] Hn2]|intros [? Hn]].
          -- split; [done|]. intros (-> & [->|?]%elem_of_cons & ?); tauto.
          -- split; [split; [done|]|].
             ++ intros [-> ->]. apply Hn. split_and!; [done| |done]. apply list_elem_of_here.
             ++ intros (-> & ? & ?). apply Hn. split_and!; [done| |done].
                by apply list_elem_of_further.
        * intros _. exact (Hch eq_refl).
        * intros Hfalse. specialize (Hch eq_refl). congruence.
      + specialize (IH st0). destruct IH as (Hv & Hvv & Hac & Hdc & Hout & Hin & Hch & Hun).
        split_and!; try done.
        * intros a b. rewrite Hout. split; intros [? Hn]; (split; [done|]).
          -- intros (-> & [->|?]%elem_of_cons & ?); tauto.
          -- intros (-> & ? & ?). apply Hn. split_and!; [done| |done].
             by apply list_elem_of_further.
        * intros a b. rewrite Hin. split; intros [? Hn]; (split; [done|]).
          -- intros (-> & [->|?]%elem_of_cons & ?); tauto.
          -- intros (-> & ? & ?). apply Hn. split_and!; [done| |done].
             by apply list_elem_of_further. }
  specialize (Hfold (keys_order (at_key (outboundEdge d) v)) (d, changed)).
  cbn zeta in Hfold. cbn [fst snd] in Hfold.
  destruct Hfold as (Hv & Hvv & Hac & Hdc & Hout & Hin & Hch & Hun).
  split_and!; try done.
  - intros a b. rewrite Hout. split; intros [Hab Hn]; (split; [done|]).
    + intros (-> & ?). apply Hn. split_and!; [done| |done]. by apply elem_of_keys_order.
    + intros (-> & ? & ?). by apply Hn.
  - intros a b. rewrite Hin. by setoid_rewrite elem_of_keys_order.
Qed.

End edges_after.

Section reduce_loop.
Context {K T : Type} `{Countable K} {E : Env K T} {EOk : EnvOk E}.
Implicit Types (d : GenericDAG K T).

Lemma elem_of_foldl_union (C : gmap K (gset K)) (l : list K) (acc : gset K) (b : K) :
  b ∈ foldl (λ acc c, acc ∪ at_key C c) acc l ↔ b ∈ acc ∨ ∃ c, c ∈ l ∧ b ∈ at_key C c.
Proof.
  revert acc. induction l as [|c l IH]; intros acc; cbn [foldl].
  - split; [by left|]. intros [?|(c & Hc & _)]; [done|by apply elem_of_nil in Hc].
  - rewrite IH, elem_of_union. split.
    + intros [[?|?]|(c' & ? & ?)]; [by left| |].
      * right. exists c. split; [apply list_elem_of_here|done].
      * right. exists c'. split; [by apply list_elem_of_further|done].
    + intros [?|(c' & [->|?]%elem_of_cons & ?)]; [by left; left|by left; right|].
      right. by exists c'.
Qed.

Lemma reduce_vertex_redundant d (changed : bool) (v : K) :
  let st := reduce_vertex (d, changed) v in
  vertices st.1 = vertices d ∧ vertexValues st.1 = vertexValues d ∧
  ancestorsCache st.1 = ancestorsCache d ∧ descendantsCache st.1 = descendantsCache d ∧
  (∀ a b, b ∈ at_key (outboundEdge st.1) a ↔
          b ∈ at_key (outboundEdge d) a ∧ ¬ (a = v ∧ redundant d a b)) ∧
  (∀ a b, a ∈ at_key (inboundEdge st.1) b ↔
          a ∈ at_key (inboundEdge d) b ∧
          ¬ (a = v ∧ b ∈ at_key (outboundEdge d) a ∧ redundant d a b)) ∧
  (changed = true → st.2 = true) ∧
  (st.2 = false → st.1 = d).
Proof.
  intros st. destruct (reduce_vertex_spec d changed v)
    as (Hv & Hvv & Hac & Hdc & Hout & Hin & Hch & Hun). fold st in Hv, Hvv, Hac, Hdc, Hout, Hin, Hch, Hun.
  assert (∀ b, b ∈ foldl (λ acc c, acc ∪ at_key (descendantsCache d) c) ∅
                       (keys_order (at_key (outboundEdge d) v)) ↔ redundant d v b) as HDD.
  { intros b. rewrite elem_of_foldl_union. unfold redundant.
    setoid_rewrite elem_of_keys_order. split; [|by right].
    intros [Hb|?]; [by apply elem_of_empty in Hb|done]. }
  split_and!; try done.
  - intros a b. rewrite Hout. split; intros [Hab Hn]; (split; [done|]).
    + intros [-> Hr]. apply Hn. split; [done|]. by apply HDD.
    + intros [-> Hr]. apply Hn. split; [done|]. by apply HDD.
  - intros a b. rewrite Hin. split; intros [Hab Hn]; (split; [done|]).
    + intros (-> & ? & Hr). apply Hn. split_and!; [done..|]. by apply HDD.
    + intros (-> & ? & Hr). apply Hn. split_and!; [done..|]. by apply HDD.
Qed.

Lemma reduce_loop_spec (vs : list K) d (changed : bool) :
  NoDup vs →
  let st := foldl reduce_vertex (d, changed) vs in
  vertices st.1 = vertices d ∧ vertexValues st.1 = vertexValues d ∧
  ancestorsCache st.1 = ancestorsCache d ∧ descendantsCache st.1 = descendantsCache d ∧
  (∀ a b, b ∈ at_key (outboundEdge st.1) a ↔
          b ∈ at_key (outboundEdge d) a ∧ ¬ (a ∈ vs ∧ redundant d a b)) ∧
  (∀ a b, a ∈ at_key (inboundEdge st.1) b ↔
          a ∈ at_key (inboundEdge d) b ∧
          ¬ (a ∈ vs ∧ b ∈ at_key (outboundEdge d) a ∧ redundant d a b)) ∧
  (changed = true → st.2 = true) ∧
  (st.2 = false → st.1 = d).
Proof.
  revert d changed. induction vs as [|v vs IH]; intros d changed Hnd; cbn [foldl].
  - cbn zeta. cbn [fst snd]. split_and!; try done; intros a b; split; try tauto.
    all: intros ?; split; [done|]; intros [Ha _]; by apply elem_of_nil in Ha.
  - apply NoDup_cons in Hnd as [Hv Hnd].
    destruct (reduce_vertex_redundant d changed v)
      as (Hv1 & Hvv1 & Hac1 & Hdc1 & Hout1 & Hin1 & Hch1 & Hun1).
    destruct (reduce_vertex (d, changed) v) as [d1 ch1] eqn:Hst. cbn [fst snd] in *.
    specialize (IH d1 ch1 Hnd). cbn zeta in IH.
    destruct IH as (Hv2 & Hvv2 & Hac2 & Hdc2 & Hout2 & Hin2 & Hch2 & Hun2).
    assert (∀ a b, a ≠ v → redundant d1 a b ↔ redundant d a b) as Hred.
    { intros a b Hne. unfold redundant. rewrite Hdc1. setoid_rewrite Hout1.
      split; intros (c & Hc & Hb); exists c; [tauto|]. split; [|done]. split; [done|]. tauto. }
    cbn zeta. split_and!.
    + congruence.
    + congruence.
    + congruence.
    + congruence.
    + intros a b. rewrite Hout2, Hout1. split.
      * intros [[Hab Hn1] Hn2]. split; [done|]. intros [[->|Ha]%elem_of_cons Hr]; [tauto|].
        apply Hn2. split; [done|]. apply Hred; [|done]. by intros ->.
      * intros [Hab Hn]. split_and!; [done| |].
        -- intros [-> Hr]. apply Hn. split; [apply list_elem_of_here|done].
        -- intros [Ha Hr]. apply Hn. split; [by apply list_elem_of_further|].
           apply Hred; [|done]. by intros ->.
    + intros a b. rewrite Hin2, Hin1, Hout1. split.
      * intros [[Hab Hn1] Hn2]. split; [done|].
        intros ([->|Ha]%elem_of_cons & Hob & Hr); [tauto|].
        assert (a ≠ v) as Hne by by intros ->.
        apply Hn2. split; [done|]. split; [split; [done|tauto]|]. by apply Hred.
      * intros [Hab Hn]. split_and!; [done| |].
        -- intros (-> & ? & Hr). apply Hn. split_and!; [apply list_elem_of_here|done..].
        -- intros (Ha & [Hob _] & Hr). assert (a ≠ v) as Hne by by intros ->.
           apply Hn. split_and!; [by apply list_elem_of_further|done|]. by apply Hred.
    + intros Hc. by apply Hch2, Hch1.
    + intros Hf. rewrite (Hun2 Hf). apply Hun1.
      destruct ch1; [|done]. exfalso.
      destruct (foldl reduce_vertex _ vs) as [d2 ch2] eqn:Hfold.
      cbn in *. specialize (Hch2 eq_refl). congruence.
Qed.

End reduce_loop.

(** ** Adjacency symmetry *)

Section symmetry.
Context {K T : Type} `{Countable K} {E : Env K T} {EOk : EnvOk E}.
Implicit Types (d : GenericDAG K T).

Lemma fill_roots_None (roots : gmap string T) (l : list string) :
  foldl (λ acc id, d' ← acc;
           fst <$> getDescendants d' (hashVertex (default zero (roots !! id))))
        (None : option (GenericDAG K T)) l = None.
Proof. by induction l. Qed.

Lemma fill_roots_same_graph (roots : gmap string T) (l : list string) d d1 :
  foldl (λ acc id, d' ← acc;
           fst <$> getDescendants d' (hashVertex (default zero (roots !! id))))
        (Some d) l = Some d1 →
  same_graph d d1.
Proof.
  revert d. induction l as [|id l IH]; intros d; cbn [foldl].
  - intros [= ->]. by repeat split.
  - cbn [mbind option_bind].
    destruct (getDescendants d _) as [[d2 D]|] eqn:Hd; cbn [fmap option_fmap option_map fst].
    + intros Hrun. apply IH in Hrun.
      apply getDescendants_shape in Hd as (cache & _ & ->).
      destruct Hrun as (? & ? & ? & ? & ?). by repeat split.
    + by rewrite fill_roots_None.
Qed.

Lemma ReduceTransitively_shape d d' :
  ReduceTransitively d = Some d' →
  ∃ d1,
    foldl (λ acc id, d' ← acc;
             fst <$> getDescendants d' (hashVertex (default zero (getRoots d !! id))))
          (Some d) (ids_order (dom (getRoots d))) = Some d1 ∧
    let st := foldl reduce_vertex (d1, false) (keys_order (dom (vertices d1))) in
    d' = if st.2 then flushCaches st.1 else st.1.
Proof.
  unfold ReduceTransitively. cbn zeta.
  destruct (foldl _ (Some d) _) as [d1|] eqn:Hfill; cbn [mbind option_bind]; [|done].
  intros Hrun. exists d1. split; [done|].
  destruct (foldl reduce_vertex _ _) as [d2 ch]. by simplify_eq.
Qed.

Lemma symmetric_same_edges d d' :
  inboundEdge d' = inboundEdge d → outboundEdge d' = outboundEdge d →
  adjacency_symmetric d → adjacency_symmetric d'.
Proof. unfold adjacency_symmetric. by intros -> ->. Qed.

Lemma ReduceTransitively_symmetric d d' :
  adjacency_symmetric d → ReduceTransitively d = Some d' → adjacency_symmetric d'.
Proof.
  intros Hsym (d1 & Hfill & ->)%ReduceTransitively_shape.
  apply fill_roots_same_graph in Hfill as (_ & _ & Hin & Hout & _).
  assert (adjacency_symmetric d1) as Hsym1 by by eapply symmetric_same_edges.
  destruct (reduce_loop_spec (keys_order (dom (vertices d1))) d1 false)
    as (_ & _ & _ & _ & Hout2 & Hin2 & _); [apply NoDup_keys_order|].
  destruct (foldl reduce_vertex _ _) as [d2 ch]. cbn [fst snd] in *.
  assert (adjacency_symmetric d2) as Hsym2.
  { intros a b. rewrite Hout2, Hin2, (Hsym1 a b). tauto. }
  destruct ch; [|done]. by eapply symmetric_same_edges.
Qed.

Lemma run_op_symmetric (o : op) d d' (e : option (error T)) :
  adjacency_symmetric d → run_op o d = Some (d', e) → adjacency_symmetric d'.
Proof.
  intros Hsym Hrun. destruct e as [e|].
  { apply run_op_error_unchanged in Hrun. by subst. }
  destruct o; simpl in Hrun.
  - unfold AddVertex, addVertex in Hrun.
    destruct (addVertexByID id v d) as [d1 e1] eqn:Hadd. simpl in Hrun. simplify_eq.
    apply addVertexByID_shape in Hadd as (_ & _ & ->). exact Hsym.
  - simplify_eq. apply addVertexByID_shape in Hrun as (_ & _ & ->). exact Hsym.
  - apply AddEdge_shape in Hrun as (_ & _ & _ & _ & _ & cd & D & ca & A & _ & ->).
    intros a b. cbn. rewrite !at_key_insert_at, (Hsym a b). tauto.
  - apply DeleteEdge_shape in Hrun as (_ & _ & _ & _ & cd & D & ca & A & _ & ->).
    intros a b. cbn. rewrite !at_key_delete_at, (Hsym a b). tauto.
  - apply DeleteVertex_shape in Hrun as (_ & cd & D & ca & A & _ & ->).
    intros a b. cbn. rewrite DeleteVertex_out, DeleteVertex_in, (Hsym a b) by done. tauto.
  - destruct (ReduceTransitively d) as [d1|] eqn:Hred; simpl in Hrun; [|done].
    simplify_eq. by eapply ReduceTransitively_symmetric.
  - by simplify_eq.
  - unfold GetDescendants in Hrun. destruct (saneID d id); simpl in Hrun; [by simplify_eq|].
    destruct (getDescendants d _) as [[d1 ds]|] eqn:Hd; simpl in Hrun; [|done].
    simplify_eq. by apply getDescendants_shape in Hd as (cache & _ & ->).
  - unfold GetAncestors in Hrun. destruct (saneID d id); simpl in Hrun; [by simplify_eq|].
    destruct (getAncestors d _) as [[d1 ds]|] eqn:Hd; simpl in Hrun; [|done].
    simplify_eq. by apply getAncestors_shape in Hd as (cache & _ & ->).
Qed.

Lemma run_ops_symmetric (os : list op) d d' :
  adjacency_symmetric d → run_ops os d = Some d' → adjacency_symmetric d'.
Proof.
  revert d. induction os as [|o os IH]; intros d Hsym; simpl.
  - by intros [= <-].
  - destruct (run_op o d) as [[d1 e]|] eqn:Hop; simpl; [|done].
    intros Hrun. eapply IH; [|exact Hrun]. by eapply run_op_symmetric.
Qed.

End symmetry.

(** ** The store invariant *)

Section invariant_basics.
Context {K T : Type} `{Countable K} {E : Env K T} {EOk : EnvOk E}.
Implicit Types (d : GenericDAG K T) (R : relation K).

Lemma NewGenericDAG_invariant : dag_invariant (NewGenericDAG : GenericDAG K T).
Proof.
  assert (∀ a b, ¬ edge (NewGenericDAG : GenericDAG K T) a b) as Hno.
  { intros a b. unfold edge, edge_of, at_key. cbn. rewrite lookup_empty. set_solver. }
  split.
  - intros a b. unfold at_key. cbn. rewrite !lookup_empty. set_solver.
  - intros a Ha. apply tc_inv_l in Ha as (c & Hc & _). by apply Hno in Hc.
  - split; intros ? ?; cbn; by rewrite lookup_empty.
  - intros a b Hab. by apply Hno in Hab.
  - intros k D. cbn. by rewrite lookup_empty.
  - intros k D. cbn. by rewrite lookup_empty.
  - intros k x [D HD]. cbn in HD. by rewrite lookup_empty in HD.
Qed.

Lemma tc_add_edge R R' (s t a b : K) :
  (∀ x y, R' x y → R x y ∨ (x = s ∧ y = t)) →
  tc R' a b → tc R a b ∨ (rtc R a s ∧ rtc R t b).
Proof.
  intros HR'. induction 1 as [a b Hab|a y b Hay _ IH].
  - destruct (HR' _ _ Hab) as [?|[-> ->]]; [left; by apply tc_once|by right].
  - destruct (HR' _ _ Hay) as [Hay'|[-> ->]]; destruct IH as [Hyb|[Hys Htb]].
    + left. by eapply tc_l.
    + right. split; [by eapply rtc_l|done].
    + right. split; [done|by apply tc_rtc].
    + right. by split.
Qed.

Lemma key_of_live d (id : string) :
  indices_consistent d → saneID d id = None →
  vertices d !! key_of d id = Some id ∧ id ≠ EmptyString ∧
  vertexValues d !! id = Some (value_of d id).
Proof.
  intros [Hids _] [Hne [v Hv]]%saneID_None.
  unfold key_of, value_of. rewrite Hv. simpl. split_and!; [|done..]. by apply Hids.
Qed.

Lemma key_of_inj d (id1 id2 : string) :
  indices_consistent d → saneID d id1 = None → saneID d id2 = None →
  key_of d id1 = key_of d id2 → id1 = id2.
Proof.
  intros Hidx H1 H2 Heq.
  destruct (key_of_live d id1 Hidx H1) as (Hk1 & _).
  destruct (key_of_live d id2 Hidx H2) as (Hk2 & _).
  rewrite Heq in Hk1. congruence.
Qed.

(** The fills return what the specification of [getRelatives] promises. *)
Lemma filled_post d (kd ka : K) cd D ca A :
  dag_invariant d → filled d kd ka cd D ca A →
  relatives_post (outboundEdge d) (descendantsCache d) kd cd D ∧
  relatives_post (inboundEdge d) (ancestorsCache d) ka ca A.
Proof.
  intros Hinv [Hd Ha].
  destruct (getDescendants_spec d kd) as (cd' & D' & Hd' & Hpd);
    [apply Hinv..|].
  destruct (getAncestors_spec d ka) as (ca' & A' & Ha' & Hpa);
    [apply Hinv..|].
  unfold getDescendants in Hd'. rewrite Hd in Hd'. simpl in Hd'.
  unfold getAncestors in Ha'. rewrite Ha in Ha'. simpl in Ha'.
  injection Hd' as -> ->. injection Ha' as -> ->. done.
Qed.

Lemma filled_total d (kd ka : K) :
  dag_invariant d → ∃ cd D ca A, filled d kd ka cd D ca A.
Proof.
  intros Hinv.
  destruct (getRelatives_spec (outboundEdge d) (getRelatives_fuel (outboundEdge d))
              (descendantsCache d) kd) as (cd & D & Hd & _).
  { apply Hinv. }
  { intros l. apply chain_length. apply Hinv. }
  destruct (getRelatives_spec (inboundEdge d) (getRelatives_fuel (inboundEdge d))
              (ancestorsCache d) ka) as (ca & A & Ha & _).
  { eapply cache_correct_iff; [|apply ancestors_cache_correct_iff, Hinv].
    intros a b. symmetry. apply in_edge_flip, Hinv. }
  { intros l. apply chain_length. intros a Hc. apply (inv_acyclic d Hinv a).
    apply tc_in_edge; [apply Hinv|done]. }
  by exists cd, D, ca, A.
Qed.

(** The sets the fills return, in terms of reachability. *)
Lemma filled_sets d (kd ka : K) cd D ca A :
  dag_invariant d → filled d kd ka cd D ca A →
  (∀ x, x ∈ D ↔ reach d kd x) ∧ (∀ x, x ∈ A ↔ reach d x ka) ∧
  cache_correct (edge d) cd ∧ cache_correct (flip (edge d)) ca ∧
  cache_closed (edge d) cd.
Proof.
  intros Hinv Hf. destruct (filled_post d kd ka cd D ca A Hinv Hf)
    as [(HD & _ & _ & Hcd & _ & Hcl) (HA & _ & _ & Hca & _)].
  split_and!.
  - exact HD.
  - intros x. rewrite HA. apply tc_in_edge, Hinv.
  - exact Hcd.
  - eapply cache_correct_iff; [|exact Hca]. apply in_edge_flip, Hinv.
  - apply Hcl, Hinv.
Qed.

End invariant_basics.

Section invariant_mutations.
Context {K T : Type} `{Countable K} {E : Env K T} {EOk : EnvOk E}.
Implicit Types (d : GenericDAG K T) (R : relation K).

Lemma addVertexByID_invariant d id v d' :
  dag_invariant d → addVertexByID id v d = (d', None) → dag_invariant d'.
Proof.
  intros Hinv (Hfresh & Hid & ->)%addVertexByID_shape.
  destruct Hinv as [Hsym Hacyc [Hids Hkeys] Hlive Hdc Hac Hcl].
  split; try done.
  - split; cbn.
    + intros id' v' Hv'. destruct (decide (id' = id)) as [->|Hne].
      * rewrite lookup_insert_eq in Hv'. simplify_eq. apply lookup_insert_eq.
      * rewrite lookup_insert_ne in Hv' by done. specialize (Hids _ _ Hv').
        rewrite lookup_insert_ne; [done|]. intros Heq. congruence.
    + intros k id' Hk. destruct (decide (k = hashVertex v)) as [->|Hne].
      * rewrite lookup_insert_eq in Hk. simplify_eq. exists v.
        by rewrite lookup_insert_eq.
      * rewrite lookup_insert_ne in Hk by done.
        destruct (Hkeys _ _ Hk) as (v' & Hv' & Hh). exists v'. split; [|done].
        rewrite lookup_insert_ne; [done|]. intros ->. congruence.
  - intros a b Hab. destruct (Hlive a b Hab) as (ida & idb & Ha & Hb & ? & ?).
    exists ida, idb. cbn. split_and!; [| |done..].
    + rewrite lookup_insert_ne; [done|]. intros Heq. congruence.
    + rewrite lookup_insert_ne; [done|]. intros Heq. congruence.
Qed.

Lemma AddEdge_invariant d srcID dstID d' :
  dag_invariant d → AddEdge srcID dstID d = Some (d', None) → dag_invariant d'.
Proof.
  intros Hinv Hrun. pose proof Hrun as Hrun'.
  apply AddEdge_shape in Hrun as (Hs & Ht & Hne & Hnedge & Hloop & cd & D & ca & A & Hf & ->).
  set (s := key_of d srcID) in *. set (t := key_of d dstID) in *.
  destruct (filled_sets d t s cd D ca A Hinv Hf) as (HD & HA & Hcd & Hca & Hclosed).
  destruct (key_of_live d srcID (inv_indices d Hinv) Hs) as (Hks & Hsne & _).
  destruct (key_of_live d dstID (inv_indices d Hinv) Ht) as (Hkt & Htne & _).
  fold s in Hks. fold t in Hkt.
  set (d' := mkDAG _ _ _ _ _ _).
  assert (∀ a b, edge d' a b ↔ edge d a b ∨ (a = s ∧ b = t)) as Hedge.
  { intros a b. unfold edge, edge_of. cbn. by rewrite at_key_insert_at. }
  assert (¬ reach d t s) as Hnoloop.
  { intros Hr. apply wouldCreateLoop_true_iff in Hr. congruence. }
  assert (s ≠ t) as Hst.
  { intros Heq. apply Hne. by eapply key_of_inj; [apply Hinv|..]. }
  split.
  - eapply run_op_symmetric; [apply (inv_symmetric d Hinv)|].
    instantiate (2 := OpAddEdge srcID dstID). exact Hrun'.
  - intros a Ha.
    destruct (tc_add_edge (edge d) (edge d') s t a a) as [Hc|[Has Hta]]; [|done| |].
    + intros x y. apply Hedge.
    + by apply (inv_acyclic d Hinv a).
    + assert (rtc (edge d) t s) as [?|?]%rtc_tc by by etrans.
      * by apply Hst.
      * by apply Hnoloop.
  - apply Hinv.
  - intros a b [Hab|[-> ->]]%Hedge.
    + by apply (inv_edges_live d Hinv).
    + by exists srcID, dstID.
  - apply (invalidate_correct (edge d) (edge d')); [done|done|].
    intros a b Has. rewrite Hedge. split; [by left|]. intros [?|[-> _]]; [done|].
    exfalso. apply Has, rtc_refl.
  - apply ancestors_cache_correct_iff.
    apply (invalidate_correct (flip (edge d)) (flip (edge d'))); [done| |].
    + intros x. by rewrite HD, tc_flip.
    + intros a b Hat. unfold flip. rewrite Hedge. split; [by left|].
      intros [?|[_ ->]]; [done|]. exfalso. apply Hat, rtc_refl.
  - apply (invalidate_closed (edge d) (edge d')); [done|done|].
    intros a b Has [?|[-> _]]%Hedge; [done|]. exfalso. apply Has, rtc_refl.
Qed.

Lemma DeleteEdge_invariant d srcID dstID d' :
  dag_invariant d → DeleteEdge srcID dstID d = Some (d', None) → dag_invariant d'.
Proof.
  intros Hinv Hrun. pose proof Hrun as Hrun'.
  apply DeleteEdge_shape in Hrun as (Hs & Ht & Hne & Hisedge & cd & D & ca & A & Hf & ->).
  set (s := key_of d srcID) in *. set (t := key_of d dstID) in *.
  destruct (filled_sets d s t cd D ca A Hinv Hf) as (HD & HA & Hcd & Hca & Hclosed).
  set (d' := mkDAG _ _ _ _ _ _).
  assert (∀ a b, edge d' a b ↔ edge d a b ∧ ¬ (a = s ∧ b = t)) as Hedge.
  { intros a b. unfold edge, edge_of. cbn. by rewrite at_key_delete_at. }
  assert (edge d s t) as Hst by by apply isEdge_true in Hisedge as [? _].
  split.
  - eapply run_op_symmetric; [apply (inv_symmetric d Hinv)|].
    instantiate (2 := OpDeleteEdge srcID dstID). exact Hrun'.
  - intros a Ha. apply (inv_acyclic d Hinv a).
    eapply tc_impl; [|exact Ha]. intros x y. by intros [? _]%Hedge.
  - apply Hinv.
  - intros a b [Hab _]%Hedge. by apply (inv_edges_live d Hinv).
  - apply (invalidate_correct (edge d) (edge d')); [done|done|].
    intros a b Hat. rewrite Hedge. split; [|by intros [? _]]. intros Hab. split; [done|].
    intros [-> ->]. apply Hat. by apply rtc_once.
  - apply ancestors_cache_correct_iff.
    apply (invalidate_correct (flip (edge d)) (flip (edge d'))); [done| |].
    + intros x. by rewrite HD, tc_flip.
    + intros a b Has. unfold flip. rewrite Hedge. split; [|by intros [? _]].
      intros Hab. split; [done|]. intros [-> ->]. apply Has. by apply rtc_once.
  - apply (invalidate_closed (edge d) (edge d')); [done|done|].
    intros a b _ [? _]%Hedge. done.
Qed.

Lemma DeleteVertex_invariant d id d' :
  dag_invariant d → DeleteVertex id d = Some (d', None) → dag_invariant d'.
Proof.
  intros Hinv Hrun. pose proof Hrun as Hrun'.
  apply DeleteVertex_shape in Hrun as (Hs & cd & D & ca & A & Hf & Hd').
  cbn zeta in Hd'. subst d'.
  set (v := key_of d id) in *.
  destruct (filled_sets d v v cd D ca A Hinv Hf) as (HD & HA & Hcd & Hca & Hclosed).
  destruct (key_of_live d id (inv_indices d Hinv) Hs) as (Hkv & Hidne & Hval).
  fold v in Hkv.
  set (d' := mkDAG _ _ _ _ _ _).
  assert (∀ a b, edge d' a b ↔ edge d a b ∧ a ≠ v ∧ b ≠ v) as Hedge.
  { intros a b. unfold edge, edge_of. cbn. apply DeleteVertex_out, Hinv. }
  destruct (inv_indices d Hinv) as [Hids Hkeys].
  split.
  - eapply run_op_symmetric; [apply (inv_symmetric d Hinv)|].
    instantiate (2 := OpDeleteVertex id). exact Hrun'.
  - intros a Ha. apply (inv_acyclic d Hinv a).
    eapply tc_impl; [|exact Ha]. intros x y. by intros [? _]%Hedge.
  - split; cbn.
    + intros id' v' Hv'. destruct (decide (id' = id)) as [->|Hn].
      { by rewrite lookup_delete_eq in Hv'. }
      rewrite lookup_delete_ne in Hv' by done. specialize (Hids _ _ Hv').
      rewrite lookup_delete_ne; [done|]. intros Heq. rewrite <-Heq in Hids. congruence.
    + intros k id' Hk. destruct (decide (k = v)) as [->|Hn].
      { by rewrite lookup_delete_eq in Hk. }
      rewrite lookup_delete_ne in Hk by done.
      destruct (Hkeys _ _ Hk) as (v' & Hv' & Hh). exists v'. split; [|done].
      rewrite lookup_delete_ne; [done|]. intros ->. apply Hn.
      rewrite <-Hh. unfold v, key_of, value_of. by rewrite Hv'.
  - intros a b (Hab & Hav & Hbv)%Hedge.
    destruct (inv_edges_live d Hinv a b Hab) as (ida & idb & Ha & Hb & ? & ?).
    exists ida, idb. cbn. by rewrite !lookup_delete_ne.
  - apply (invalidate_correct (edge d) (edge d')); [done|done|].
    intros a b Hav. rewrite Hedge. split; [|by intros [? _]]. intros Hab. split_and!; [done|..].
    + intros ->. apply Hav, rtc_refl.
    + intros ->. apply Hav. by apply rtc_once.
  - apply ancestors_cache_correct_iff.
    apply (invalidate_correct (flip (edge d)) (flip (edge d'))); [done| |].
    + intros x. by rewrite HD, tc_flip.
    + intros a b Hav. unfold flip. rewrite Hedge. split; [|by intros [? _]].
      intros Hab. split_and!; [done|..].
      * intros ->. apply Hav. by apply rtc_once.
      * intros ->. apply Hav, rtc_refl.
  - apply (invalidate_closed (edge d) (edge d')); [done|done|].
    intros a b _ [? _]%Hedge. done.
Qed.

End invariant_mutations.

Section wellfounded.
Context {K T : Type} `{Countable K} {E : Env K T}.
Implicit Types (d : GenericDAG K T) (R : relation K).

Lemma tc_tc R (a b : K) : tc (tc R) a b → tc R a b.
Proof. induction 1 as [|x y z Hxy _ IH]; [done|]. by etrans. Qed.

Lemma reach_source_dom d (a b : K) : reach d a b → a ∈ dom (outboundEdge d).
Proof.
  intros (c & Hc & _)%tc_inv_l. apply elem_of_at_key in Hc as (s & Hs & _).
  apply elem_of_dom. by eexists.
Qed.

Lemma reach_target_child d (a b : K) : reach d a b → b ∈ all_children (outboundEdge d).
Proof.
  induction 1 as [x y Hxy|x y z _ _ IH]; [|done]. by eapply elem_of_all_children.
Qed.

(** In an acyclic store the ancestors of a key are well-founded ... *)
Lemma acyclic_wf_up d : acyclic d → ∀ a, Acc (reach d) a.
Proof.
  intros Hacyc a.
  apply (tc_finite_sn (R:=flip (tc (edge d)))).
  - intros x Hx. apply tc_flip, tc_tc in Hx. by apply (Hacyc x).
  - exists (elements (dom (outboundEdge d))). intros y Hy%tc_flip%tc_tc.
    apply elem_of_elements. by eapply reach_source_dom.
Qed.

(** ... and so are its descendants. *)
Lemma acyclic_wf_down d : acyclic d → ∀ a, Acc (flip (reach d)) a.
Proof.
  intros Hacyc a.
  apply (tc_finite_sn (R:=tc (edge d))).
  - intros x Hx. apply tc_tc in Hx. by apply (Hacyc x).
  - exists (elements (all_children (outboundEdge d))). intros y Hy%tc_tc.
    apply elem_of_elements. by eapply reach_target_child.
Qed.

(** Dropping every edge a→b that a longer path a→c→…→b bypasses keeps the
    reachability relation. *)
Lemma transitive_reduction_reach R R' :
  (∀ a, Acc (tc R) a) → (∀ a, Acc (flip (tc R)) a) →
  (∀ a b, (∃ c, R a c ∧ tc R c b) ∨ ¬ (∃ c, R a c ∧ tc R c b)) →
  (∀ a b, R' a b ↔ R a b ∧ ¬ (∃ c, R a c ∧ tc R c b)) →
  ∀ a b : K, tc R' a b ↔ tc R a b.
Proof.
  intros Hup Hdown Hdec HR' a b. split.
  { apply tc_impl. intros x y Hxy. by apply HR' in Hxy as [? _]. }
  revert b. induction (Hdown a) as [a _ IHa]. intros b Hab.
  assert (∀ c, R a c → tc R' a c) as Hedge.
  { intros c. induction (Hup c) as [c _ IHc]. intros Hac.
    destruct (Hdec a c) as [(c' & Hac' & Hc'c)|Hno].
    - etrans; [by apply IHc|]. apply IHa; [|done]. by apply tc_once.
    - apply tc_once, HR'. by split. }
  apply tc_inv_l in Hab as (c & Hac & [->|Hcb]); [by apply Hedge|].
  etrans; [by apply Hedge|]. apply IHa; [|done]. by apply tc_once.
Qed.

End wellfounded.

Section id_maps.
Context {K T : Type} `{Countable K} {E : Env K T} {EOk : EnvOk E}.
Implicit Types (d : GenericDAG K T) (R : relation K).

(** Maps from ids to payloads built by ranging over keys. *)
Lemma foldl_ids_inv (p : K → bool) (f : K → string) (g : string → T)
    (l : list K) (m0 : gmap string T) id val :
  foldl (λ acc k, if p k then <[f k := g (f k)]> acc else acc) m0 l !! id = Some val →
  m0 !! id = Some val ∨ (∃ k, k ∈ l ∧ p k = true ∧ f k = id ∧ val = g id).
Proof.
  revert m0. induction l as [|k l IH]; intros m0; cbn [foldl]; [by left|].
  intros [Hm|(k' & ? & ? & ? & ?)]%IH.
  - destruct (p k) eqn:Hp; [|by left].
    destruct (decide (f k = id)) as [<-|Hne].
    + rewrite lookup_insert_eq in Hm. simplify_eq. right. exists k.
      split_and!; [apply list_elem_of_here|done..].
    + rewrite lookup_insert_ne in Hm by done. by left.
  - right. exists k'. split_and!; [by apply list_elem_of_further|done..].
Qed.

Lemma foldl_ids_keep (p : K → bool) (f : K → string) (g : string → T)
    (l : list K) (m0 : gmap string T) id :
  m0 !! id = Some (g id) →
  foldl (λ acc k, if p k then <[f k := g (f k)]> acc else acc) m0 l !! id = Some (g id).
Proof.
  revert m0. induction l as [|k l IH]; intros m0 Hm; cbn [foldl]; [done|].
  apply IH. destruct (p k); [|done].
  destruct (decide (f k = id)) as [<-|Hne]; [apply lookup_insert_eq|].
  by rewrite lookup_insert_ne.
Qed.

Lemma foldl_ids_intro (p : K → bool) (f : K → string) (g : string → T)
    (l : list K) (m0 : gmap string T) k :
  k ∈ l → p k = true →
  foldl (λ acc k, if p k then <[f k := g (f k)]> acc else acc) m0 l !! f k
  = Some (g (f k)).
Proof.
  revert m0. induction l as [|k' l IH]; intros m0 Hk Hp; [by apply elem_of_nil in Hk|].
  cbn [foldl]. apply elem_of_cons in Hk as [<-|Hk]; [|by apply IH].
  rewrite Hp. apply foldl_ids_keep, lookup_insert_eq.
Qed.

Lemma getRoots_lookup d id val :
  getRoots d !! id = Some val ↔
  ∃ k, k ∈ dom (vertices d) ∧ no_relatives (inboundEdge d) k = true ∧
       id_of d k = id ∧ val = value_of d id.
Proof.
  unfold getRoots. split.
  - intros [Hm|(k & Hk & ? & ? & ?)]%foldl_ids_inv; [by rewrite lookup_empty in Hm|].
    exists k. by rewrite elem_of_keys_order in Hk.
  - intros (k & Hk & Hp & <- & ->).
    apply (foldl_ids_intro (no_relatives (inboundEdge d)) (id_of d) (value_of d));
      [by apply elem_of_keys_order|done].
Qed.

Lemma ids_of_keys_lookup d (ks : gset K) id val :
  ids_of_keys d ks !! id = Some val ↔
  ∃ k, k ∈ ks ∧ id_of d k = id ∧ val = value_of d id.
Proof.
  unfold ids_of_keys. split.
  - intros Hm. apply (foldl_ids_inv (λ _, true) (id_of d) (value_of d)) in Hm
      as [Hm|(k & Hk & ? & ? & ?)]; [by rewrite lookup_empty in Hm|].
    exists k. by rewrite elem_of_keys_order in Hk.
  - intros (k & Hk & <- & ->).
    apply (foldl_ids_intro (λ _, true) (id_of d) (value_of d));
      [by apply elem_of_keys_order|done].
Qed.

Lemma no_relatives_true (edges : gmap K (gset K)) (k : K) :
  no_relatives edges k = true ↔ at_key edges k = ∅.
Proof.
  unfold no_relatives, at_key. destruct (edges !! k) as [s|]; simpl; [|done].
  rewrite bool_decide_eq_true, size_empty_iff. by unfold_leibniz.
Qed.

Lemma no_relatives_false (edges : gmap K (gset K)) (k : K) :
  no_relatives edges k = false → ∃ x, x ∈ at_key edges k.
Proof.
  intros Hf. apply set_choose_L. intros Hempty%no_relatives_true. congruence.
Qed.

(** Every live key descends from a root (or is one). *)
Lemma exists_root d (c : K) :
  dag_invariant d → c ∈ dom (vertices d) →
  ∃ r, r ∈ dom (vertices d) ∧ no_relatives (inboundEdge d) r = true ∧ rtc (edge d) r c.
Proof.
  intros Hinv. induction (acyclic_wf_up d (inv_acyclic d Hinv) c) as [c _ IH]. intros Hc.
  destruct (no_relatives (inboundEdge d) c) eqn:Hroot.
  - exists c. by split_and!.
  - apply no_relatives_false in Hroot as [p Hp].
    apply (inv_symmetric d Hinv) in Hp.
    destruct (inv_edges_live d Hinv p c Hp) as (idp & _ & Hidp & _).
    destruct (IH p) as (r & Hr & Hroot & Hrp).
    + by apply tc_once.
    + apply elem_of_dom. by eexists.
    + exists r. split_and!; [done..|]. by eapply rtc_r.
Qed.

End id_maps.

Section invariant_reduce.
Context {K T : Type} `{Countable K} {E : Env K T} {EOk : EnvOk E}.
Implicit Types (d : GenericDAG K T) (R : relation K).

Lemma getDescendants_invariant d (v : K) :
  dag_invariant d →
  ∃ d' D, getDescendants d v = Some (d', D) ∧
    dag_invariant d' ∧ same_graph d d' ∧ (∀ x, x ∈ D ↔ reach d v x) ∧
    descendantsCache d ⊆ descendantsCache d' ∧ descendantsCache d' !! v = Some D.
Proof.
  intros Hinv.
  destruct (getDescendants_spec d v) as (cache & D & Hrun & HD & Hsub & Hv & Hcorr & _ & Hcl);
    [apply Hinv..|].
  eexists _, D. split; [exact Hrun|].
  destruct Hinv as [Hsym Hacyc Hidx Hlive Hdc Hac Hclosed].
  split_and!; try done. split; try done. by apply Hcl.
Qed.

Lemma getAncestors_invariant d (v : K) :
  dag_invariant d →
  ∃ d' A, getAncestors d v = Some (d', A) ∧
    dag_invariant d' ∧ (∀ x, x ∈ A ↔ reach d x v) ∧
    vertices d' = vertices d ∧ vertexValues d' = vertexValues d ∧
    inboundEdge d' = inboundEdge d ∧ outboundEdge d' = outboundEdge d ∧
    descendantsCache d' = descendantsCache d.
Proof.
  intros Hinv.
  destruct (getAncestors_spec d v) as (cache & A & Hrun & HA & Hsub & Hv & Hcorr & _);
    [apply Hinv..|].
  eexists _, A. split; [exact Hrun|].
  destruct Hinv as [Hsym Hacyc Hidx Hlive Hdc Hac Hclosed].
  split_and!; try done.
  - split; try done. apply ancestors_cache_correct_iff. cbn.
    eapply cache_correct_iff; [|exact Hcorr]. exact (in_edge_flip d Hsym).
  - intros x. rewrite HA. exact (tc_in_edge d v x Hsym).
Qed.

Lemma flushCaches_invariant d : dag_invariant d → dag_invariant (flushCaches d).
Proof.
  intros [Hsym Hacyc Hidx Hlive Hdc Hac Hclosed]. split; try done.
  intros k x [D HD]. cbn in HD. by rewrite lookup_empty in HD.
Qed.

Lemma fill_roots_invariant (roots : gmap string T) (l : list string) d :
  dag_invariant d →
  ∃ d1,
    foldl (λ acc id, d' ← acc;
             fst <$> getDescendants d' (hashVertex (default zero (roots !! id))))
          (Some d) l = Some d1 ∧
    dag_invariant d1 ∧ same_graph d d1 ∧
    descendantsCache d ⊆ descendantsCache d1 ∧
    ∀ id, id ∈ l →
      is_Some (descendantsCache d1 !! hashVertex (default zero (roots !! id))).
Proof.
  revert d. induction l as [|id l IH]; intros d Hinv; cbn [foldl].
  - exists d. split_and!; try done. intros id Hid. by apply elem_of_nil in Hid.
  - destruct (getDescendants_invariant d (hashVertex (default zero (roots !! id))) Hinv)
      as (d2 & D & Hrun & Hinv2 & Hsame2 & _ & Hsub2 & Hv2).
    cbn [mbind option_bind]. rewrite Hrun. cbn [fmap option_fmap option_map fst].
    destruct (IH d2 Hinv2) as (d1 & Hfold & Hinv1 & Hsame1 & Hsub1 & Hall).
    exists d1. split_and!; try done.
    + destruct Hsame2 as (? & ? & ? & ? & ?), Hsame1 as (? & ? & ? & ? & ?).
      repeat split; congruence.
    + by etrans.
    + intros id' [->|Hid']%elem_of_cons; [|by apply Hall].
      eapply lookup_weaken_is_Some; [|exact Hsub1]. by eexists.
Qed.

(** After the fill over all roots every child has its cache entry. *)
Lemma fill_roots_children d d1 :
  dag_invariant d →
  foldl (λ acc id, d' ← acc;
           fst <$> getDescendants d' (hashVertex (default zero (getRoots d !! id))))
        (Some d) (ids_order (dom (getRoots d))) = Some d1 →
  dag_invariant d1 ∧ same_graph d d1 ∧
  ∀ a c, edge d1 a c → is_Some (descendantsCache d1 !! c).
Proof.
  intros Hinv Hfold.
  destruct (fill_roots_invariant (getRoots d) (ids_order (dom (getRoots d))) d Hinv)
    as (d1' & Hfold' & Hinv1 & Hsame & _ & Hall).
  rewrite Hfold in Hfold'. injection Hfold' as <-.
  split_and!; [done..|]. intros a c Hac.
  destruct Hsame as (Hv & Hvv & Hin & Hout & _).
  assert (edge d a c) as Hac' by (unfold edge in *; by rewrite <-Hout).
  destruct (inv_edges_live d Hinv a c Hac') as (ida & idc & Ha & Hc & _).
  destruct (exists_root d a Hinv) as (r & Hr & Hroot & Hra).
  { apply elem_of_dom. by eexists. }
  apply elem_of_dom in Hr as [idr Hidr].
  destruct (inv_indices d Hinv) as [_ Hkeys].
  destruct (Hkeys r idr Hidr) as (vr & Hvr & Hhash).
  assert (getRoots d !! idr = Some vr) as Hlook.
  { apply getRoots_lookup. exists r. split_and!.
    - apply elem_of_dom. by eexists.
    - done.
    - unfold id_of. by rewrite Hidr.
    - unfold value_of. by rewrite Hvr. }
  assert (is_Some (descendantsCache d1 !! r)) as Hcr.
  { specialize (Hall idr). rewrite Hlook in Hall. simpl in Hall. rewrite Hhash in Hall.
    apply Hall, elem_of_ids_order, elem_of_dom. by eexists. }
  assert (∀ x y, rtc (edge d1) x y → is_Some (descendantsCache d1 !! x) →
                 is_Some (descendantsCache d1 !! y)) as Hclosed.
  { induction 1 as [|x y z Hxy _ IHr]; [done|]. intros Hx. apply IHr.
    by eapply (inv_closed d1 Hinv1). }
  eapply (inv_closed d1 Hinv1); [|exact Hac].
  eapply Hclosed; [|exact Hcr]. unfold edge in *. by rewrite Hout.
Qed.

End invariant_reduce.

Section reduce_spec.
Context {K T : Type} `{Countable K} {E : Env K T} {EOk : EnvOk E}.
Implicit Types (d : GenericDAG K T) (R : relation K).

Lemma redundant_dec d (a b : K) : redundant d a b ∨ ¬ redundant d a b.
Proof.
  destruct (decide (b ∈ foldl (λ acc c, acc ∪ at_key (descendantsCache d) c) ∅
                         (elements (at_key (outboundEdge d) a)))) as [Hin|Hout].
  - left. apply elem_of_foldl_union in Hin as [Hin|(c & Hc & Hb)];
      [by apply elem_of_empty in Hin|].
    exists c. split; [by apply elem_of_elements|done].
  - right. intros (c & Hc & Hb). apply Hout, elem_of_foldl_union. right.
    exists c. split; [by apply elem_of_elements|done].
Qed.

Lemma same_graph_reach d d' (a b : K) :
  outboundEdge d' = outboundEdge d → reach d' a b ↔ reach d a b.
Proof. unfold reach, edge. by intros ->. Qed.

(** What [ReduceTransitively] does to a store that satisfies the invariant:
    it returns, keeps the invariant and the vertices, removes exactly the
    edges a→b that a path through another child of [a] bypasses, and leaves
    reachability as it was. *)
Lemma ReduceTransitively_spec d :
  dag_invariant d →
  ∃ d', ReduceTransitively d = Some d' ∧ dag_invariant d' ∧
    vertices d' = vertices d ∧ vertexValues d' = vertexValues d ∧
    (∀ a b, edge d' a b ↔ edge d a b ∧ ¬ (∃ c, edge d a c ∧ reach d c b)) ∧
    (∀ a b, reach d' a b ↔ reach d a b).
Proof.
  intros Hinv.
  destruct (fill_roots_invariant (getRoots d) (ids_order (dom (getRoots d))) d Hinv)
    as (d1 & Hfold & _).
  destruct (fill_roots_children d d1 Hinv Hfold) as (Hinv1 & Hsame & Hcached).
  destruct Hsame as (Hv1 & Hvv1 & Hin1 & Hout1 & Hac1).
  unfold ReduceTransitively. cbn zeta. rewrite Hfold. cbn [mbind option_bind].
  destruct (reduce_loop_spec (keys_order (dom (vertices d1))) d1 false)
    as (Hv2 & Hvv2 & Hac2 & Hdc2 & Hout2 & Hin2 & _ & Hun); [apply NoDup_keys_order|].
  destruct (foldl reduce_vertex _ _) as [d2 ch]. cbn [fst snd] in *.
  assert (∀ a b, redundant d1 a b ↔ ∃ c, edge d1 a c ∧ reach d1 c b) as Hred.
  { intros a b. unfold redundant. split; intros (c & Hc & Hb); exists c; (split; [done|]).
    - destruct (Hcached a c Hc) as [S HS]. unfold at_key in Hb. rewrite HS in Hb.
      by apply (inv_descendants d1 Hinv1 c S HS).
    - destruct (Hcached a c Hc) as [S HS]. unfold at_key. rewrite HS.
      by apply (inv_descendants d1 Hinv1 c S HS). }
  assert (∀ a b, edge d2 a b ↔ edge d1 a b ∧ ¬ (∃ c, edge d1 a c ∧ reach d1 c b)) as Hedge.
  { intros a b. unfold edge at 1, edge_of. rewrite Hout2, elem_of_keys_order, Hred.
    split; intros [Hab Hn]; (split; [done|]); [|tauto].
    intros Hr. apply Hn. split; [|done].
    destruct (inv_edges_live d1 Hinv1 a b Hab) as (ida & _ & Ha & _).
    apply elem_of_dom. by eexists. }
  assert (∀ a b, reach d2 a b ↔ reach d1 a b) as Hreach.
  { apply transitive_reduction_reach.
    - apply acyclic_wf_up, Hinv1.
    - apply acyclic_wf_down, Hinv1.
    - intros a b. destruct (redundant_dec d1 a b) as [Hr|Hr];
        [left; by apply Hred | right; intros Hc; by apply Hr, Hred].
    - exact Hedge. }
  assert (adjacency_symmetric d2) as Hsym2.
  { intros a b. rewrite Hout2, Hin2, (inv_symmetric d1 Hinv1 a b). tauto. }
  assert (acyclic d2) as Hacyc2.
  { intros a Ha%Hreach. by apply (inv_acyclic d1 Hinv1 a). }
  assert (indices_consistent d2) as Hidx2.
  { unfold indices_consistent. rewrite Hv2, Hvv2. apply Hinv1. }
  assert (edges_live d2) as Hlive2.
  { intros a b [Hab _]%Hedge. rewrite Hv2. by apply (inv_edges_live d1 Hinv1). }
  eexists. split; [done|].
  assert (∀ a b, edge d1 a b ↔ edge d a b) as He1.
  { intros a b. unfold edge. by rewrite Hout1. }
  assert (∀ a b, reach d1 a b ↔ reach d a b) as Hr1.
  { intros a b. by apply same_graph_reach. }
  destruct ch.
  - split_and!.
    + split; try done.
      intros k x [D HD]. cbn in HD. by rewrite lookup_empty in HD.
    + cbn. congruence.
    + cbn. congruence.
    + intros a b. change (edge (flushCaches d2) a b) with (edge d2 a b).
      rewrite Hedge.
      split; intros [Hab Hn]; (split; [by apply He1|]); intros (c & Hc & Hcb);
        apply Hn; exists c; (split; [by apply He1 | by apply Hr1]).
    + intros a b. change (reach (flushCaches d2) a b) with (reach d2 a b).
      by rewrite Hreach, Hr1.
  - rewrite (Hun eq_refl) in *. split_and!.
    + done.
    + done.
    + done.
    + intros a b. rewrite Hedge.
      split; intros [Hab Hn]; (split; [by apply He1|]); intros (c & Hc & Hcb);
        apply Hn; exists c; (split; [by apply He1 | by apply Hr1]).
    + intros a b. apply Hr1.
Qed.

End reduce_spec.

Section reachable_states.
Context {K T : Type} `{Countable K} {E : Env K T} {EOk : EnvOk E}.
Implicit Types (d : GenericDAG K T) (R : relation K).

Lemma AddEdge_total d srcID dstID : dag_invariant d → is_Some (AddEdge srcID dstID d).
Proof.
  intros Hinv. unfold AddEdge.
  destruct (saneID d srcID); [by eexists|].
  destruct (saneID d dstID); [by eexists|].
  case_decide; [by eexists|].
  destruct (isEdge d _ _); [by eexists|].
  destruct (wouldCreateLoop_total d (key_of d srcID) (key_of d dstID)) as [[] ->];
    simpl; [by eexists|].
  destruct (getDescendants_invariant d (key_of d dstID) Hinv) as (d1 & D & -> & Hinv1 & _).
  simpl.
  destruct (getAncestors_invariant d1 (key_of d srcID) Hinv1) as (d2 & A & -> & _).
  simpl. by eexists.
Qed.

Lemma DeleteEdge_total d srcID dstID : dag_invariant d → is_Some (DeleteEdge srcID dstID d).
Proof.
  intros Hinv. unfold DeleteEdge.
  destruct (saneID d srcID); [by eexists|].
  destruct (saneID d dstID); [by eexists|].
  case_decide; [by eexists|].
  destruct (isEdge d _ _); simpl; [|by eexists].
  destruct (getDescendants_invariant d (key_of d srcID) Hinv) as (d1 & D & -> & Hinv1 & _).
  simpl.
  destruct (getAncestors_invariant d1 (key_of d dstID) Hinv1) as (d2 & A & -> & _).
  simpl. by eexists.
Qed.

Lemma DeleteVertex_total d id : dag_invariant d → is_Some (DeleteVertex id d).
Proof.
  intros Hinv. unfold DeleteVertex.
  destruct (saneID d id); [by eexists|].
  destruct (getDescendants_invariant d (key_of d id) Hinv) as (d1 & D & -> & Hinv1 & _).
  simpl.
  destruct (getAncestors_invariant d1 (key_of d id) Hinv1) as (d2 & A & -> & _).
  simpl. by eexists.
Qed.

(** No operation runs out of fuel on a store that satisfies the invariant. *)
Lemma run_op_total (o : op) d : dag_invariant d → is_Some (run_op o d).
Proof.
  intros Hinv. destruct o; simpl; try by eexists.
  - by apply AddEdge_total.
  - by apply DeleteEdge_total.
  - by apply DeleteVertex_total.
  - destruct (ReduceTransitively_spec d Hinv) as (d' & -> & _). by eexists.
  - unfold GetDescendants. destruct (saneID d id); simpl; [by eexists|].
    destruct (getDescendants_invariant d (key_of d id) Hinv) as (d1 & D & -> & _).
    by eexists.
  - unfold GetAncestors. destruct (saneID d id); simpl; [by eexists|].
    destruct (getAncestors_invariant d (key_of d id) Hinv) as (d1 & D & -> & _).
    by eexists.
Qed.

Lemma run_op_invariant (o : op) d d' (e : option (error T)) :
  dag_invariant d → run_op o d = Some (d', e) → dag_invariant d'.
Proof.
  intros Hinv Hrun. destruct e as [e|].
  { apply run_op_error_unchanged in Hrun. by subst. }
  destruct o; simpl in Hrun.
  - unfold AddVertex, addVertex in Hrun.
    destruct (addVertexByID id v d) as [d1 e1] eqn:Hadd. simpl in Hrun. simplify_eq.
    by eapply addVertexByID_invariant.
  - simplify_eq. by eapply addVertexByID_invariant.
  - by eapply AddEdge_invariant.
  - by eapply DeleteEdge_invariant.
  - by eapply DeleteVertex_invariant.
  - destruct (ReduceTransitively_spec d Hinv) as (d1 & Hred & Hinv1 & _).
    rewrite Hred in Hrun. simpl in Hrun. by simplify_eq.
  - simplify_eq. by apply flushCaches_invariant.
  - unfold GetDescendants in Hrun. destruct (saneID d id); simpl in Hrun; [by simplify_eq|].
    destruct (getDescendants_invariant d (key_of d id) Hinv) as (d1 & D & Hd & Hinv1 & _).
    rewrite Hd in Hrun. simpl in Hrun. by simplify_eq.
  - unfold GetAncestors in Hrun. destruct (saneID d id); simpl in Hrun; [by simplify_eq|].
    destruct (getAncestors_invariant d (key_of d id) Hinv) as (d1 & D & Hd & Hinv1 & _).
    rewrite Hd in Hrun. simpl in Hrun. by simplify_eq.
Qed.

Lemma run_ops_invariant (os : list op) d d' :
  dag_invariant d → run_ops os d = Some d' → dag_invariant d'.
Proof.
  revert d. induction os as [|o os IH]; intros d Hinv; simpl.
  - by intros [= <-].
  - destruct (run_op o d) as [[d1 e]|] eqn:Hop; simpl; [|done].
    intros Hrun. eapply IH; [|exact Hrun]. by eapply run_op_invariant.
Qed.

(** Every sequence of public operations runs to the end. *)
Lemma run_ops_total (os : list op) d : dag_invariant d → is_Some (run_ops os d).
Proof.
  revert d. induction os as [|o os IH]; intros d Hinv; simpl; [by eexists|].
  destruct (run_op_total o d Hinv) as [[d1 e] Hop]. rewrite Hop. simpl.
  apply IH. by eapply run_op_invariant.
Qed.

Lemma reachable_invariant d : reachable d → dag_invariant d.
Proof.
  intros [os Hos]. eapply run_ops_invariant; [|exact Hos]. apply NewGenericDAG_invariant.
Qed.

End reachable_states.


(** ** [AddEdge] and the loop check *)

Section loop_check.
Context {K T : Type} `{Countable K} {E : Env K T} {EOk : EnvOk E}.
Implicit Types (d : GenericDAG K T).

Lemma AddEdge_loop_iff d srcID dstID :
  saneID d srcID = None → saneID d dstID = None → srcID ≠ dstID →
  isEdge d (key_of d srcID) (key_of d dstID) = false →
  AddEdge srcID dstID d = Some (d, Some (EdgeLoopError srcID dstID)) ↔
  reach d (key_of d dstID) (key_of d srcID).
Proof.
  intros Hs Ht Hne Hedge. rewrite <-wouldCreateLoop_true_iff.
  unfold AddEdge. rewrite Hs, Ht, decide_False, Hedge by done.
  destruct (wouldCreateLoop_total d (key_of d srcID) (key_of d dstID)) as [[] Hb];
    rewrite Hb; simpl; [done|].
  split; [|done].
  destruct (getDescendants d _) as [[d1 D]|]; simpl; [|done].
  destruct (getAncestors d1 _) as [[d2 A]|]; simpl; done.
Qed.

Lemma live_key d id :
  indices_consistent d → live d id → vertices d !! key_of d id = Some id.
Proof.
  intros [Hids _] [v Hv]. unfold key_of, value_of. rewrite Hv. simpl. by apply Hids.
Qed.

Lemma reach_endpoints_named d (a b : K) :
  edges_live d → reach d a b →
  (∃ ida, vertices d !! a = Some ida ∧ ida ≠ EmptyString) ∧
  (∃ idb, vertices d !! b = Some idb ∧ idb ≠ EmptyString).
Proof.
  intros Hlive. induction 1 as [x y Hxy|x y z Hxy _ [_ IH]].
  - destruct (Hlive x y Hxy) as (ida & idb & ? & ? & ? & ?). split; eauto.
  - destruct (Hlive x y Hxy) as (ida & idb & ? & ? & ? & ?). split; eauto.
Qed.

Lemma AddEdge_loop_iff_reachable d srcID dstID :
  dag_invariant d → live d srcID → live d dstID → srcID ≠ dstID →
  isEdge d (key_of d srcID) (key_of d dstID) = false →
  AddEdge srcID dstID d = Some (d, Some (EdgeLoopError srcID dstID)) ↔
  rtc (edge d) (key_of d dstID) (key_of d srcID).
Proof.
  intros Hinv Hls Hlt Hne Hedge.
  pose proof (live_key d srcID (inv_indices d Hinv) Hls) as Hks.
  pose proof (live_key d dstID (inv_indices d Hinv) Hlt) as Hkt.
  assert (key_of d dstID ≠ key_of d srcID) as Hkne.
  { intros Heq. rewrite Heq in Hkt. congruence. }
  assert (rtc (edge d) (key_of d dstID) (key_of d srcID) ↔
          reach d (key_of d dstID) (key_of d srcID)) as ->.
  { rewrite rtc_tc. unfold reach. naive_solver. }
  destruct (decide (srcID = EmptyString)) as [->|Hsne].
  { split.
    - intros Hrun. unfold AddEdge, saneID in Hrun.
      rewrite decide_True in Hrun by done. inversion Hrun.
    - intros [_ (idb & Hb & ?)]%reach_endpoints_named; [|apply Hinv]. congruence. }
  destruct (decide (dstID = EmptyString)) as [->|Htne].
  { split.
    - intros Hrun. unfold AddEdge in Hrun.
      rewrite (proj2 (saneID_None d srcID)) in Hrun by done.
      unfold saneID in Hrun. rewrite decide_True in Hrun by done. inversion Hrun.
    - intros [(ida & Ha & ?) _]%reach_endpoints_named; [|apply Hinv]. congruence. }
  apply AddEdge_loop_iff; [by apply saneID_None..|done|done].
Qed.

End loop_check.

(** ** Queries after a transitive reduction *)

Section reduce_queries.
Context {K T : Type} `{Countable K} {E : Env K T} {EOk : EnvOk E}.
Implicit Types (d : GenericDAG K T).

Lemma ids_of_keys_ext d1 d2 (ks : gset K) :
  vertices d1 = vertices d2 → vertexValues d1 = vertexValues d2 →
  ids_of_keys d1 ks = ids_of_keys d2 ks.
Proof. unfold ids_of_keys, id_of, value_of. by intros -> ->. Qed.

Lemma GetDescendants_value d id :
  dag_invariant d → saneID d id = None →
  ∃ d1 D, GetDescendants id d = Some (d1, (ids_of_keys d D, None)) ∧
          ∀ x, x ∈ D ↔ reach d (key_of d id) x.
Proof.
  intros Hinv Hsane. unfold GetDescendants. rewrite Hsane.
  destruct (getDescendants_invariant d (key_of d id) Hinv)
    as (d1 & D & -> & _ & (Hv & Hvv & _) & HD & _).
  exists d1, D. split; [|done]. simpl. by rewrite (ids_of_keys_ext d1 d D).
Qed.

(** The descendants a client is told are those of before the reduction. *)
Lemma GetDescendants_after_reduce d d' id :
  dag_invariant d → ReduceTransitively d = Some d' →
  snd <$> GetDescendants id d' = snd <$> GetDescendants id d.
Proof.
  intros Hinv Hred.
  destruct (ReduceTransitively_spec d Hinv) as (d'' & Hred' & Hinv' & Hv & Hvv & _ & Hreach).
  rewrite Hred in Hred'. injection Hred' as <-.
  assert (saneID d' id = saneID d id) as Hsane by (unfold saneID; by rewrite Hvv).
  destruct (saneID d id) as [e|] eqn:Hs.
  { unfold GetDescendants. by rewrite Hsane, Hs. }
  destruct (GetDescendants_value d id Hinv Hs) as (d1 & D & -> & HD).
  destruct (GetDescendants_value d' id Hinv' Hsane) as (d1' & D' & -> & HD').
  assert (D' = D) as ->.
  { apply set_eq. intros x. rewrite HD, HD', Hreach.
    unfold key_of, value_of. by rewrite Hvv. }
  simpl. by rewrite (ids_of_keys_ext d' d D).
Qed.

End reduce_queries.

Section id_graph.
Context {K T : Type} `{Countable K} {E : Env K T} {EOk : EnvOk E}.
Implicit Types (d : GenericDAG K T).

Lemma elem_of_dom_ids_of_keys d (ks : gset K) id :
  id ∈ dom (ids_of_keys d ks) ↔ ∃ k, k ∈ ks ∧ id_of d k = id.
Proof.
  rewrite elem_of_dom. split.
  - intros [val (k & ? & ? & _)%ids_of_keys_lookup]. eauto.
  - intros (k & ? & ?). exists (value_of d id). apply ids_of_keys_lookup. eauto.
Qed.

(** An id-level edge is a key-level edge between the keys of live ids. *)
Lemma children_of_spec d (a b : string) :
  dag_invariant d →
  b ∈ children_of d a ↔
  ∃ ka kb, vertices d !! ka = Some a ∧ vertices d !! kb = Some b ∧ edge d ka kb.
Proof.
  intros Hinv. unfold children_of, getChildren. split.
  - destruct (saneID d a) eqn:Hsane; simpl; [by rewrite dom_empty_L, elem_of_empty|].
    intros (k & Hk & Hid)%elem_of_dom_ids_of_keys.
    destruct (key_of_live d a (inv_indices d Hinv) Hsane) as (Hka & _).
    destruct (inv_edges_live d Hinv _ _ Hk) as (_ & idb & _ & Hkb & _).
    exists (key_of d a), k. split_and!; [done| |done].
    unfold id_of in Hid. rewrite Hkb in Hid. simpl in Hid. by subst.
  - intros (ka & kb & Hka & Hkb & Hedge).
    destruct (inv_edges_live d Hinv _ _ Hedge) as (ida & idb & Hka' & Hkb' & Hane & _).
    assert (ida = a) as -> by congruence.
    destruct (inv_indices d Hinv) as [_ Hkeys].
    destruct (Hkeys ka a Hka) as (v & Hv & Hh).
    assert (saneID d a = None) as -> by (apply saneID_None; split; [done|by eexists]).
    simpl. apply elem_of_dom_ids_of_keys. exists kb. split.
    + unfold key_of, value_of. rewrite Hv. simpl. by rewrite Hh.
    + unfold id_of. by rewrite Hkb.
Qed.

Lemma parents_of_spec d (a b : string) :
  dag_invariant d →
  a ∈ parents_of d b ↔
  ∃ ka kb, vertices d !! ka = Some a ∧ vertices d !! kb = Some b ∧ edge d ka kb.
Proof.
  intros Hinv. unfold parents_of, GetParents. split.
  - destruct (saneID d b) eqn:Hsane; simpl; [by rewrite dom_empty_L, elem_of_empty|].
    intros (k & Hk & Hid)%elem_of_dom_ids_of_keys.
    apply (inv_symmetric d Hinv) in Hk.
    destruct (key_of_live d b (inv_indices d Hinv) Hsane) as (Hkb & _).
    destruct (inv_edges_live d Hinv _ _ Hk) as (ida & _ & Hka & _).
    exists k, (key_of d b). split_and!; [|done..].
    unfold id_of in Hid. rewrite Hka in Hid. simpl in Hid. by subst.
  - intros (ka & kb & Hka & Hkb & Hedge).
    destruct (inv_edges_live d Hinv _ _ Hedge) as (ida & idb & Hka' & Hkb' & _ & Hbne).
    assert (idb = b) as -> by congruence.
    destruct (inv_indices d Hinv) as [_ Hkeys].
    destruct (Hkeys kb b Hkb) as (v & Hv & Hh).
    assert (saneID d b = None) as -> by (apply saneID_None; split; [done|by eexists]).
    simpl. apply elem_of_dom_ids_of_keys. exists ka. split.
    + unfold key_of, value_of. rewrite Hv. simpl. rewrite Hh.
      by apply (inv_symmetric d Hinv).
    + unfold id_of. by rewrite Hka.
Qed.

Lemma parents_children d (a b : string) :
  dag_invariant d → a ∈ parents_of d b ↔ b ∈ children_of d a.
Proof. intros Hinv. by rewrite parents_of_spec, children_of_spec. Qed.

Lemma vertices_live d (k : K) id :
  dag_invariant d → vertices d !! k = Some id → live d id.
Proof.
  intros Hinv Hk. destruct (inv_indices d Hinv) as [_ Hkeys].
  destruct (Hkeys k id Hk) as (v & Hv & _). by exists v.
Qed.

Lemma children_of_live d (a b : string) :
  dag_invariant d → b ∈ children_of d a → live d a ∧ live d b.
Proof.
  intros Hinv (ka & kb & Hka & Hkb & _)%children_of_spec; [|done].
  split; by eapply vertices_live.
Qed.

(** The roots are the live ids without parents. *)
Lemma roots_spec d (r : string) :
  dag_invariant d → r ∈ dom (getRoots d) ↔ live d r ∧ parents_of d r = ∅.
Proof.
  intros Hinv. rewrite elem_of_dom. split.
  - intros [val (k & Hk & Hroot & Hid & _)%getRoots_lookup].
    apply elem_of_dom in Hk as [id Hk]. unfold id_of in Hid. rewrite Hk in Hid.
    simpl in Hid. subst id. split; [by eapply vertices_live|].
    apply set_eq. intros a. rewrite elem_of_empty. split; [|done].
    intros (ka & kb & Hka & Hkb & Hedge)%parents_of_spec; [|done].
    apply no_relatives_true in Hroot.
    destruct (inv_indices d Hinv) as [Hids Hkeys].
    destruct (Hkeys k r Hk) as (v & Hv & Hh). destruct (Hkeys kb r Hkb) as (v' & Hv' & Hh').
    assert (kb = k) as -> by congruence.
    apply (inv_symmetric d Hinv) in Hedge. rewrite Hroot in Hedge. set_solver.
  - intros [[v Hv] Hnone]. exists (value_of d r). apply getRoots_lookup.
    destruct (inv_indices d Hinv) as [Hids _]. specialize (Hids r v Hv).
    exists (hashVertex v). split_and!.
    + apply elem_of_dom. by eexists.
    + destruct (no_relatives (inboundEdge d) (hashVertex v)) eqn:Hroot; [done|].
      apply no_relatives_false in Hroot as [p Hp]. exfalso.
      apply (inv_symmetric d Hinv) in Hp.
      destruct (inv_edges_live d Hinv _ _ Hp) as (ida & idb & Hka & Hkb & _).
      assert (ida ∈ parents_of d r) as Hin.
      { apply parents_of_spec; [done|]. exists p, (hashVertex v). split_and!; [done| |done].
        congruence. }
      rewrite Hnone in Hin. set_solver.
    + unfold id_of. by rewrite Hids.
    + done.
Qed.

(** The parents of an id come before it in a well-founded order. *)
Lemma parents_wf d (u : string) :
  dag_invariant d → Acc (λ p u, p ∈ parents_of d u) u.
Proof.
  intros Hinv.
  assert (∀ k, Acc (reach d) k → ∀ u, vertices d !! k = Some u →
               Acc (λ p u, p ∈ parents_of d u) u) as Hacc.
  { intros k Hk. induction Hk as [k _ IH]. intros u' Hu. constructor.
    intros p (ka & kb & Hka & Hkb & Hedge)%parents_of_spec; [|done].
    destruct (inv_indices d Hinv) as [_ Hkeys].
    destruct (Hkeys k u' Hu) as (v & Hv & Hh). destruct (Hkeys kb u' Hkb) as (v' & Hv' & Hh').
    assert (kb = k) as -> by congruence.
    apply (IH ka); [by apply tc_once|done]. }
  constructor. intros p Hp. pose proof Hp as Hp'.
  apply parents_of_spec in Hp as (ka & kb & Hka & Hkb & Hedge); [|done].
  eapply Hacc; [|exact Hka]. apply acyclic_wf_up, Hinv.
Qed.

End id_graph.

Section topo.
Context {K T : Type} `{Countable K} {E : Env K T} {EOk : EnvOk E}.
Implicit Types (d : GenericDAG K T) (V : gset string) (q tr : list string).

Lemma hasUnvisitedParent_true V (l : list string) :
  hasUnvisitedParent V l = true ↔ ∃ p, p ∈ l ∧ p ∉ V.
Proof.
  unfold hasUnvisitedParent. rewrite existsb_exists. split.
  - intros (p & Hp%list_elem_of_In & Hn%bool_decide_eq_true). eauto.
  - intros (p & Hp & Hn). exists p. split; [by apply list_elem_of_In|].
    by apply bool_decide_eq_true.
Qed.

Lemma hasUnvisitedParent_false V (l : list string) :
  hasUnvisitedParent V l = false ↔ ∀ p, p ∈ l → p ∈ V.
Proof.
  rewrite <-not_true_iff_false, hasUnvisitedParent_true. split.
  - intros Hn p Hp. destruct (decide (p ∈ V)); [done|]. exfalso. eauto.
  - intros Hall (p & Hp & Hn). by apply Hn, Hall.
Qed.

Lemma ready_true d V id :
  ready d V id = true ↔ (id ∉ V) ∧ ∀ p, p ∈ parents_of d id → p ∈ V.
Proof.
  unfold ready. rewrite andb_true_iff, bool_decide_eq_true, negb_true_iff,
    hasUnvisitedParent_false. by setoid_rewrite elem_of_ids_order.
Qed.

Lemma first_ready_le d V q : first_ready d V q ≤ length q.
Proof. induction q as [|x q IH]; simpl; [done|]. destruct (ready d V x); lia. Qed.

Lemma first_ready_app d V q l :
  (∃ w, w ∈ q ∧ ready d V w = true) → first_ready d V (q ++ l) = first_ready d V q.
Proof.
  induction q as [|x q IH]; intros (w & Hw & Hr); [by apply elem_of_nil in Hw|].
  simpl. destruct (ready d V x) eqn:Hx; [done|]. f_equal. apply IH.
  apply elem_of_cons in Hw as [->|Hw]; [congruence|eauto].
Qed.

Lemma before_app tr tr' (a b : string) : before tr a b → before (tr ++ tr') a b.
Proof.
  intros (i & j & Hij & Hi & Hj). exists i, j.
  split_and!; [done|by apply lookup_app_l_Some..].
Qed.

Lemma before_snoc tr (a b : string) : a ∈ tr → before (tr ++ [b]) a b.
Proof.
  intros (i & Hi)%list_elem_of_lookup. exists i, (length tr). split_and!.
  - by eapply lookup_lt_Some.
  - by apply lookup_app_l_Some.
  - by rewrite lookup_app_r, Nat.sub_diag.
Qed.

(** While a live id is unvisited, some queued id is ready. *)
Lemma walk_progress d q V tr :
  dag_invariant d → walk_inv d q V tr →
  (∃ u, live d u ∧ u ∉ V) → ∃ w, w ∈ q ∧ ready d V w = true.
Proof.
  intros Hinv Hwalk (u & Hu & HuV). revert Hu HuV.
  induction (parents_wf d u Hinv) as [u _ IH]. intros Hu HuV.
  destruct (hasUnvisitedParent V (ids_order (parents_of d u))) eqn:Hpar.
  - apply hasUnvisitedParent_true in Hpar as (p & Hp%elem_of_ids_order & HpV).
    apply (IH p); [done| |done].
    apply parents_children in Hp; [|done]. by apply children_of_live in Hp as [? _].
  - assert (∀ p, p ∈ parents_of d u → p ∈ V) as Hall.
    { intros p Hp. eapply hasUnvisitedParent_false; [exact Hpar|]. by apply elem_of_ids_order. }
    exists u. split; [|by apply ready_true].
    destruct (set_choose_or_empty (parents_of d u)) as [[p Hp]|Hnone].
    + destruct (wi_children d q V tr Hwalk p u) as [?|?]; [by apply Hall| |done..].
      by apply parents_children.
    + destruct (wi_roots d q V tr Hwalk u) as [?|?]; [|done..].
      apply roots_spec; [done|]. split; [done|]. by unfold_leibniz.
Qed.

Lemma size_unvisited_insert d V id :
  live d id → id ∉ V →
  S (size (dom (vertexValues d) ∖ ({[id]} ∪ V))) = size (dom (vertexValues d) ∖ V).
Proof.
  intros Hlive HV.
  assert (dom (vertexValues d) ∖ V = {[id]} ∪ (dom (vertexValues d) ∖ ({[id]} ∪ V))) as ->.
  { apply set_eq. intros x. rewrite !elem_of_union, !elem_of_difference, elem_of_singleton,
      elem_of_union, elem_of_singleton.
    split.
    - intros [? ?]. destruct (decide (x = id)); [by left|right]. tauto.
    - intros [->|[? ?]]; [|tauto]. split; [|done]. by apply elem_of_dom. }
  rewrite (size_union (C := gset string) {[id]} (dom (vertexValues d) ∖ ({[id]} ∪ V)))
    by set_solver.
  by rewrite size_singleton.
Qed.

Lemma length_expand_le d (l : list string) id :
  dag_invariant d → NoDup l → (∀ c, c ∈ l → c ∈ children_of d id) →
  length l ≤ size (dom (vertexValues d)).
Proof.
  intros Hinv Hnd Hsub.
  assert (l ⊆+ elements (dom (vertexValues d))) as Hle.
  { apply NoDup_submseteq; [done|]. intros c Hc. apply elem_of_elements, elem_of_dom.
    by apply Hsub, children_of_live in Hc as [_ ?]. }
  by apply submseteq_length in Hle.
Qed.

End topo.

Section topo_loop.
Context {K T : Type} `{Countable K} {E : Env K T} {EOk : EnvOk E}.
Implicit Types (d : GenericDAG K T) (V : gset string) (q tr : list string).

Lemma walk_inv_done d V tr :
  dag_invariant d → walk_inv d [] V tr → topological_order d tr.
Proof.
  intros Hinv Hwalk.
  assert (∀ id, live d id → id ∈ tr) as Hall.
  { intros id Hlive. apply (wi_set d [] V tr Hwalk).
    destruct (decide (id ∈ V)) as [|Hn]; [done|]. exfalso.
    destruct (walk_progress d [] V tr Hinv Hwalk) as (w & Hw & _); [by exists id|].
    by apply elem_of_nil in Hw. }
  split_and!.
  - apply (wi_nodup d [] V tr Hwalk).
  - intros id. split; [|apply Hall].
    intros Hid. by apply (wi_live d [] V tr Hwalk), (wi_set d [] V tr Hwalk).
  - intros a b Hab. apply (wi_parents d [] V tr Hwalk).
    + apply Hall. by apply children_of_live in Hab as [_ ?].
    + by apply parents_children.
Qed.

Lemma walk_inv_skip d id q V tr :
  id ∈ V → walk_inv d (id :: q) V tr → walk_inv d q V tr.
Proof.
  intros HV [Hset Hnd Hlive Hpar Hroots Hch Hq]. split; try done.
  - intros r Hr. destruct (Hroots r Hr) as [?|[->|?]%elem_of_cons]; auto.
  - intros v c Hv Hc. destruct (Hch v c Hv Hc) as [?|[->|?]%elem_of_cons]; auto.
  - intros x Hx. apply Hq. by apply list_elem_of_further.
Qed.

Lemma walk_inv_rotate d id q V tr :
  walk_inv d (id :: q) V tr → walk_inv d (q ++ [id]) V tr.
Proof.
  intros [Hset Hnd Hlive Hpar Hroots Hch Hq]. split; try done.
  - intros r Hr. destruct (Hroots r Hr) as [?|[->|?]%elem_of_cons]; [by left|right..];
      apply elem_of_app; [right; apply list_elem_of_here|by left].
  - intros v c Hv Hc. destruct (Hch v c Hv Hc) as [?|[->|?]%elem_of_cons]; [by left|right..];
      apply elem_of_app; [right; apply list_elem_of_here|by left].
  - intros x [Hx| ->%list_elem_of_singleton]%elem_of_app; apply Hq;
      [by apply list_elem_of_further|apply list_elem_of_here].
Qed.

Lemma walk_inv_visit d expand id q V tr :
  dag_invariant d → expands_children d expand →
  id ∉ V → (∀ p, p ∈ parents_of d id → p ∈ V) →
  walk_inv d (id :: q) V tr →
  walk_inv d (q ++ expand ({[id]} ∪ V) id) ({[id]} ∪ V) (tr ++ [id]).
Proof.
  intros Hinv Hexp HV Hready [Hset Hnd Hlive Hpar Hroots Hch Hq].
  destruct (Hexp ({[id]} ∪ V) id) as (Hend & Hesub & Heall).
  assert (live d id) as Hid by apply Hq, list_elem_of_here.
  split.
  - intros x. rewrite elem_of_union, elem_of_singleton, elem_of_app, list_elem_of_singleton,
      Hset. tauto.
  - apply NoDup_app. split_and!; [done| |apply NoDup_singleton].
    intros x Hx ->%list_elem_of_singleton. by apply HV, Hset.
  - intros x [->%elem_of_singleton|Hx]%elem_of_union; [done|by apply Hlive].
  - intros a b [Hb| ->%list_elem_of_singleton]%elem_of_app Ha.
    + by apply before_app, Hpar.
    + by apply before_snoc, Hset, Hready.
  - intros r Hr. destruct (Hroots r Hr) as [?|[->|?]%elem_of_cons].
    + left. set_solver.
    + left. set_solver.
    + right. apply elem_of_app. by left.
  - intros v c [->%elem_of_singleton|Hv]%elem_of_union Hc.
    + destruct (decide (c ∈ {[id]} ∪ V)) as [|Hn]; [by left|].
      right. apply elem_of_app. right. by apply Heall.
    + destruct (Hch v c Hv Hc) as [?|[->|?]%elem_of_cons].
      * left. set_solver.
      * left. set_solver.
      * right. apply elem_of_app. by left.
  - intros x [Hx|Hx]%elem_of_app.
    + apply Hq. by apply list_elem_of_further.
    + by apply Hesub, children_of_live in Hx as [_ ?].
Qed.

(** The loop returns, and what it returns completes the visits made so far
    to a topological order of the graph. *)
Lemma topo_loop_correct d expand B n :
  dag_invariant d → expands_children d expand →
  ∀ q V tr,
    walk_inv d q V tr →
    walk_potential d q V ≤ B →
    walk_potential d q V * S B + first_ready d V q < n →
    ∃ ids, topo_loop expand n d q V = Some ids ∧ topological_order d (tr ++ ids).
Proof.
  intros Hinv Hexp. induction n as [|n IH]; intros q V tr Hwalk HB Hn; [lia|].
  destruct q as [|id q]; simpl.
  { exists []. rewrite app_nil_r. split; [done|]. by eapply walk_inv_done. }
  unfold walk_potential in HB, Hn. simpl in HB, Hn.
  set (N := size (dom (vertexValues d))) in *.
  set (U := size (dom (vertexValues d) ∖ V)) in *.
  destruct (decide (id ∈ V)) as [HV|HV].
  { apply (IH q V tr); [by eapply walk_inv_skip| |]; unfold walk_potential; fold N U.
    - lia.
    - pose proof (first_ready_le d V q). nia. }
  assert (live d id) as Hid by apply (wi_queue d _ V tr Hwalk), list_elem_of_here.
  destruct (hasUnvisitedParent V (ids_order (parents_of d id))) eqn:Hpar.
  { assert (ready d V id = false) as Hnr.
    { unfold ready. rewrite Hpar. by rewrite andb_false_r. }
    rewrite Hnr in Hn.
    destruct (walk_progress d (id :: q) V tr Hinv Hwalk) as (w & Hw & Hr); [by exists id|].
    apply elem_of_cons in Hw as [->|Hw]; [congruence|].
    apply (IH (q ++ [id]) V tr); [by apply walk_inv_rotate| |];
      unfold walk_potential; fold N U; rewrite length_app; simpl.
    - lia.
    - rewrite first_ready_app by eauto. lia. }
  assert (∀ p, p ∈ parents_of d id → p ∈ V) as Hready.
  { intros p Hp. eapply hasUnvisitedParent_false; [exact Hpar|]. by apply elem_of_ids_order. }
  destruct (Hexp ({[id]} ∪ V) id) as (Hend & Hesub & _).
  pose proof (length_expand_le d _ id Hinv Hend Hesub) as Hlen. fold N in Hlen.
  pose proof (size_unvisited_insert d V id Hid HV) as Hsize. fold U in Hsize.
  set (U' := size (dom (vertexValues d) ∖ ({[id]} ∪ V))) in *.
  destruct (IH (q ++ expand ({[id]} ∪ V) id) ({[id]} ∪ V) (tr ++ [id]))
    as (ids & -> & Htopo).
  - by apply walk_inv_visit.
  - unfold walk_potential. fold N U'. rewrite length_app. nia.
  - unfold walk_potential. fold N U'. rewrite length_app.
    pose proof (first_ready_le d ({[id]} ∪ V) (q ++ expand ({[id]} ∪ V) id)) as Hfr.
    rewrite length_app in Hfr. nia.
  - exists (id :: ids). split; [done|]. by rewrite <-app_assoc in Htopo.
Qed.

End topo_loop.

Section walkers.
Context {K T : Type} `{Countable K} {E : Env K T} {EOk : EnvOk E}.
Implicit Types (d : GenericDAG K T) (V : gset string) (q : list string).

Lemma topo_loop_mono expand d n m q V ids :
  topo_loop expand n d q V = Some ids → n ≤ m → topo_loop expand m d q V = Some ids.
Proof.
  revert m q V ids. induction n as [|n IH]; intros m q V ids Hrun Hle; [done|].
  destruct m as [|m]; [lia|]. simpl in *. destruct q as [|id q]; [done|].
  destruct (decide (id ∈ V)); [apply IH; [done|lia]|].
  destruct (hasUnvisitedParent V _); [apply IH; [done|lia]|].
  destruct (topo_loop expand n d _ _) as [r|] eqn:Hr; [|done].
  by rewrite (IH m _ _ r Hr) by lia.
Qed.

Lemma enqueue_ids_filter V (ids q : list string) :
  enqueue_ids V ids q = q ++ filter (λ id, id ∉ V) ids.
Proof.
  unfold enqueue_ids. revert q. induction ids as [|id ids IH]; intros q; cbn [foldl].
  { by rewrite app_nil_r. }
  rewrite IH. destruct (decide (id ∈ V)).
  - by rewrite filter_cons_False by auto.
  - by rewrite filter_cons_True, <-app_assoc by done.
Qed.

Lemma GenericOrderedWalk_loop_topo d n q V (tr : list (T * string)) :
  GenericOrderedWalk_loop n d q V tr
  = (λ ids, tr ++ (visit_of d <$> ids)) <$> topo_loop (expand_generic d) n d q V.
Proof.
  revert q V tr. induction n as [|n IH]; intros q V tr; [done|]. simpl.
  destruct q as [|id q]; simpl; [by rewrite app_nil_r|].
  destruct (decide (id ∈ V)); [apply IH|].
  fold (parents_of d id). destruct (hasUnvisitedParent V _); [apply IH|].
  rewrite IH, enqueue_ids_filter. fold (expand_generic d ({[id]} ∪ V) id).
  destruct (topo_loop _ n d _ _); simpl; [|done]. by rewrite <-app_assoc.
Qed.

Lemma getChildren_value d id c (v : T) :
  (getChildren d id).1 !! c = Some v → v = value_of d c.
Proof.
  unfold getChildren. destruct (saneID d id); simpl.
  - by rewrite lookup_empty.
  - by intros (k & _ & _ & ->)%ids_of_keys_lookup.
Qed.

Lemma enqueue_all_values d (vertices : gmap string T) (ids : list string) q :
  (∀ c v, vertices !! c = Some v → v = value_of d c) →
  (∀ c, c ∈ ids → c ∈ dom vertices) →
  enqueue_all vertices ids ((λ id, (id, value_of d id)) <$> q)
  = (λ id, (id, value_of d id)) <$> (q ++ ids).
Proof.
  intros Hval. unfold enqueue_all. revert q.
  induction ids as [|id ids IH]; intros q Hdom; cbn [foldl].
  { by rewrite app_nil_r. }
  assert (id ∈ dom vertices) as [v Hv]%elem_of_dom by apply Hdom, list_elem_of_here.
  rewrite Hv. simpl. rewrite (Hval id v Hv).
  replace (((λ id, (id, value_of d id)) <$> q) ++ [(id, value_of d id)])
    with ((λ id, (id, value_of d id)) <$> (q ++ [id])) by (by rewrite fmap_app).
  rewrite IH; [by rewrite <-app_assoc|].
  intros c Hc. by apply Hdom, list_elem_of_further.
Qed.

Lemma elem_of_vertexIDs (vertices : gmap string T) c :
  c ∈ vertexIDs vertices ↔ c ∈ dom vertices.
Proof. unfold vertexIDs. by rewrite merge_sort_Permutation, elem_of_ids_order. Qed.

Lemma NoDup_vertexIDs (vertices : gmap string T) : NoDup (vertexIDs vertices).
Proof. unfold vertexIDs. rewrite merge_sort_Permutation. apply NoDup_ids_order. Qed.

Lemma OrderedWalk_loop_topo d n q V (tr : list (T * string)) :
  OrderedWalk_loop record_visit n d ((λ id, (id, value_of d id)) <$> q) V tr
  = (λ ids, tr ++ (visit_of d <$> ids)) <$> topo_loop (expand_legacy d) n d q V.
Proof.
  revert q V tr. induction n as [|n IH]; intros q V tr; [done|]. simpl.
  destruct q as [|id q]; simpl; [by rewrite app_nil_r|].
  destruct (decide (id ∈ V)); [apply IH|].
  fold (parents_of d id). destruct (hasUnvisitedParent V _).
  { rewrite <-IH. by rewrite fmap_app. }
  rewrite enqueue_all_values.
  - rewrite IH. fold (expand_legacy d ({[id]} ∪ V) id).
    destruct (topo_loop _ n d _ _); simpl; [|done].
    unfold record_visit. simpl. by rewrite <-app_assoc.
  - apply getChildren_value.
  - intros c. by rewrite elem_of_vertexIDs.
Qed.

Lemma expand_generic_children d : expands_children d (expand_generic d).
Proof.
  intros V id. unfold expand_generic, vertexIDsGeneric. split_and!.
  - apply NoDup_filter, NoDup_ids_order.
  - intros c [_ Hc]%list_elem_of_filter. by apply elem_of_ids_order in Hc.
  - intros c Hc HV. apply list_elem_of_filter. split; [done|]. by apply elem_of_ids_order.
Qed.

Lemma expand_legacy_children d : expands_children d (expand_legacy d).
Proof.
  intros V id. unfold expand_legacy. split_and!.
  - apply NoDup_vertexIDs.
  - intros c. by rewrite elem_of_vertexIDs.
  - intros c Hc _. by apply elem_of_vertexIDs.
Qed.

Lemma walk_inv_start d (roots : list string) :
  dag_invariant d → (∀ r, r ∈ roots ↔ r ∈ dom (getRoots d)) →
  walk_inv d roots ∅ [].
Proof.
  intros Hinv Hroots. split.
  - intros id. by rewrite elem_of_empty, elem_of_nil.
  - apply NoDup_nil_2.
  - intros id []%elem_of_empty.
  - intros a b []%elem_of_nil.
  - intros r Hr. right. by apply Hroots.
  - intros v c []%elem_of_empty.
  - intros x Hx%Hroots. by apply roots_spec in Hx as [? _].
Qed.

Lemma length_live_le d (l : list string) :
  NoDup l → (∀ c, c ∈ l → live d c) → length l ≤ size (dom (vertexValues d)).
Proof.
  intros Hnd Hsub.
  assert (l ⊆+ elements (dom (vertexValues d))) as Hle.
  { apply NoDup_submseteq; [done|]. intros c Hc. apply elem_of_elements, elem_of_dom.
    by apply Hsub. }
  by apply submseteq_length in Hle.
Qed.

(** From the roots, with the fuel of the model or more, the loop returns a
    topological order. *)
Lemma topo_loop_roots d expand (roots : list string) n :
  dag_invariant d → expands_children d expand →
  NoDup roots → (∀ r, r ∈ roots ↔ r ∈ dom (getRoots d)) →
  OrderedWalk_fuel d ≤ n →
  ∃ ids, topo_loop expand n d roots ∅ = Some ids ∧ topological_order d ids.
Proof.
  intros Hinv Hexp Hnd Hroots Hn.
  pose proof (walk_inv_start d roots Hinv Hroots) as Hwalk.
  assert (length roots ≤ size (dom (vertexValues d))) as Hlen.
  { apply length_live_le; [done|]. apply (wi_queue d roots ∅ [] Hwalk). }
  assert (size (dom (vertexValues d) ∖ ∅) ≤ size (dom (vertexValues d))) as Hsize.
  { apply subseteq_size. set_solver. }
  unfold OrderedWalk_fuel in Hn. cbv zeta in Hn.
  set (N := size (dom (vertexValues d))) in *.
  apply (topo_loop_correct d expand (N + N * N) n Hinv Hexp roots ∅ [] Hwalk).
  - unfold walk_potential. fold N. nia.
  - pose proof (first_ready_le d ∅ roots). unfold walk_potential. fold N. nia.
Qed.

Lemma GenericOrderedWalk_fuel_topo d n :
  GenericOrderedWalk_fuel n d
  = (λ ids : list string, visit_of d <$> ids) <$> topo_loop (expand_generic d) n d (vertexIDsGeneric (getRoots d)) ∅.
Proof. unfold GenericOrderedWalk_fuel. by rewrite GenericOrderedWalk_loop_topo. Qed.

Lemma OrderedWalk_fuel_n_topo d n :
  OrderedWalk_fuel_n record_visit n d []
  = (λ ids : list string, visit_of d <$> ids) <$> topo_loop (expand_legacy d) n d (vertexIDs (getRoots d)) ∅.
Proof.
  unfold OrderedWalk_fuel_n. cbv zeta.
  rewrite (enqueue_all_values d (getRoots d) (vertexIDs (getRoots d)) []).
  - by rewrite OrderedWalk_loop_topo.
  - by intros c v (k & _ & _ & _ & ->)%getRoots_lookup.
  - intros c. by rewrite elem_of_vertexIDs.
Qed.

Lemma generic_roots_topo d n :
  dag_invariant d → OrderedWalk_fuel d ≤ n →
  ∃ ids, topo_loop (expand_generic d) n d (vertexIDsGeneric (getRoots d)) ∅ = Some ids ∧
         topological_order d ids.
Proof.
  intros Hinv Hn. apply topo_loop_roots; try done.
  - apply expand_generic_children.
  - apply NoDup_ids_order.
  - intros r. apply elem_of_ids_order.
Qed.

Lemma legacy_roots_topo d n :
  dag_invariant d → OrderedWalk_fuel d ≤ n →
  ∃ ids, topo_loop (expand_legacy d) n d (vertexIDs (getRoots d)) ∅ = Some ids ∧
         topological_order d ids.
Proof.
  intros Hinv Hn. apply topo_loop_roots; try done.
  - apply expand_legacy_children.
  - apply NoDup_vertexIDs.
  - intros r. apply elem_of_vertexIDs.
Qed.

Lemma GenericOrderedWalk_correct d :
  dag_invariant d →
  ∃ ids, GenericOrderedWalk d = Some (visit_of d <$> ids) ∧ topological_order d ids.
Proof.
  intros Hinv. unfold GenericOrderedWalk. rewrite GenericOrderedWalk_fuel_topo.
  destruct (generic_roots_topo d (OrderedWalk_fuel d) Hinv) as (ids & -> & Htopo); [done|].
  by exists ids.
Qed.

Lemma OrderedWalk_correct d :
  dag_invariant d →
  ∃ ids, OrderedWalk d = Some (visit_of d <$> ids) ∧ topological_order d ids.
Proof.
  intros Hinv. unfold OrderedWalk. rewrite OrderedWalk_fuel_n_topo.
  destruct (legacy_roots_topo d (OrderedWalk_fuel d) Hinv) as (ids & -> & Htopo); [done|].
  by exists ids.
Qed.

(** More fuel than the bound changes nothing. *)
Lemma GenericOrderedWalk_fuel_stable d n :
  dag_invariant d → OrderedWalk_fuel d ≤ n →
  GenericOrderedWalk_fuel n d = GenericOrderedWalk d.
Proof.
  intros Hinv Hn. unfold GenericOrderedWalk. rewrite !GenericOrderedWalk_fuel_topo.
  destruct (generic_roots_topo d (OrderedWalk_fuel d) Hinv) as (ids & Hrun & _); [done|].
  by rewrite Hrun, (topo_loop_mono _ _ _ n _ _ _ Hrun Hn).
Qed.

Lemma OrderedWalk_fuel_stable d n :
  dag_invariant d → OrderedWalk_fuel d ≤ n →
  OrderedWalk_fuel_n record_visit n d [] = OrderedWalk d.
Proof.
  intros Hinv Hn. unfold OrderedWalk. rewrite !OrderedWalk_fuel_n_topo.
  destruct (legacy_roots_topo d (OrderedWalk_fuel d) Hinv) as (ids & Hrun & _); [done|].
  by rewrite Hrun, (topo_loop_mono _ _ _ n _ _ _ Hrun Hn).
Qed.

Lemma IsEdge_children d (a b : string) :
  dag_invariant d → IsEdge d a b = (true, None) → b ∈ children_of d a.
Proof.
  intros Hinv. unfold IsEdge.
  destruct (saneID d a) eqn:Ha; [done|]. destruct (saneID d b) eqn:Hb; [done|].
  case_decide; [done|]. intros [= [Hout _]%isEdge_true].
  destruct (key_of_live d a (inv_indices d Hinv) Ha) as (Hka & _).
  destruct (key_of_live d b (inv_indices d Hinv) Hb) as (Hkb & _).
  apply children_of_spec; [done|]. by exists (key_of d a), (key_of d b).
Qed.

End walkers.
(** ** The order of the ids the legacy walkers take

    [sort.Strings] leaves one result for every order in which the map was
    ranged over. *)

Lemma string_le_lt_eq (a b : string) :
  string_le a b ↔ OrderedTypeEx.String_as_OT.lt a b ∨ a = b.
Proof.
  unfold string_le, String.leb.
  rewrite <-OrderedTypeEx.String_as_OT.cmp_lt, <-OrderedTypeEx.String_as_OT.cmp_eq.
  unfold OrderedTypeEx.String_as_OT.cmp. destruct (String.compare a b); naive_solver.
Qed.

Lemma string_le_trans : Transitive string_le.
Proof.
  intros a b c. rewrite !string_le_lt_eq. intros [Hab | ->] [Hbc | ->]; auto.
  left. by eapply OrderedTypeEx.String_as_OT.lt_trans.
Qed.

Lemma string_le_antisym : AntiSymm (=) string_le.
Proof. intros a b Hab Hba. by apply String.leb_antisym. Qed.

Lemma string_le_total : Total string_le.
Proof. intros a b. apply String.leb_total. Qed.

Lemma merge_sort_string_le_unique (l1 l2 : list string) :
  l1 ≡ₚ l2 → merge_sort string_le l1 = merge_sort string_le l2.
Proof.
  intros Hperm.
  apply (@Sorted_unique _ string_le string_le_trans string_le_antisym).
  - apply (@Sorted_merge_sort _ string_le _ string_le_total).
  - apply (@Sorted_merge_sort _ string_le _ string_le_total).
  - by rewrite !merge_sort_Permutation.
Qed.

Section order_independence.
Context {K T : Type} `{Countable K}.
Context (h : T → K) (z : T).
Context (ko1 ko2 : gset K → list K) (io1 io2 : gset string → list string).
Context (EOk1 : EnvOk (mkEnv h z ko1 io1)) (EOk2 : EnvOk (mkEnv h z ko2 io2)).
Implicit Types (d : GenericDAG K T).

Lemma vertexIDs_order_independent (vertices : gmap string T) :
  vertexIDs (E := mkEnv h z ko1 io1) vertices = vertexIDs (E := mkEnv h z ko2 io2) vertices.
Proof.
  unfold vertexIDs. apply merge_sort_string_le_unique.
  by rewrite (ids_order_perm (E := mkEnv h z ko1 io1)), (ids_order_perm (E := mkEnv h z ko2 io2)).
Qed.

Lemma getRoots_order_independent d : getRoots (E := mkEnv h z ko1 io1) d = getRoots (E := mkEnv h z ko2 io2) d.
Proof.
  apply map_eq. intros id. apply option_eq. intros val.
  by rewrite (getRoots_lookup (E := mkEnv h z ko1 io1)), (getRoots_lookup (E := mkEnv h z ko2 io2)).
Qed.

Lemma getChildren_order_independent d id :
  getChildren (E := mkEnv h z ko1 io1) d id = getChildren (E := mkEnv h z ko2 io2) d id.
Proof.
  unfold getChildren. destruct (saneID d id); [done|]. f_equal.
  apply map_eq. intros c. apply option_eq. intros val.
  by rewrite (ids_of_keys_lookup (E := mkEnv h z ko1 io1)), (ids_of_keys_lookup (E := mkEnv h z ko2 io2)).
Qed.

Lemma DFSWalk_loop_order_independent {V : Type} (Visit : V → string * T → V) n d
    (stack : list (string * T)) (visited : gset string) (visitor : V) :
  DFSWalk_loop (E := mkEnv h z ko1 io1) Visit n d stack visited visitor
  = DFSWalk_loop (E := mkEnv h z ko2 io2) Visit n d stack visited visitor.
Proof.
  revert stack visited visitor. induction n as [|n IH]; intros stack visited visitor; [done|].
  simpl. destruct stack as [|sv stack]; [done|].
  unfold reversedVertexIDs.
  rewrite getChildren_order_independent, vertexIDs_order_independent.
  destruct (decide (sv.1 ∈ visited)); apply IH.
Qed.

(** The legacy [DFSWalk] does not depend on the order in which maps are
    ranged over. *)
Lemma DFSWalk_order_independent {V : Type} (Visit : V → string * T → V) n d (visitor : V) :
  DFSWalk (E := mkEnv h z ko1 io1) Visit n d visitor = DFSWalk (E := mkEnv h z ko2 io2) Visit n d visitor.
Proof.
  unfold DFSWalk, reversedVertexIDs.
  rewrite getRoots_order_independent, vertexIDs_order_independent.
  apply DFSWalk_loop_order_independent.
Qed.

End order_independence.

(** * The properties of the specification *)

Lemma sorted_env_ok : EnvOk sorted_env.
Proof.
  split; intros X; [done|]. cbn. unfold ids_sorted. apply merge_sort_Permutation.
Qed.

Lemma reversed_env_ok : EnvOk reversed_env.
Proof.
  split; intros X; [done|]. cbn. unfold ids_sorted.
  by rewrite reverse_Permutation, merge_sort_Permutation.
Qed.

(** Closed facts about the concrete graphs are decided by evaluation. *)
Ltac by_evaluation := apply (bool_decide_unpack _); vm_compute; exact I.

Lemma chain5_run : run_ops (E := sorted_env) chain5_ops NewGenericDAG = Some chain5.
Proof. by_evaluation. Qed.

Lemma triangle_run : run_ops (E := sorted_env) triangle_ops NewGenericDAG = Some triangle.
Proof. by_evaluation. Qed.

(** C1: for live, distinct ids without an edge between them, [AddEdge]
    returns the loop error, with whatever store, exactly when the source key
    is reachable from the destination key along outbound edges; and a call
    that returns an error returns the store it was given (the BFS runs before
    any mutation).  The first part holds on any store for non-empty ids, with
    reachability along at least one edge; on a store a client can reach it
    holds for all live ids, with reachability as such.  On the chain
    1→2→3→4→5, [AddEdge "5" "1"] returns the loop error and the chain. *)
Theorem AddEdge_loop_error_iff_reachable {K T : Type} `{Countable K}
    (E : Env K T) (EOk : EnvOk E) (d : GenericDAG K T) (srcID dstID : string) :
  live d srcID → live d dstID → srcID ≠ dstID →
  isEdge d (key_of d srcID) (key_of d dstID) = false →
  (srcID ≠ EmptyString → dstID ≠ EmptyString →
   ((∃ d', AddEdge srcID dstID d = Some (d', Some (EdgeLoopError srcID dstID))) ↔
    reach d (key_of d dstID) (key_of d srcID))) ∧
  (reachable d →
   ((∃ d', AddEdge srcID dstID d = Some (d', Some (EdgeLoopError srcID dstID))) ↔
    rtc (edge d) (key_of d dstID) (key_of d srcID))) ∧
  (∀ d' e, AddEdge srcID dstID d = Some (d', Some e) → d' = d) ∧
  AddEdge (E := sorted_env) "5" "1" chain5 = Some (chain5, Some (EdgeLoopError "5" "1")).
Proof.
  intros Hls Hlt Hne Hedge.
  assert (∀ d' e, AddEdge srcID dstID d = Some (d', Some e) → d' = d) as Hsame.
  { intros d' e. apply AddEdge_error. }
  split_and!.
  - intros Hs Ht.
    rewrite <-(AddEdge_loop_iff d srcID dstID) by (done || by apply saneID_None).
    split.
    + intros [d' Hrun]. by rewrite <-(Hsame d' _ Hrun) at 2.
    + intros Hrun. by exists d.
  - intros Hinv%reachable_invariant.
    rewrite <-(AddEdge_loop_iff_reachable d srcID dstID) by done.
    split.
    + intros [d' Hrun]. by rewrite <-(Hsame d' _ Hrun) at 2.
    + intros Hrun. by exists d.
  - exact Hsame.
  - by_evaluation.
Qed.

Lemma AddEdge_loop_error_iff_reachable_witness :
  ((∃ d', AddEdge (E := sorted_env) "5" "1" chain5
          = Some (d', Some (EdgeLoopError "5" "1"))) ↔
   rtc (edge chain5) "1" "5") ∧
  (∀ d' e, AddEdge (E := sorted_env) "5" "1" chain5 = Some (d', Some e) → d' = chain5).
Proof.
  assert (live chain5 "5") as H5 by (exists "5"%string; vm_compute; reflexivity).
  assert (live chain5 "1") as H1 by (exists "1"%string; vm_compute; reflexivity).
  assert ("5" ≠ "1")%string as Hne by discriminate.
  assert (isEdge chain5 (key_of (E := sorted_env) chain5 "5")
            (key_of (E := sorted_env) chain5 "1") = false) as Hedge
    by (vm_compute; reflexivity).
  destruct (AddEdge_loop_error_iff_reachable sorted_env sorted_env_ok chain5 "5" "1"
              H5 H1 Hne Hedge) as (_ & Hiff & Hsame & _).
  split; [|exact Hsame].
  apply Hiff. exists chain5_ops. exact chain5_run.
Defined.

(** C2: every finite sequence of operations on a new graph runs to its end,
    and in the store it leaves the two adjacency maps mirror each other: [b]
    is in [outboundEdge[a]] exactly when [a] is in [inboundEdge[b]].  The
    sequence may mix the mutations [AddVertex], [AddVertexByID], [AddEdge],
    [DeleteEdge], [DeleteVertex], [ReduceTransitively] with cache flushes and
    cache-filling queries. *)
Theorem adjacency_maps_symmetric {K T : Type} `{Countable K}
    (E : Env K T) (EOk : EnvOk E) (os : list op) :
  is_Some (run_ops os (NewGenericDAG : GenericDAG K T)) ∧
  ∀ d : GenericDAG K T, run_ops os NewGenericDAG = Some d →
    ∀ a b, b ∈ at_key (outboundEdge d) a ↔ a ∈ at_key (inboundEdge d) b.
Proof.
  split.
  - apply run_ops_total, NewGenericDAG_invariant.
  - intros d Hrun. eapply run_ops_symmetric; [|exact Hrun].
    apply (inv_symmetric _ NewGenericDAG_invariant).
Qed.

Lemma adjacency_maps_symmetric_witness :
  ("2" ∈ at_key (outboundEdge chain5) "1" ↔ "1" ∈ at_key (inboundEdge chain5) "2")%string.
Proof.
  exact (proj2 (adjacency_maps_symmetric sorted_env sorted_env_ok chain5_ops)
           chain5 chain5_run "1" "2")%string.
Defined.

Lemma chain5_queried_run :
  run_ops (E := sorted_env) chain5_queried_ops NewGenericDAG = Some chain5_queried.
Proof. by_evaluation. Qed.

(** C3: in every store that a sequence of public operations leaves, a
    populated entry [descendantsCache[k]] is exactly the set of keys
    reachable from [k] along outbound edges, [k] itself excluded, and a
    populated entry [ancestorsCache[k]] is exactly the set of keys from which
    [k] is reachable: the invalidation of [AddEdge], [DeleteEdge] and
    [DeleteVertex] (and the flush of [ReduceTransitively]) leaves no stale
    entry behind.  This holds for every key, live or not. *)
Theorem reachability_cache_correct {K T : Type} `{Countable K}
    (E : Env K T) (EOk : EnvOk E) (os : list op) (d : GenericDAG K T) :
  run_ops os NewGenericDAG = Some d →
  ∀ k : K,
    (∀ D, descendantsCache d !! k = Some D → (∀ x, x ∈ D ↔ reach d k x) ∧ k ∉ D) ∧
    (∀ A, ancestorsCache d !! k = Some A → (∀ x, x ∈ A ↔ reach d x k) ∧ k ∉ A).
Proof.
  intros Hrun k.
  assert (dag_invariant d) as Hinv by (apply reachable_invariant; by exists os).
  split.
  - intros D HD. pose proof (inv_descendants d Hinv k D HD) as Hcorrect.
    split; [exact Hcorrect|]. intros Hk%Hcorrect. by apply (inv_acyclic d Hinv k).
  - intros A HA. pose proof (inv_ancestors d Hinv k A HA) as Hcorrect.
    split; [exact Hcorrect|]. intros Hk%Hcorrect. by apply (inv_acyclic d Hinv k).
Qed.

Lemma reachability_cache_correct_witness :
  (descendantsCache chain5_queried !! "1" = Some {["2"; "3"; "4"; "5"]} ∧
   ("5" ∈ ({["2"; "3"; "4"; "5"]} : gset string) ↔ reach chain5_queried "1" "5") ∧
   "1" ∉ ({["2"; "3"; "4"; "5"]} : gset string))%string.
Proof.
  assert (descendantsCache chain5_queried !! "1"%string
          = Some ({["2"; "3"; "4"; "5"]} : gset string)%string) as HD
    by by_evaluation.
  split; [exact HD|].
  destruct (proj1 (reachability_cache_correct sorted_env sorted_env_ok
                     chain5_queried_ops chain5_queried chain5_queried_run "1"%string)
              _ HD) as [Hcorrect Hself].
  split; [exact (Hcorrect "5"%string) | exact Hself].
Defined.

(** C7: on every store a client can reach [ReduceTransitively] returns, and
    afterwards each vertex reaches exactly the keys it reached before; the
    descendants the client is told by [GetDescendants] are those of before
    the call.  On the vertices 1,2,3 with edges 1→2, 2→3, 1→3 the call
    removes exactly the edge 1→3: two edges are left, 1→2 and 2→3, and the
    descendants of 1 are still 2 and 3. *)
Theorem ReduceTransitively_preserves_reachability {K T : Type} `{Countable K}
    (E : Env K T) (EOk : EnvOk E) (d : GenericDAG K T) :
  reachable d →
  (∃ d', ReduceTransitively d = Some d' ∧
         (∀ v x, reach d' v x ↔ reach d v x) ∧
         (∀ id, snd <$> GetDescendants id d' = snd <$> GetDescendants id d)) ∧
  (ReduceTransitively (E := sorted_env) triangle = Some triangle_reduced ∧
   getSize (E := sorted_env) triangle_reduced = 2 ∧
   IsEdge (E := sorted_env) triangle_reduced "1" "3" = (false, None) ∧
   IsEdge (E := sorted_env) triangle_reduced "1" "2" = (true, None) ∧
   IsEdge (E := sorted_env) triangle_reduced "2" "3" = (true, None) ∧
   (λ r, dom r.2.1) <$> GetDescendants (E := sorted_env) "1" triangle_reduced
     = Some ({["2"; "3"]} : gset string))%string.
Proof.
  intros Hreach. apply reachable_invariant in Hreach as Hinv. split.
  - destruct (ReduceTransitively_spec d Hinv) as (d' & Hred & _ & _ & _ & _ & Hsame).
    exists d'. split_and!; [done..|]. intros id. by apply GetDescendants_after_reduce.
  - split_and!; by_evaluation.
Qed.

Lemma ReduceTransitively_preserves_reachability_witness :
  (∃ t', ReduceTransitively (E := sorted_env) triangle = Some t' ∧
         (reach t' "1" "3" ↔ reach triangle "1" "3"))%string.
Proof.
  destruct (proj1 (ReduceTransitively_preserves_reachability sorted_env sorted_env_ok
                     triangle (ex_intro _ triangle_ops triangle_run)))
    as (t' & Hred & Hsame & _).
  exists t'. split; [exact Hred | exact (Hsame "1" "3")%string].
Defined.

(** C8: an operation that returns an error returns the store it was called
    on: the vertex indices, the adjacency maps and the caches are those of
    before the call.  [o] ranges over [AddVertex], [AddVertexByID],
    [AddEdge], [DeleteEdge], [DeleteVertex] (and the other operations, which
    cannot fail or fail before they touch anything). *)
Theorem error_leaves_store_unchanged {K T : Type} `{Countable K}
    (E : Env K T) (o : op) (d d' : GenericDAG K T) (e : error T) :
  run_op o d = Some (d', Some e) → d' = d.
Proof. apply run_op_error_unchanged. Qed.

Lemma error_leaves_store_unchanged_witness :
  run_op (E := sorted_env) (OpAddEdge "5" "1") chain5
    = Some (chain5, Some (EdgeLoopError "5" "1")) ∧ chain5 = chain5.
Proof.
  assert (run_op (E := sorted_env) (OpAddEdge "5" "1") chain5
          = Some (chain5, Some (EdgeLoopError "5" "1"))) as Hrun
    by by_evaluation.
  split; [exact Hrun|].
  exact (error_leaves_store_unchanged sorted_env (OpAddEdge "5" "1") chain5 chain5
           (EdgeLoopError "5" "1") Hrun).
Defined.

(** C9: on a live vertex with a non-empty id [x], [DeleteEdge x x] and
    [IsEdge x x] both return [SrcDstEqualError], not the unknown-edge error,
    and [DeleteEdge] returns the store unchanged. *)
Theorem self_edge_src_dst_equal {K T : Type} `{Countable K}
    (E : Env K T) (d : GenericDAG K T) (x : string) :
  x ≠ EmptyString → live d x →
  DeleteEdge x x d = Some (d, Some (SrcDstEqualError x x)) ∧
  IsEdge d x x = (false, Some (SrcDstEqualError x x)).
Proof. apply self_edge_error. Qed.

Lemma self_edge_src_dst_equal_witness :
  DeleteEdge (E := sorted_env) "1" "1" chain5 = Some (chain5, Some (SrcDstEqualError "1" "1")) ∧
  IsEdge (E := sorted_env) chain5 "1" "1" = (false, Some (SrcDstEqualError "1" "1")).
Proof.
  apply (self_edge_src_dst_equal sorted_env chain5 "1").
  - discriminate.
  - exists "1"%string. vm_compute. reflexivity.
Defined.

Lemma diamond_run : run_ops (E := sorted_env) diamond_ops NewGenericDAG = Some diamond.
Proof. by_evaluation. Qed.

(** C5: on every store a client can reach (its graph is acyclic) both
    topological walkers, [GenericOrderedWalk] and the legacy [OrderedWalk],
    return; the visitor has been called with [(vertexValues[id], id)] for a
    sequence of ids in which every live id occurs exactly once, and for every
    edge a→b (as [IsEdge] reports it) the visit of [a] comes before the visit
    of [b]. *)
Theorem ordered_walk_topological {K T : Type} `{Countable K}
    (E : Env K T) (EOk : EnvOk E) (d : GenericDAG K T) :
  reachable d →
  ∀ walk, walk = GenericOrderedWalk d ∨ walk = OrderedWalk d →
    ∃ ids, walk = Some (visit_of d <$> ids) ∧
           NoDup ids ∧ (∀ id, id ∈ ids ↔ live d id) ∧
           (∀ a b, IsEdge d a b = (true, None) → before ids a b).
Proof.
  intros Hinv%reachable_invariant walk Hwalk.
  assert (∃ ids, walk = Some (visit_of d <$> ids) ∧ topological_order d ids)
    as (ids & Hrun & Hnd & Hall & Hedges).
  { destruct Hwalk as [-> | ->];
      [by apply GenericOrderedWalk_correct | by apply OrderedWalk_correct]. }
  exists ids. split_and!; [done..|].
  intros a b Hab. by apply Hedges, IsEdge_children.
Qed.

Lemma ordered_walk_topological_witness :
  ∃ ids, GenericOrderedWalk (E := sorted_env) diamond
           = Some (visit_of (E := sorted_env) diamond <$> ids) ∧
         NoDup ids ∧ (∀ id, id ∈ ids ↔ live diamond id) ∧
         (∀ a b, IsEdge (E := sorted_env) diamond a b = (true, None) → before ids a b).
Proof.
  apply (ordered_walk_topological sorted_env sorted_env_ok diamond).
  - exists diamond_ops. exact diamond_run.
  - left. reflexivity.
Defined.

(** C10: on every store a client can reach both topological walkers end
    after at most [OrderedWalk_fuel d] dequeues, a bound in the number of
    live ids alone, and more fuel does not change what they return.  The
    reason is the one the loop relies on: in every state of the loop (the
    set of visited ids, the queue, the visits made so far) in which a live
    id is still unvisited, the queue holds an id that is unvisited and whose
    parents are all visited, so that a turn of the queue reaches a visit. *)
Theorem ordered_walk_terminates {K T : Type} `{Countable K}
    (E : Env K T) (EOk : EnvOk E) (d : GenericDAG K T) (n : nat) :
  reachable d → OrderedWalk_fuel d ≤ n →
  (is_Some (GenericOrderedWalk_fuel n d) ∧
   GenericOrderedWalk_fuel n d = GenericOrderedWalk d) ∧
  (is_Some (OrderedWalk_fuel_n record_visit n d []) ∧
   OrderedWalk_fuel_n record_visit n d [] = OrderedWalk d) ∧
  (∀ queue visited trace,
     walk_inv d queue visited trace →
     (∃ u, live d u ∧ u ∉ visited) →
     ∃ w, w ∈ queue ∧ (w ∉ visited) ∧ ∀ p, p ∈ parents_of d w → p ∈ visited).
Proof.
  intros Hinv%reachable_invariant Hn. split_and!.
  - rewrite GenericOrderedWalk_fuel_stable by done.
    by destruct (GenericOrderedWalk_correct d Hinv) as (ids & -> & _).
  - by apply GenericOrderedWalk_fuel_stable.
  - rewrite OrderedWalk_fuel_stable by done.
    by destruct (OrderedWalk_correct d Hinv) as (ids & -> & _).
  - by apply OrderedWalk_fuel_stable.
  - intros queue visited trace Hwalk Hleft.
    destruct (walk_progress d queue visited trace Hinv Hwalk Hleft) as (w & Hw & Hready).
    exists w. split; [done|]. by apply ready_true.
Qed.

Lemma ordered_walk_terminates_witness :
  is_Some (GenericOrderedWalk_fuel (E := sorted_env) 442 diamond) ∧
  is_Some (OrderedWalk_fuel_n (E := sorted_env) record_visit 442 diamond []).
Proof.
  destruct (ordered_walk_terminates sorted_env sorted_env_ok diamond 442)
    as ((Hgeneric & _) & (Hlegacy & _) & _).
  - exists diamond_ops. exact diamond_run.
  - vm_compute. lia.
  - split; [exact Hgeneric | exact Hlegacy].
Defined.

(** C4: the round trip of [GenericDAG] fails on the graph a→b, a→c, b→c,
    c→d when the children of [a] are enumerated as b, c.  The walk of
    [MarshalJSON] then holds [c] twice on its stack; [AddEdges] runs on every
    pop, visited or not, so the edge c→d is emitted twice, and
    [UnmarshalGenericJSON] stops at the second with [EdgeDuplicateError].
    The legacy [MarshalJSON] emits the edges of a vertex in [Visit], once per
    vertex: on the same graph each edge is emitted once and the form parses
    back to the vertices and edges of the graph. *)
Theorem generic_roundtrip_duplicate_edge :
  (∀ n, MarshalJSON (E := sorted_env) (6 + n) kite
        = Some (mkStorable [("a", "a"); ("b", "b"); ("c", "c"); ("d", "d")]
                  [("a", "b"); ("a", "c"); ("b", "c"); ("c", "d"); ("c", "d")])) ∧
  (∀ n, MarshalJSON (E := sorted_env) (6 + n) kite
          ≫= UnmarshalGenericJSON (E := sorted_env)
        = Some (inr (EdgeDuplicateError "c" "d"))) ∧
  (∀ n, LegacyMarshalJSON (E := sorted_env) (7 + n) kite
        = Some (mkStorable [("a", "a"); ("b", "b"); ("c", "c"); ("d", "d")]
                  [("a", "b"); ("a", "c"); ("b", "c"); ("c", "d")])) ∧
  (∃ g, LegacyMarshalJSON (E := sorted_env) 7 kite
          ≫= UnmarshalGenericJSON (E := sorted_env) = Some (inl g) ∧
        vertexValues g = vertexValues kite ∧ vertices g = vertices kite ∧
        outboundEdge g = outboundEdge kite ∧ inboundEdge g = inboundEdge kite).
Proof.
  split_and!.
  - intros n. vm_compute. reflexivity.
  - intros n. vm_compute. reflexivity.
  - intros n. vm_compute. reflexivity.
  - eexists. split; [vm_compute; reflexivity|]. split_and!; by_evaluation.
Qed.

(** C6: [GenericDFSWalk] takes the roots and the children from
    [vertexIDsGeneric], which returns the ids in the order the map is ranged
    over and does not sort them: on the graph of two isolated vertices a, b
    the walk visits a, b when the roots are enumerated as a, b, and b, a when
    they are enumerated as b, a.  The legacy [DFSWalk] sorts the ids
    ([vertexIDs]): it returns the same visits for any two orders in which
    maps are ranged over, on every store and with every visitor, and visits
    a, b here. *)
Theorem GenericDFSWalk_follows_map_order {K T : Type} `{Countable K}
    (h : T → K) (z : T) (ko1 ko2 : gset K → list K)
    (io1 io2 : gset string → list string) :
  EnvOk (mkEnv h z ko1 io1) → EnvOk (mkEnv h z ko2 io2) →
  (∀ (V : Type) (Visit : V → string * T → V) n (d : GenericDAG K T) (visitor : V),
     DFSWalk (E := mkEnv h z ko1 io1) Visit n d visitor
     = DFSWalk (E := mkEnv h z ko2 io2) Visit n d visitor) ∧
  (build reversed_env two_roots_ops = two_roots ∧
   (∀ n, GenericDFSWalk (E := sorted_env) (3 + n) two_roots
         = Some [("a", "a"); ("b", "b")]) ∧
   (∀ n, GenericDFSWalk (E := reversed_env) (3 + n) two_roots
         = Some [("b", "b"); ("a", "a")]) ∧
   (∀ n, DFSWalk (E := sorted_env) record_visit (3 + n) two_roots []
         = Some [("a", "a"); ("b", "b")])).
Proof.
  intros EOk1 EOk2. split.
  - intros V Visit n d visitor. by apply DFSWalk_order_independent.
  - split_and!; [by_evaluation|intros n; vm_compute; reflexivity..].
Qed.

Lemma GenericDFSWalk_follows_map_order_witness :
  DFSWalk (E := sorted_env) record_visit 3 two_roots []
  = DFSWalk (E := reversed_env) record_visit 3 two_roots [] ∧
  GenericDFSWalk (E := sorted_env) 3 two_roots
  ≠ GenericDFSWalk (E := reversed_env) 3 two_roots.
Proof.
  destruct (GenericDFSWalk_follows_map_order (λ v : string, v) EmptyString
              elements elements ids_sorted (λ X, reverse (ids_sorted X))
              sorted_env_ok reversed_env_ok)
    as (Hlegacy & _ & Hsorted & Hreversed & _).
  split.
  - exact (Hlegacy _ record_visit 3 two_roots []).
  - intros Heq.
    discriminate (eq_trans (eq_sym (Hsorted 0)) (eq_trans Heq (Hreversed 0))).
Defined.
Section store_facts.
Context {K T : Type} `{Countable K} {E : Env K T} {EOk : EnvOk E}.
Implicit Types (d : GenericDAG K T).

Lemma saneID_ext d d' id : vertexValues d' = vertexValues d → saneID d' id = saneID d id.
Proof. intros Hvv. unfold saneID. by rewrite Hvv. Qed.

Lemma key_of_ext d d' id : vertexValues d' = vertexValues d → key_of d' id = key_of d id.
Proof. intros Hvv. unfold key_of, value_of. by rewrite Hvv. Qed.

(** With mirrored adjacency maps [isEdge] is membership in the forward map. *)
Lemma isEdge_edge d (s t : K) :
  adjacency_symmetric d → isEdge d s t = true ↔ edge d s t.
Proof.
  intros Hsym. rewrite isEdge_true. unfold edge, edge_of. split; [by intros [? _]|].
  intros Hst. split; [done|]. by apply Hsym.
Qed.

Lemma isEdge_eq d d' (s t : K) :
  adjacency_symmetric d → adjacency_symmetric d' →
  (edge d' s t ↔ edge d s t) → isEdge d' s t = isEdge d s t.
Proof.
  intros Hsym Hsym' Hiff.
  destruct (isEdge d s t) eqn:Hd.
  - by apply isEdge_edge, Hiff, isEdge_edge.
  - apply not_true_is_false. intros Hd'%isEdge_edge; [|done].
    apply Hiff, isEdge_edge in Hd'; [congruence|done].
Qed.

Lemma IsEdge_ext d d' (a b : string) :
  vertexValues d' = vertexValues d →
  (saneID d a = None → saneID d b = None → a ≠ b →
   isEdge d' (key_of d a) (key_of d b) = isEdge d (key_of d a) (key_of d b)) →
  IsEdge d' a b = IsEdge d a b.
Proof.
  intros Hvv Hedge. unfold IsEdge.
  rewrite !(saneID_ext d d'), !(key_of_ext d d') by done.
  destruct (saneID d a); [done|]. destruct (saneID d b); [done|].
  case_decide; [done|]. by rewrite Hedge.
Qed.

Lemma IsEdge_true d (a b : string) :
  dag_invariant d →
  IsEdge d a b = (true, None) ↔
  saneID d a = None ∧ saneID d b = None ∧ edge d (key_of d a) (key_of d b).
Proof.
  intros Hinv. unfold IsEdge. split.
  - destruct (saneID d a); [done|]. destruct (saneID d b); [done|].
    case_decide; [done|]. intros [= Hedge]. split_and!; [done..|].
    by apply isEdge_edge; [apply Hinv|].
  - intros (-> & -> & Hedge). rewrite decide_False.
    + f_equal. by apply isEdge_edge; [apply Hinv|].
    + intros ->. apply (inv_acyclic d Hinv (key_of d b)). by apply tc_once.
Qed.

(** The key under which a live id is stored is the hash of its value. *)
Lemma vertices_key_of d (k : K) id :
  indices_consistent d → vertices d !! k = Some id → k = key_of d id.
Proof.
  intros [_ Hkeys] Hk. destruct (Hkeys k id Hk) as (v & Hv & <-).
  unfold key_of, value_of. by rewrite Hv.
Qed.

Lemma AddEdge_edges d srcID dstID d' :
  dag_invariant d → AddEdge srcID dstID d = Some (d', None) →
  dag_invariant d' ∧ vertices d' = vertices d ∧ vertexValues d' = vertexValues d ∧
  saneID d srcID = None ∧ saneID d dstID = None ∧ srcID ≠ dstID ∧
  ¬ edge d (key_of d srcID) (key_of d dstID) ∧
  ¬ rtc (edge d) (key_of d dstID) (key_of d srcID) ∧
  ∀ a b, edge d' a b ↔ edge d a b ∨ (a = key_of d srcID ∧ b = key_of d dstID).
Proof.
  intros Hinv Hrun. pose proof (AddEdge_invariant d _ _ d' Hinv Hrun) as Hinv'.
  apply AddEdge_shape in Hrun as (Hs & Ht & Hne & Hnedge & Hloop & cd & D & ca & A & _ & ->).
  split_and!; try done.
  - intros Hedge. apply isEdge_edge in Hedge; [congruence|apply Hinv].
  - intros [Heq|Hreach]%rtc_tc.
    + apply Hne. by eapply key_of_inj; [apply Hinv|..].
    + apply wouldCreateLoop_true_iff in Hreach. congruence.
  - intros a b. unfold edge, edge_of. cbn [outboundEdge].
    rewrite at_key_insert_at. naive_solver.
Qed.

Lemma DeleteEdge_edges d srcID dstID d' :
  dag_invariant d → DeleteEdge srcID dstID d = Some (d', None) →
  dag_invariant d' ∧ vertices d' = vertices d ∧ vertexValues d' = vertexValues d ∧
  saneID d srcID = None ∧ saneID d dstID = None ∧ srcID ≠ dstID ∧
  edge d (key_of d srcID) (key_of d dstID) ∧
  ∀ a b, edge d' a b ↔ edge d a b ∧ ¬ (a = key_of d srcID ∧ b = key_of d dstID).
Proof.
  intros Hinv Hrun. pose proof (DeleteEdge_invariant d _ _ d' Hinv Hrun) as Hinv'.
  apply DeleteEdge_shape in Hrun as (Hs & Ht & Hne & Hedge & cd & D & ca & A & _ & ->).
  split_and!; try done.
  - by apply isEdge_edge; [apply Hinv|].
  - intros a b. unfold edge, edge_of. cbn [outboundEdge]. by rewrite at_key_delete_at.
Qed.

(** [IsEdge] after a change of the edges, on unchanged vertices. *)
Lemma IsEdge_after d d' (a b : string) :
  dag_invariant d → dag_invariant d' → vertexValues d' = vertexValues d →
  (saneID d a = None → saneID d b = None → a ≠ b →
   edge d' (key_of d a) (key_of d b) ↔ edge d (key_of d a) (key_of d b)) →
  IsEdge d' a b = IsEdge d a b.
Proof.
  intros Hinv Hinv' Hvv Hiff. apply IsEdge_ext; [done|]. intros Ha Hb Hne.
  apply isEdge_eq; [apply Hinv|apply Hinv'|]. by apply Hiff.
Qed.

End store_facts.
Section counting.
Context {K T : Type} `{Countable K} {E : Env K T} {EOk : EnvOk E}.
Implicit Types (d : GenericDAG K T) (m : gmap K (gset K)).

Lemma elem_of_edge_pairs m (a b : K) : (a, b) ∈ edge_pairs m ↔ b ∈ at_key m a.
Proof.
  unfold edge_pairs. rewrite elem_of_union_list. split.
  - intros (X & (k & -> & _)%list_elem_of_fmap & (x & [= -> ->] & Hx)%elem_of_map). done.
  - intros Hb. exists (set_map (pair a) (at_key m a)). split.
    + apply list_elem_of_fmap. exists a. split; [done|].
      apply elem_of_elements, elem_of_dom. unfold at_key in Hb.
      destruct (m !! a); [done|]. by apply elem_of_empty in Hb.
    + apply elem_of_map. by exists b.
Qed.

Lemma size_pair_image (k : K) (X : gset K) :
  size (set_map (D := gset (K * K)) (pair k) X) = size X.
Proof.
  induction X as [|x X Hx IH] using set_ind_L.
  - rewrite set_map_empty. transitivity 0; [apply size_empty | symmetry; apply size_empty].
  - rewrite set_map_union_L, set_map_singleton_L, !size_union, !size_singleton, IH.
    + done.
    + set_solver.
    + intros p ->%elem_of_singleton (y & [= ->] & Hy)%elem_of_map. done.
Qed.

Lemma size_pairs_of_keys m (l : list K) :
  NoDup l →
  size (⋃ ((λ k, set_map (D := gset (K * K)) (pair k) (at_key m k)) <$> l))
  = sum_list_with (λ k, size (at_key m k)) l.
Proof.
  induction 1 as [|k l Hk Hnd IH]; [apply (size_empty (C := gset (K * K)))|].
  rewrite fmap_cons, union_list_cons. cbn [sum_list_with].
  rewrite size_union, size_pair_image, IH; [done|].
  intros p (x & -> & _)%elem_of_map (X & (k' & -> & Hk')%list_elem_of_fmap & Hp)%elem_of_union_list.
  apply elem_of_map in Hp as (y & [= -> ->] & _). done.
Qed.

Lemma foldl_sum {A} (f : A → nat) (l : list A) n :
  foldl (λ count k, count + f k) n l = n + sum_list_with f l.
Proof.
  revert n. induction l as [|k l IH]; intros n; simpl; [lia|]. rewrite IH. lia.
Qed.

Lemma getSize_edge_pairs d : getSize d = size (edge_pairs (outboundEdge d)).
Proof.
  unfold getSize, edge_pairs. rewrite foldl_sum, keys_order_perm. simpl.
  symmetry. apply size_pairs_of_keys, NoDup_elements.
Qed.

Lemma getSize_add_edge d d' (s t : K) :
  ¬ edge d s t → (∀ a b, edge d' a b ↔ edge d a b ∨ (a = s ∧ b = t)) →
  getSize d' = S (getSize d).
Proof.
  intros Hnew Hedges. rewrite !getSize_edge_pairs.
  assert (edge_pairs (outboundEdge d') = {[(s, t)]} ∪ edge_pairs (outboundEdge d)) as ->.
  { apply set_eq. intros [a b].
    rewrite elem_of_union, elem_of_singleton, !elem_of_edge_pairs.
    specialize (Hedges a b). unfold edge, edge_of in Hedges. naive_solver. }
  rewrite size_union, size_singleton; [done|].
  intros p ->%elem_of_singleton Hp. by apply elem_of_edge_pairs in Hp.
Qed.

Lemma getSize_delete_edge d d' (s t : K) :
  edge d s t → (∀ a b, edge d' a b ↔ edge d a b ∧ ¬ (a = s ∧ b = t)) →
  S (getSize d') = getSize d.
Proof.
  intros Hold Hedges. symmetry. apply (getSize_add_edge d' d s t).
  - intros Hst%Hedges. naive_solver.
  - intros a b. rewrite Hedges. destruct (decide (a = s ∧ b = t)) as [[-> ->]|]; naive_solver.
Qed.

End counting.
Section vertex_extras.
Context {K T : Type} `{Countable K} {E : Env K T} {EOk : EnvOk E}.
Implicit Types (d : GenericDAG K T).


Lemma GetVertex_ext d d' id :
  vertexValues d' !! id = vertexValues d !! id → GetVertex d' id = GetVertex d id.
Proof. intros Heq. unfold GetVertex. by rewrite Heq. Qed.


(** X2: while a vertex is stored, [AddVertexByID] refuses its value under
    every id with [VertexDuplicateError], and refuses its id for a value
    whose hash is new with [IDDuplicateError]; the store stays as it is, and
    a call that does succeed brings a new hash and a new id and leaves the
    vertex stored.  This holds in the store the insertion of the vertex
    returns, whatever store it was inserted into, and in every store a client
    reaches later that still holds it.  Keys are those of the model: values
    that equal themselves (see the note on [GenericDAG]). *)
Theorem AddVertexByID_rejects_duplicates d0 d id (v : T) :
  AddVertexByID id v d0 = (d, None) ∨ (reachable d ∧ vertexValues d !! id = Some v) →
  (∀ id', AddVertexByID id' v d = (d, Some (VertexDuplicateError v))) ∧
  (∀ v', vertices d !! hashVertex v' = None →
         AddVertexByID id v' d = (d, Some (IDDuplicateError id))) ∧
  (∀ id' v' d', AddVertexByID id' v' d = (d', None) →
         hashVertex v' ≠ hashVertex v ∧ id' ≠ id ∧ vertexValues d' !! id = Some v).
Proof.
  intros Hstored.
  assert (vertices d !! hashVertex v = Some id ∧ vertexValues d !! id = Some v)
    as [Hkey Hval].
  { destruct Hstored as [(_ & _ & ->)%addVertexByID_shape|[Hinv%reachable_invariant Hv]].
    - cbn [vertices vertexValues]. by rewrite !lookup_insert_eq.
    - split; [|done]. by apply (inv_indices d Hinv). }
  split_and!.
  - intros id'. unfold AddVertexByID, addVertexByID. by rewrite Hkey.
  - intros v' Hv'. unfold AddVertexByID, addVertexByID. by rewrite Hv', Hval.
  - intros id' v' d' (Hfresh & Hid & ->)%addVertexByID_shape.
    assert (id' ≠ id) as Hne by (intros ->; congruence).
    split_and!; [by intros Heq; rewrite Heq in Hfresh; congruence|done|].
    cbn [vertexValues]. by rewrite lookup_insert_ne.
Qed.


End vertex_extras.


Lemma AddVertexByID_rejects_duplicates_witness :
  AddVertexByID (E := sorted_env) "7" "6" chain5_plus6
  = (chain5_plus6, Some (VertexDuplicateError "6"%string)) ∧
  AddVertexByID (E := sorted_env) "7" "3" chain5
  = (chain5, Some (VertexDuplicateError "3"%string)).
Proof.
  split.
  - destruct (AddVertexByID_rejects_duplicates (E := sorted_env) (EOk := sorted_env_ok)
                chain5 chain5_plus6 "6" "6") as (Hvalue & _).
    + left. by_evaluation.
    + exact (Hvalue "7"%string).
  - destruct (AddVertexByID_rejects_duplicates (E := sorted_env) (EOk := sorted_env_ok)
                chain5 chain5 "3" "3") as (Hvalue & _).
    + right. split; [exists chain5_ops; exact chain5_run | vm_compute; reflexivity].
    + exact (Hvalue "7"%string).
Defined.

Section edge_facts.
Context {K T : Type} `{Countable K} {E : Env K T} {EOk : EnvOk E}.
Implicit Types (d : GenericDAG K T).

Lemma AddEdge_succeeds d srcID dstID :
  dag_invariant d → saneID d srcID = None → saneID d dstID = None → srcID ≠ dstID →
  ¬ edge d (key_of d srcID) (key_of d dstID) →
  ¬ reach d (key_of d dstID) (key_of d srcID) →
  ∃ d', AddEdge srcID dstID d = Some (d', None).
Proof.
  intros Hinv Hs Ht Hne Hnedge Hnreach. unfold AddEdge.
  rewrite Hs, Ht, decide_False by done.
  destruct (isEdge d _ _) eqn:Hedge.
  { exfalso. by apply Hnedge, isEdge_edge; [apply Hinv|]. }
  destruct (wouldCreateLoop_total d (key_of d srcID) (key_of d dstID)) as [[] Hloop].
  { exfalso. by apply Hnreach, wouldCreateLoop_true_iff. }
  rewrite Hloop. simpl.
  destruct (getDescendants_invariant d (key_of d dstID) Hinv) as (d1 & D & -> & Hinv1 & _).
  simpl.
  destruct (getAncestors_invariant d1 (key_of d srcID) Hinv1) as (d2 & A & -> & _).
  simpl. by eexists.
Qed.

Lemma DeleteEdge_succeeds d srcID dstID :
  dag_invariant d → saneID d srcID = None → saneID d dstID = None → srcID ≠ dstID →
  edge d (key_of d srcID) (key_of d dstID) →
  ∃ d', DeleteEdge srcID dstID d = Some (d', None).
Proof.
  intros Hinv Hs Ht Hne Hedge. unfold DeleteEdge.
  rewrite Hs, Ht, decide_False by done.
  apply isEdge_edge in Hedge; [|apply Hinv]. rewrite Hedge. simpl.
  destruct (getDescendants_invariant d (key_of d srcID) Hinv) as (d1 & D & -> & Hinv1 & _).
  simpl.
  destruct (getAncestors_invariant d1 (key_of d dstID) Hinv1) as (d2 & A & -> & _).
  simpl. by eexists.
Qed.

Lemma DeleteEdge_unknown d srcID dstID :
  dag_invariant d → saneID d srcID = None → saneID d dstID = None → srcID ≠ dstID →
  ¬ edge d (key_of d srcID) (key_of d dstID) →
  DeleteEdge srcID dstID d = Some (d, Some (EdgeUnknownError srcID dstID)).
Proof.
  intros Hinv Hs Ht Hne Hnedge. unfold DeleteEdge.
  rewrite Hs, Ht, decide_False by done.
  destruct (isEdge d _ _) eqn:Hedge; [|done].
  exfalso. by apply Hnedge, isEdge_edge; [apply Hinv|].
Qed.

Lemma AddEdge_duplicate d srcID dstID :
  dag_invariant d → saneID d srcID = None → saneID d dstID = None → srcID ≠ dstID →
  edge d (key_of d srcID) (key_of d dstID) →
  AddEdge srcID dstID d = Some (d, Some (EdgeDuplicateError srcID dstID)).
Proof.
  intros Hinv Hs Ht Hne Hedge. unfold AddEdge.
  rewrite Hs, Ht, decide_False by done.
  apply isEdge_edge in Hedge; [|apply Hinv]. by rewrite Hedge.
Qed.

(** A key that names a live, non-empty id. *)
Lemma named_sane d (k : K) id :
  dag_invariant d → vertices d !! k = Some id → id ≠ EmptyString →
  saneID d id = None ∧ k = key_of d id.
Proof.
  intros Hinv Hk Hne. split.
  - apply saneID_None. split; [done|]. by eapply vertices_live.
  - by apply vertices_key_of; [apply Hinv|].
Qed.

Lemma id_edge_keys d (a b : string) :
  dag_invariant d →
  id_edge d a b ↔ saneID d a = None ∧ saneID d b = None ∧ edge d (key_of d a) (key_of d b).
Proof. apply IsEdge_true. Qed.

(** Paths of [IsEdge] steps between ids are the paths between their keys. *)
Lemma tc_id_edge d (a b : string) :
  dag_invariant d →
  tc (id_edge d) a b ↔
  saneID d a = None ∧ saneID d b = None ∧ reach d (key_of d a) (key_of d b).
Proof.
  intros Hinv. split.
  - induction 1 as [a b Hab|a m b Ham _ (Hm & Hb & Hreach)].
    + apply id_edge_keys in Hab as (? & ? & ?); [|done]. split_and!; [done..|].
      by apply tc_once.
    + apply id_edge_keys in Ham as (? & ? & ?); [|done]. split_and!; [done..|].
      by eapply tc_l.
  - intros (Ha & Hb & Hreach).
    remember (key_of d a) as ka eqn:Hka. remember (key_of d b) as kb eqn:Hkb.
    revert a Ha Hka. induction Hreach as [ka kb Hab|ka km kb Ham Hreach IH];
      intros a Ha ->.
    + subst kb. apply tc_once, id_edge_keys; [done|]. by split_and!.
    + destruct (inv_edges_live d Hinv _ _ Ham) as (_ & m & _ & Hm & _ & Hmne).
      destruct (named_sane d km m Hinv Hm Hmne) as (Hsm & ->).
      eapply tc_l; [|by apply IH]. apply id_edge_keys; [done|]. by split_and!.
Qed.

End edge_facts.
Section edge_extras.
Context {K T : Type} `{Countable K} {E : Env K T} {EOk : EnvOk E}.
Implicit Types (d : GenericDAG K T).

(** X4: on a store a client can reach, after a successful [AddEdge] the
    edge is there ([IsEdge] answers true), [IsEdge] answers for every other
    pair of ids what it answered before, the vertices are untouched, and the
    size has grown by exactly one. *)
Theorem AddEdge_adds d srcID dstID d' :
  reachable d → AddEdge srcID dstID d = Some (d', None) →
  IsEdge d' srcID dstID = (true, None) ∧
  (∀ a b, (a, b) ≠ (srcID, dstID) → IsEdge d' a b = IsEdge d a b) ∧
  (∀ id, GetVertex d' id = GetVertex d id) ∧
  GetSize d' = S (GetSize d) ∧ GetOrder d' = GetOrder d.
Proof.
  intros Hinv%reachable_invariant Hrun.
  destruct (AddEdge_edges d _ _ d' Hinv Hrun)
    as (Hinv' & Hv & Hvv & Hs & Ht & Hne & Hnedge & _ & Hedges).
  split_and!.
  - apply IsEdge_true; [done|]. rewrite !(saneID_ext d d'), !(key_of_ext d d') by done.
    split_and!; [done..|]. apply Hedges. by right.
  - intros a b Hab. apply IsEdge_after; [done..|]. intros Ha Hb _. rewrite Hedges.
    split; [|by left]. intros [?|[Hka Hkb]]; [done|]. exfalso. apply Hab.
    f_equal; by eapply key_of_inj; [apply Hinv|..].
  - intros id. apply GetVertex_ext. by rewrite Hvv.
  - by apply (getSize_add_edge d d' (key_of d srcID) (key_of d dstID)).
  - unfold GetOrder, getOrder. by rewrite Hv.
Qed.

(** X5: after a successful [AddEdge] the same edge is refused with
    [EdgeDuplicateError] and the reverse edge with [EdgeLoopError]; both
    calls leave the store as it is. *)
Theorem AddEdge_then_refused d srcID dstID d' :
  reachable d → AddEdge srcID dstID d = Some (d', None) →
  AddEdge srcID dstID d' = Some (d', Some (EdgeDuplicateError srcID dstID)) ∧
  AddEdge dstID srcID d' = Some (d', Some (EdgeLoopError dstID srcID)).
Proof.
  intros Hinv%reachable_invariant Hrun.
  destruct (AddEdge_edges d _ _ d' Hinv Hrun)
    as (Hinv' & Hv & Hvv & Hs & Ht & Hne & Hnedge & Hnrtc & Hedges).
  assert (saneID d' srcID = None) as Hs' by by rewrite (saneID_ext d d').
  assert (saneID d' dstID = None) as Ht' by by rewrite (saneID_ext d d').
  assert (edge d' (key_of d' srcID) (key_of d' dstID)) as Hnew.
  { rewrite !(key_of_ext d d') by done. apply Hedges. by right. }
  split.
  - by apply AddEdge_duplicate.
  - apply AddEdge_loop_iff; [done..| |by apply tc_once].
    apply not_true_is_false. intros Hback%isEdge_edge; [|apply Hinv'].
    rewrite !(key_of_ext d d') in Hback by done.
    apply Hedges in Hback as [Hback|[Heq _]].
    + by apply Hnrtc, rtc_once.
    + apply Hne. symmetry. by eapply key_of_inj; [apply Hinv|..].
Qed.

(** X6: on a store a client can reach, after a successful [DeleteEdge] the
    edge is gone, [IsEdge] answers for every other pair of ids what it
    answered before, the size is one less, and deleting it once more returns
    [EdgeUnknownError]. *)
Theorem DeleteEdge_removes d srcID dstID d' :
  reachable d → DeleteEdge srcID dstID d = Some (d', None) →
  IsEdge d' srcID dstID = (false, None) ∧
  (∀ a b, (a, b) ≠ (srcID, dstID) → IsEdge d' a b = IsEdge d a b) ∧
  (∀ id, GetVertex d' id = GetVertex d id) ∧
  S (GetSize d') = GetSize d ∧
  DeleteEdge srcID dstID d' = Some (d', Some (EdgeUnknownError srcID dstID)).
Proof.
  intros Hinv%reachable_invariant Hrun.
  destruct (DeleteEdge_edges d _ _ d' Hinv Hrun)
    as (Hinv' & Hv & Hvv & Hs & Ht & Hne & Hedge & Hedges).
  assert (saneID d' srcID = None) as Hs' by by rewrite (saneID_ext d d').
  assert (saneID d' dstID = None) as Ht' by by rewrite (saneID_ext d d').
  assert (¬ edge d' (key_of d' srcID) (key_of d' dstID)) as Hgone.
  { rewrite !(key_of_ext d d') by done. rewrite Hedges. naive_solver. }
  split_and!.
  - unfold IsEdge. rewrite Hs', Ht', decide_False by done. f_equal.
    apply not_true_is_false. by intros ?%isEdge_edge; [|apply Hinv'].
  - intros a b Hab. apply IsEdge_after; [done..|]. intros Ha Hb _. rewrite Hedges.
    split; [by intros [? _]|]. intros Hold. split; [done|]. intros [Hka Hkb].
    apply Hab. f_equal; by eapply key_of_inj; [apply Hinv|..].
  - intros id. apply GetVertex_ext. by rewrite Hvv.
  - by apply (getSize_delete_edge d d' (key_of d srcID) (key_of d dstID)).
  - by apply DeleteEdge_unknown.
Qed.

End edge_extras.

Lemma chain5_shortcut_run :
  AddEdge (E := sorted_env) "1" "3" chain5 = Some (chain5_shortcut, None).
Proof. by_evaluation. Qed.

Lemma chain5_cut_run :
  DeleteEdge (E := sorted_env) "2" "3" chain5 = Some (chain5_cut, None).
Proof. by_evaluation. Qed.

Lemma AddEdge_adds_witness :
  IsEdge (E := sorted_env) chain5_shortcut "1" "3" = (true, None) ∧
  GetSize (E := sorted_env) chain5_shortcut = S (GetSize (E := sorted_env) chain5).
Proof.
  destruct (AddEdge_adds (E := sorted_env) (EOk := sorted_env_ok) chain5 "1" "3"
              chain5_shortcut (ex_intro _ chain5_ops chain5_run) chain5_shortcut_run)
    as (Hedge & _ & _ & Hsize & _).
  split; [exact Hedge | exact Hsize].
Defined.

Lemma AddEdge_then_refused_witness :
  AddEdge (E := sorted_env) "3" "1" chain5_shortcut
  = Some (chain5_shortcut, Some (EdgeLoopError "3" "1")).
Proof.
  exact (proj2 (AddEdge_then_refused (E := sorted_env) (EOk := sorted_env_ok) chain5 "1" "3"
                  chain5_shortcut (ex_intro _ chain5_ops chain5_run) chain5_shortcut_run)).
Defined.

Lemma DeleteEdge_removes_witness :
  IsEdge (E := sorted_env) chain5_cut "2" "3" = (false, None) ∧
  S (GetSize (E := sorted_env) chain5_cut) = GetSize (E := sorted_env) chain5.
Proof.
  destruct (DeleteEdge_removes (E := sorted_env) (EOk := sorted_env_ok) chain5 "2" "3"
              chain5_cut (ex_intro _ chain5_ops chain5_run) chain5_cut_run)
    as (Hedge & _ & _ & Hsize & _).
  split; [exact Hedge | exact Hsize].
Defined.
Section edge_roundtrip.
Context {K T : Type} `{Countable K} {E : Env K T} {EOk : EnvOk E}.
Implicit Types (d : GenericDAG K T).

(** X7: [AddEdge] and [DeleteEdge] undo each other.  On a store a client
    can reach, the edge just added can be deleted, the edge just deleted can
    be added again, and either way [IsEdge], [GetVertex] and [GetSize] answer
    what they answered in the beginning. *)
Theorem AddEdge_DeleteEdge_inverse d srcID dstID d1 :
  reachable d →
  (AddEdge srcID dstID d = Some (d1, None) →
   ∃ d2, DeleteEdge srcID dstID d1 = Some (d2, None) ∧
         (∀ a b, IsEdge d2 a b = IsEdge d a b) ∧
         (∀ id, GetVertex d2 id = GetVertex d id) ∧ GetSize d2 = GetSize d) ∧
  (DeleteEdge srcID dstID d = Some (d1, None) →
   ∃ d2, AddEdge srcID dstID d1 = Some (d2, None) ∧
         (∀ a b, IsEdge d2 a b = IsEdge d a b) ∧
         (∀ id, GetVertex d2 id = GetVertex d id) ∧ GetSize d2 = GetSize d).
Proof.
  intros Hinv%reachable_invariant. split; intros Hrun.
  - destruct (AddEdge_edges d _ _ d1 Hinv Hrun)
      as (Hinv1 & Hv1 & Hvv1 & Hs & Ht & Hne & Hnedge & _ & Hedges1).
    destruct (DeleteEdge_succeeds d1 srcID dstID) as [d2 Hdel]; try done.
    { by rewrite (saneID_ext d d1). } { by rewrite (saneID_ext d d1). }
    { rewrite !(key_of_ext d d1) by done. apply Hedges1. by right. }
    destruct (DeleteEdge_edges d1 _ _ d2 Hinv1 Hdel)
      as (Hinv2 & Hv2 & Hvv2 & _ & _ & _ & Hedge1 & Hedges2).
    rewrite !(key_of_ext d d1) in Hedges2, Hedge1 by done.
    assert (∀ a b, edge d2 a b ↔ edge d a b) as Hsame.
    { intros a b. rewrite Hedges2, Hedges1. split; [naive_solver|].
      intros Hab. split; [by left|]. by intros [-> ->]. }
    exists d2. split_and!; [done|..].
    + intros a b. apply IsEdge_after; [done..|by rewrite Hvv2|]. intros _ _ _. apply Hsame.
    + intros id. apply GetVertex_ext. by rewrite Hvv2, Hvv1.
    + pose proof (getSize_add_edge d d1 _ _ Hnedge Hedges1).
      pose proof (getSize_delete_edge d1 d2 _ _ Hedge1 Hedges2).
      unfold GetSize. lia.
  - destruct (DeleteEdge_edges d _ _ d1 Hinv Hrun)
      as (Hinv1 & Hv1 & Hvv1 & Hs & Ht & Hne & Hedge & Hedges1).
    assert (¬ edge d1 (key_of d srcID) (key_of d dstID)) as Hgone.
    { rewrite Hedges1. naive_solver. }
    destruct (AddEdge_succeeds d1 srcID dstID) as [d2 Hadd]; try done.
    { by rewrite (saneID_ext d d1). } { by rewrite (saneID_ext d d1). }
    { by rewrite !(key_of_ext d d1). }
    { rewrite !(key_of_ext d d1) by done. intros Hback.
      apply (inv_acyclic d Hinv (key_of d srcID)). eapply tc_l; [exact Hedge|].
      eapply tc_impl; [|exact Hback]. intros x y Hxy. by apply Hedges1 in Hxy as [? _]. }
    destruct (AddEdge_edges d1 _ _ d2 Hinv1 Hadd)
      as (Hinv2 & Hv2 & Hvv2 & _ & _ & _ & Hnedge1 & _ & Hedges2).
    rewrite !(key_of_ext d d1) in Hedges2, Hnedge1 by done.
    assert (∀ a b, edge d2 a b ↔ edge d a b) as Hsame.
    { intros a b. rewrite Hedges2, Hedges1. split; [naive_solver|].
      intros Hab. destruct (decide (a = key_of d srcID ∧ b = key_of d dstID)); naive_solver. }
    exists d2. split_and!; [done|..].
    + intros a b. apply IsEdge_after; [done..|by rewrite Hvv2|]. intros _ _ _. apply Hsame.
    + intros id. apply GetVertex_ext. by rewrite Hvv2, Hvv1.
    + pose proof (getSize_delete_edge d d1 _ _ Hedge Hedges1).
      pose proof (getSize_add_edge d1 d2 _ _ Hnedge1 Hedges2).
      unfold GetSize. lia.
Qed.


End edge_roundtrip.

Lemma AddEdge_DeleteEdge_inverse_witness :
  ∃ d2, DeleteEdge (E := sorted_env) "1" "3" chain5_shortcut = Some (d2, None) ∧
        ∀ a b, IsEdge (E := sorted_env) d2 a b = IsEdge (E := sorted_env) chain5 a b.
Proof.
  destruct (proj1 (AddEdge_DeleteEdge_inverse (E := sorted_env) (EOk := sorted_env_ok)
                     chain5 "1" "3" chain5_shortcut (ex_intro _ chain5_ops chain5_run))
              chain5_shortcut_run) as (d2 & Hrun & Hedges & _).
  exists d2. split; [exact Hrun | exact Hedges].
Defined.

Section neighbours.
Context {K T : Type} `{Countable K} {E : Env K T} {EOk : EnvOk E}.
Implicit Types (d : GenericDAG K T).

Lemma named_edge d (ka kb : K) (a b : string) :
  dag_invariant d → vertices d !! ka = Some a → vertices d !! kb = Some b →
  edge d ka kb → id_edge d a b.
Proof.
  intros Hinv Ha Hb Hedge.
  destruct (inv_edges_live d Hinv _ _ Hedge) as (a' & b' & Ha' & Hb' & Hane & Hbne).
  assert (a' = a) as -> by congruence. assert (b' = b) as -> by congruence.
  destruct (named_sane d ka a Hinv Ha Hane) as (Hsa & ->).
  destruct (named_sane d kb b Hinv Hb Hbne) as (Hsb & ->).
  by apply id_edge_keys.
Qed.

Lemma id_edge_named d (a b : string) :
  dag_invariant d → id_edge d a b →
  vertices d !! key_of d a = Some a ∧ vertices d !! key_of d b = Some b ∧
  edge d (key_of d a) (key_of d b).
Proof.
  intros Hinv (Ha & Hb & Hedge)%id_edge_keys; [|done].
  destruct (key_of_live d a (inv_indices d Hinv) Ha) as (? & _).
  destruct (key_of_live d b (inv_indices d Hinv) Hb) as (? & _). done.
Qed.

Lemma id_edge_children d (a b : string) :
  dag_invariant d → id_edge d a b ↔ b ∈ children_of d a.
Proof.
  intros Hinv. rewrite children_of_spec by done. split.
  - intros (? & ? & ?)%id_edge_named; [|done]. by exists (key_of d a), (key_of d b).
  - intros (ka & kb & Ha & Hb & Hedge). by eapply named_edge.
Qed.

Lemma id_edge_parents d (a b : string) :
  dag_invariant d → id_edge d a b ↔ a ∈ parents_of d b.
Proof. intros Hinv. by rewrite parents_children, id_edge_children. Qed.

Lemma GetParents_value d id p (v : T) :
  (GetParents d id).1 !! p = Some v → v = value_of d p.
Proof.
  unfold GetParents. destruct (saneID d id); simpl.
  - by rewrite lookup_empty.
  - by intros (k & _ & _ & ->)%ids_of_keys_lookup.
Qed.

Lemma GetVertex_sane d id :
  saneID d id = None → GetVertex d id = inl (value_of d id).
Proof.
  intros [Hne [v Hv]]%saneID_None. unfold GetVertex, value_of.
  rewrite decide_False by done. by rewrite Hv.
Qed.

(** X9: on a store a client can reach, [IsEdge], [GetChildren] and
    [GetParents] describe the same edges: [IsEdge a b] answers true exactly
    when [b] is among the children of [a], and exactly when [a] is among the
    parents of [b]; the values listed beside the ids are those [GetVertex]
    returns. *)
Theorem children_parents_agree d (a b : string) :
  reachable d →
  (IsEdge d a b = (true, None) ↔ b ∈ dom (GetChildren d a).1) ∧
  (IsEdge d a b = (true, None) ↔ a ∈ dom (GetParents d b).1) ∧
  (∀ v, (GetChildren d a).1 !! b = Some v → GetVertex d b = inl v) ∧
  (∀ v, (GetParents d b).1 !! a = Some v → GetVertex d a = inl v).
Proof.
  intros Hinv%reachable_invariant. split_and!.
  - by apply id_edge_children.
  - by apply id_edge_parents.
  - intros v Hv. pose proof (getChildren_value d a b v Hv) as ->.
    assert (id_edge d a b) as Hab.
    { apply id_edge_children; [done|]. apply elem_of_dom. by eexists. }
    apply id_edge_keys in Hab as (_ & Hb & _); [|done].
    by apply GetVertex_sane.
  - intros v Hv. pose proof (GetParents_value d b a v Hv) as ->.
    assert (id_edge d a b) as Hab.
    { apply id_edge_parents; [done|]. apply elem_of_dom. by eexists. }
    apply id_edge_keys in Hab as (Ha & _ & _); [|done].
    by apply GetVertex_sane.
Qed.




End neighbours.

Lemma children_parents_agree_witness :
  ("2" ∈ dom (GetChildren (E := sorted_env) chain5 "1").1 ∧
   "1" ∈ dom (GetParents (E := sorted_env) chain5 "2").1)%string.
Proof.
  destruct (children_parents_agree (E := sorted_env) (EOk := sorted_env_ok) chain5 "1" "2"
              (ex_intro _ chain5_ops chain5_run)) as (Hchildren & Hparents & _).
  assert (IsEdge (E := sorted_env) chain5 "1" "2" = (true, None)) as Hedge by by_evaluation.
  split; [exact (proj1 Hchildren Hedge) | exact (proj1 Hparents Hedge)].
Defined.
Section ends_and_relatives.
Context {K T : Type} `{Countable K} {E : Env K T} {EOk : EnvOk E}.
Implicit Types (d : GenericDAG K T).




End ends_and_relatives.

Section relatives.
Context {K T : Type} `{Countable K} {E : Env K T} {EOk : EnvOk E}.
Implicit Types (d : GenericDAG K T).

Lemma GetAncestors_value d id :
  dag_invariant d → saneID d id = None →
  ∃ d1 A, GetAncestors id d = Some (d1, (ids_of_keys d A, None)) ∧
          ∀ x, x ∈ A ↔ reach d x (key_of d id).
Proof.
  intros Hinv Hsane. unfold GetAncestors. rewrite Hsane.
  destruct (getAncestors_invariant d (key_of d id) Hinv)
    as (d1 & A & -> & _ & HA & Hv & Hvv & _).
  exists d1, A. split; [|done]. simpl. by rewrite (ids_of_keys_ext d1 d A).
Qed.

(** The ids of the keys reachable from (or reaching) the key of a live id. *)
Lemma ids_of_reachable d (ks : gset K) (a b : string) (fwd : bool) :
  dag_invariant d → saneID d a = None →
  (∀ x, x ∈ ks ↔ if fwd then reach d (key_of d a) x else reach d x (key_of d a)) →
  b ∈ dom (ids_of_keys d ks) ↔
  if fwd then tc (id_edge d) a b else tc (id_edge d) b a.
Proof.
  intros Hinv Ha Hks. rewrite elem_of_dom_ids_of_keys. split.
  - intros (k & Hk%Hks & Hid).
    assert (vertices d !! k = Some b ∧ b ≠ EmptyString) as [Hkb Hbne].
    { assert (∃ idk, vertices d !! k = Some idk ∧ idk ≠ EmptyString) as (idk & Hidk & ?).
      { destruct fwd; by apply (reach_endpoints_named d _ _ (inv_edges_live d Hinv)) in Hk
          as [? ?]. }
      unfold id_of in Hid. rewrite Hidk in Hid. simpl in Hid. by subst idk. }
    destruct (named_sane d k b Hinv Hkb Hbne) as (Hb & ->).
    destruct fwd; by apply tc_id_edge.
  - intros Htc. exists (key_of d b).
    assert (saneID d b = None ∧
            (if fwd then reach d (key_of d a) (key_of d b)
             else reach d (key_of d b) (key_of d a))) as [Hb Hreach].
    { destruct fwd; apply tc_id_edge in Htc as (? & ? & ?); done. }
    split; [by apply Hks|].
    destruct (key_of_live d b (inv_indices d Hinv) Hb) as (Hkb & _).
    unfold id_of. by rewrite Hkb.
Qed.

(** X11: on a store a client can reach, [GetDescendants] of a live,
    non-empty id returns exactly the ids that a path of one or more edges
    leads to, [GetAncestors] exactly the ids from which such a path arrives;
    so [b] is a descendant of [a] exactly when [a] is an ancestor of [b].
    The id itself is in neither, and each id comes with the value
    [GetVertex] returns for it. *)
Theorem descendants_and_ancestors d (a : string) :
  reachable d → a ≠ EmptyString → live d a →
  ∃ d1 D d2 A,
    GetDescendants a d = Some (d1, (D, None)) ∧
    GetAncestors a d = Some (d2, (A, None)) ∧
    (∀ b, b ∈ dom D ↔ tc (id_edge d) a b) ∧
    (∀ b, b ∈ dom A ↔ tc (id_edge d) b a) ∧
    (a ∉ dom D) ∧ (a ∉ dom A) ∧
    (∀ b v, D !! b = Some v ∨ A !! b = Some v → GetVertex d b = inl v).
Proof.
  intros Hinv%reachable_invariant Hne Hlive.
  assert (saneID d a = None) as Ha by by apply saneID_None.
  destruct (GetDescendants_value d a Hinv Ha) as (d1 & KD & HD & HKD).
  destruct (GetAncestors_value d a Hinv Ha) as (d2 & KA & HA & HKA).
  pose proof (λ b, ids_of_reachable d KD a b true Hinv Ha HKD) as HDb.
  pose proof (λ b, ids_of_reachable d KA a b false Hinv Ha HKA) as HAb.
  assert (¬ tc (id_edge d) a a) as Hirr.
  { intros (_ & _ & Hreach)%tc_id_edge; [|done]. by apply (inv_acyclic d Hinv (key_of d a)). }
  exists d1, (ids_of_keys d KD), d2, (ids_of_keys d KA).
  split_and!; [done..| | |].
  - by rewrite HDb.
  - by rewrite HAb.
  - intros b v Hv.
    assert (v = value_of d b) as ->.
    { by destruct Hv as [(k & _ & _ & ->)%ids_of_keys_lookup
                        |(k & _ & _ & ->)%ids_of_keys_lookup]. }
    apply GetVertex_sane.
    destruct Hv as [Hv|Hv].
    + assert (tc (id_edge d) a b) as (_ & ? & _)%tc_id_edge; [|done..].
      apply HDb, elem_of_dom. by eexists.
    + assert (tc (id_edge d) b a) as (? & _ & _)%tc_id_edge; [|done..].
      apply HAb, elem_of_dom. by eexists.
Qed.

End relatives.

Lemma descendants_and_ancestors_witness :
  ∃ d1 D d2 A,
    GetDescendants (E := sorted_env) "3" chain5 = Some (d1, (D, None)) ∧
    GetAncestors (E := sorted_env) "3" chain5 = Some (d2, (A, None)) ∧
    (∀ b, b ∈ dom D ↔ tc (id_edge (E := sorted_env) chain5) "3" b) ∧
    (∀ b, b ∈ dom A ↔ tc (id_edge (E := sorted_env) chain5) b "3").
Proof.
  destruct (descendants_and_ancestors (E := sorted_env) (EOk := sorted_env_ok) chain5 "3")
    as (d1 & D & d2 & A & HD & HA & HDb & HAb & _).
  - exists chain5_ops. exact chain5_run.
  - discriminate.
  - exists "3"%string. vm_compute. reflexivity.
  - exists d1, D, d2, A. split; [exact HD|]. split; [exact HA|].
    split; [exact HDb | exact HAb].
Defined.
Section caches.
Context {K T : Type} `{Countable K} {E : Env K T} {EOk : EnvOk E}.
Implicit Types (d : GenericDAG K T).

(** Two stores with the same vertices and edges; the caches may differ. *)
Lemma same_edges_reach d d' :
  outboundEdge d' = outboundEdge d → ∀ a b, reach d' a b ↔ reach d a b.
Proof. intros Hout a b. unfold reach, edge. by rewrite Hout. Qed.

Lemma GetDescendants_same_graph d d' id :
  dag_invariant d → dag_invariant d' →
  vertices d' = vertices d → vertexValues d' = vertexValues d →
  outboundEdge d' = outboundEdge d →
  snd <$> GetDescendants id d' = snd <$> GetDescendants id d.
Proof.
  intros Hinv Hinv' Hv Hvv Hout.
  pose proof (saneID_ext d d' id Hvv) as Hsane.
  destruct (saneID d id) as [e|] eqn:Hs.
  { unfold GetDescendants. by rewrite Hsane, Hs. }
  destruct (GetDescendants_value d id Hinv Hs) as (d1 & D & -> & HD).
  destruct (GetDescendants_value d' id Hinv' Hsane) as (d1' & D' & -> & HD').
  assert (D' = D) as ->.
  { apply set_eq. intros x. by rewrite HD, HD', (same_edges_reach d d'), (key_of_ext d d'). }
  simpl. by rewrite (ids_of_keys_ext d' d D).
Qed.

Lemma GetAncestors_same_graph d d' id :
  dag_invariant d → dag_invariant d' →
  vertices d' = vertices d → vertexValues d' = vertexValues d →
  outboundEdge d' = outboundEdge d →
  snd <$> GetAncestors id d' = snd <$> GetAncestors id d.
Proof.
  intros Hinv Hinv' Hv Hvv Hout.
  pose proof (saneID_ext d d' id Hvv) as Hsane.
  destruct (saneID d id) as [e|] eqn:Hs.
  { unfold GetAncestors. by rewrite Hsane, Hs. }
  destruct (GetAncestors_value d id Hinv Hs) as (d1 & A & -> & HA).
  destruct (GetAncestors_value d' id Hinv' Hsane) as (d1' & A' & -> & HA').
  assert (A' = A) as ->.
  { apply set_eq. intros x. by rewrite HA, HA', (same_edges_reach d d'), (key_of_ext d d'). }
  simpl. by rewrite (ids_of_keys_ext d' d A).
Qed.

Lemma query_same_graph (o : op) d d' (e : option (error T)) :
  dag_invariant d → is_query o = true → run_op o d = Some (d', e) →
  vertices d' = vertices d ∧ vertexValues d' = vertexValues d ∧
  inboundEdge d' = inboundEdge d ∧ outboundEdge d' = outboundEdge d.
Proof.
  intros Hinv Hq Hrun. destruct o; simpl in Hq; try done; simpl in Hrun.
  - by simplify_eq.
  - unfold GetDescendants in Hrun. destruct (saneID d id); [simpl in Hrun; by simplify_eq|].
    destruct (getDescendants_invariant d (key_of d id) Hinv)
      as (d1 & D & Hget & _ & (? & ? & ? & ? & _) & _).
    rewrite Hget in Hrun. simpl in Hrun. by simplify_eq.
  - unfold GetAncestors in Hrun. destruct (saneID d id); [simpl in Hrun; by simplify_eq|].
    destruct (getAncestors_invariant d (key_of d id) Hinv)
      as (d1 & A & Hget & _ & _ & ? & ? & ? & ? & _).
    rewrite Hget in Hrun. simpl in Hrun. by simplify_eq.
Qed.

Lemma queries_same_graph (os : list op) d d' :
  dag_invariant d → forallb is_query os = true → run_ops os d = Some d' →
  dag_invariant d' ∧
  vertices d' = vertices d ∧ vertexValues d' = vertexValues d ∧
  inboundEdge d' = inboundEdge d ∧ outboundEdge d' = outboundEdge d.
Proof.
  revert d. induction os as [|o os IH]; intros d Hinv Hq Hrun; simpl in *.
  - by simplify_eq.
  - apply andb_true_iff in Hq as [Ho Hos].
    destruct (run_op o d) as [[d1 e]|] eqn:Hop; simpl in Hrun; [|done].
    pose proof (run_op_invariant o d d1 e Hinv Hop) as Hinv1.
    destruct (query_same_graph o d d1 e Hinv Ho Hop) as (Hv & Hvv & Hin & Hout).
    destruct (IH d1 Hinv1 Hos Hrun) as (? & -> & -> & -> & ->). done.
Qed.

(** X12: the caches are invisible.  On a store a client can reach, any
    sequence of [GetDescendants], [GetAncestors] and [FlushCaches] calls runs
    to its end and leaves every answer as it was: [GetDescendants],
    [GetAncestors], [IsEdge] and [GetVertex] return afterwards what they
    would have returned before. *)
Theorem queries_leave_answers d (os : list op) :
  reachable d → forallb is_query os = true →
  ∃ d', run_ops os d = Some d' ∧
    (∀ id, snd <$> GetDescendants id d' = snd <$> GetDescendants id d) ∧
    (∀ id, snd <$> GetAncestors id d' = snd <$> GetAncestors id d) ∧
    (∀ a b, IsEdge d' a b = IsEdge d a b) ∧
    (∀ id, GetVertex d' id = GetVertex d id).
Proof.
  intros Hinv%reachable_invariant Hq.
  destruct (run_ops_total os d Hinv) as [d' Hrun].
  destruct (queries_same_graph os d d' Hinv Hq Hrun) as (Hinv' & Hv & Hvv & Hin & Hout).
  exists d'. split_and!; [done|..].
  - intros id. by apply GetDescendants_same_graph.
  - intros id. by apply GetAncestors_same_graph.
  - intros a b. apply IsEdge_after; [done..|]. intros _ _ _. unfold edge. by rewrite Hout.
  - intros id. apply GetVertex_ext. by rewrite Hvv.
Qed.

End caches.

Lemma queries_leave_answers_witness :
  ∃ d', run_ops (E := sorted_env) [OpGetDescendants "1"; OpFlushCaches; OpGetAncestors "5"]%string
          chain5 = Some d' ∧
        ∀ id, snd <$> GetDescendants (E := sorted_env) id d'
              = snd <$> GetDescendants (E := sorted_env) id chain5.
Proof.
  destruct (queries_leave_answers (E := sorted_env) (EOk := sorted_env_ok) chain5
              [OpGetDescendants "1"; OpFlushCaches; OpGetAncestors "5"]%string)
    as (d' & Hrun & Hdesc & _).
  - exists chain5_ops. exact chain5_run.
  - reflexivity.
  - exists d'. split; [exact Hrun | exact Hdesc].
Defined.
Section size_and_reduction.
Context {K T : Type} `{Countable K} {E : Env K T} {EOk : EnvOk E}.
Implicit Types (d : GenericDAG K T).

Lemma size_swap_image (X : gset (K * K)) :
  size (set_map (D := gset (K * K)) (λ p, (p.2, p.1)) X) = size X.
Proof.
  induction X as [|x X Hx IH] using set_ind_L.
  - by rewrite set_map_empty.
  - rewrite set_map_union_L, set_map_singleton_L, !size_union, !size_singleton, IH.
    + done.
    + set_solver.
    + intros p ->%elem_of_singleton (y & Hy & HyX)%elem_of_map.
      destruct x, y. simpl in Hy. by simplify_eq.
Qed.

Lemma edge_pairs_inbound d :
  adjacency_symmetric d →
  edge_pairs (inboundEdge d)
  = set_map (D := gset (K * K)) (λ p, (p.2, p.1)) (edge_pairs (outboundEdge d)).
Proof.
  intros Hsym. apply set_eq. intros [b a]. rewrite elem_of_edge_pairs, elem_of_map. split.
  - intros Hin%Hsym. exists (a, b). split; [done|]. by apply elem_of_edge_pairs.
  - intros ([a' b'] & [= -> ->] & Hout%elem_of_edge_pairs). by apply Hsym.
Qed.

(** X13: [GetSize] is the number of edges.  It equals the number of pairs
    of keys joined in the forward map, which on a store a client can reach
    are exactly the pairs of vertices for which [IsEdge] answers true, and it
    equals the count taken over the reverse map. *)
Theorem GetSize_counts_edges d :
  reachable d →
  GetSize d = size (edge_pairs (outboundEdge d)) ∧
  GetSize d = size (edge_pairs (inboundEdge d)) ∧
  (∀ ka kb, (ka, kb) ∈ edge_pairs (outboundEdge d) ↔
     ∃ a b, vertices d !! ka = Some a ∧ vertices d !! kb = Some b ∧
            IsEdge d a b = (true, None)).
Proof.
  intros Hinv%reachable_invariant. split_and!.
  - apply getSize_edge_pairs.
  - rewrite (edge_pairs_inbound d (inv_symmetric d Hinv)), size_swap_image.
    apply getSize_edge_pairs.
  - intros ka kb. rewrite elem_of_edge_pairs. split.
    + intros Hedge.
      destruct (inv_edges_live d Hinv ka kb Hedge) as (a & b & Ha & Hb & _).
      exists a, b. split_and!; [done..|]. by eapply named_edge.
    + intros (a & b & Ha & Hb & (_ & _ & Hedge)%id_edge_keys); [|done].
      by rewrite (vertices_key_of d ka a (inv_indices d Hinv) Ha),
        (vertices_key_of d kb b (inv_indices d Hinv) Hb).
Qed.

Lemma id_edge_same_vertices d d' (a b : string) :
  dag_invariant d → dag_invariant d' → vertexValues d' = vertexValues d →
  id_edge d' a b ↔
  saneID d a = None ∧ saneID d b = None ∧ edge d' (key_of d a) (key_of d b).
Proof.
  intros Hinv Hinv' Hvv. rewrite id_edge_keys by done.
  by rewrite !(saneID_ext d d'), !(key_of_ext d d').
Qed.

(** X14: on a store a client can reach [ReduceTransitively] returns, keeps
    exactly the edges a→b for which no other child of [a] leads to [b], so
    that afterwards no edge is a shortcut for a longer path; the paths between
    vertices are those of before, and a second reduction changes no
    answer of [IsEdge]. *)
Theorem ReduceTransitively_minimal d :
  reachable d →
  ∃ d', ReduceTransitively d = Some d' ∧
    (∀ a b, id_edge d' a b ↔
            id_edge d a b ∧ ¬ ∃ c, id_edge d a c ∧ tc (id_edge d) c b) ∧
    (∀ a b, tc (id_edge d') a b ↔ tc (id_edge d) a b) ∧
    (∀ a c b, id_edge d' a c → tc (id_edge d') c b → ¬ id_edge d' a b) ∧
    (∀ id, GetVertex d' id = GetVertex d id) ∧
    ∃ d'', ReduceTransitively d' = Some d'' ∧ ∀ a b, IsEdge d'' a b = IsEdge d' a b.
Proof.
  intros Hinv%reachable_invariant.
  destruct (ReduceTransitively_spec d Hinv)
    as (d' & Hred & Hinv' & Hv & Hvv & Hedges & Hreach).
  destruct (ReduceTransitively_spec d' Hinv')
    as (d'' & Hred' & Hinv'' & Hv' & Hvv' & Hedges' & _).
  assert (∀ a b, tc (id_edge d') a b ↔ tc (id_edge d) a b) as Hpaths.
  { intros a b. rewrite !tc_id_edge by done.
    by rewrite !(saneID_ext d d'), !(key_of_ext d d'), Hreach. }
  assert (∀ a b, id_edge d' a b ↔
            id_edge d a b ∧ ¬ ∃ c, id_edge d a c ∧ tc (id_edge d) c b) as Hkept.
  { intros a b. rewrite (id_edge_same_vertices d d'), Hedges, (id_edge_keys d) by done.
    split.
    - intros (Ha & Hb & Hedge & Hno). split; [done|].
      intros (c & (_ & Hc & Hac)%id_edge_keys & (_ & _ & Hcb)%tc_id_edge); [|done..].
      apply Hno. by exists (key_of d c).
    - intros ((Ha & Hb & Hedge) & Hno). split_and!; [done..|].
      intros (kc & Hac & Hcb). apply Hno.
      destruct (inv_edges_live d Hinv _ _ Hac) as (_ & c & _ & Hc & _ & Hcne).
      destruct (named_sane d kc c Hinv Hc Hcne) as (Hsc & ->).
      exists c. split; [by apply id_edge_keys|by apply tc_id_edge]. }
  assert (∀ a c b, id_edge d' a c → tc (id_edge d') c b → ¬ id_edge d' a b) as Hmin.
  { intros a c b [Hac _]%Hkept Hcb%Hpaths [_ Hno]%Hkept. apply Hno. by exists c. }
  exists d'. split_and!; [done..| |].
  - intros id. apply GetVertex_ext. by rewrite Hvv.
  - exists d''. split; [done|]. intros a b. apply IsEdge_after; [done..|].
    intros Ha Hb _. rewrite Hedges'. split; [by intros [? _]|]. intros Hedge.
    split; [done|]. intros (kc & Hac & Hcb).
    destruct (inv_edges_live d' Hinv' _ _ Hac) as (_ & c & _ & Hc & _ & Hcne).
    destruct (named_sane d' kc c Hinv' Hc Hcne) as (Hsc & ->).
    apply (Hmin a c b).
    + by apply id_edge_keys.
    + by apply tc_id_edge.
    + by apply id_edge_keys.
Qed.

End size_and_reduction.

Lemma GetSize_counts_edges_witness :
  GetSize (E := sorted_env) chain5 = size (edge_pairs (outboundEdge chain5)) ∧
  GetSize (E := sorted_env) chain5 = size (edge_pairs (inboundEdge chain5)).
Proof.
  destruct (GetSize_counts_edges (E := sorted_env) (EOk := sorted_env_ok) chain5
              (ex_intro _ chain5_ops chain5_run)) as (Hout & Hin & _).
  split; [exact Hout | exact Hin].
Defined.

Lemma ReduceTransitively_minimal_witness :
  ∃ d', ReduceTransitively (E := sorted_env) triangle = Some d' ∧
        ∀ a c b, id_edge (E := sorted_env) d' a c →
                 tc (id_edge (E := sorted_env) d') c b →
                 ¬ id_edge (E := sorted_env) d' a b.
Proof.
  destruct (ReduceTransitively_minimal (E := sorted_env) (EOk := sorted_env_ok) triangle
              (ex_intro _ triangle_ops triangle_run)) as (d' & Hred & _ & _ & Hmin & _).
  exists d'. split; [exact Hred | exact Hmin].
Defined.
